(** * Kiro2api-Node: request translation and account pool

    A shallow embedding of the request translator ([KiroClient], file
    [part_000]) and of the account pool ([AccountPool], file [pool.js]),
    together with the properties the specification states about them.

    Layout: JavaScript values and the few built-ins the sources use, the
    translator, the dispatcher, the pool, and then the theorems. *)

From Stdlib Require Import ZArith Ascii String.
From stdpp Require Import base option list sorting strings pretty gmap sets
  relations.

Open Scope string_scope.
Open Scope list_scope.
Set Warnings "-register-all,-abstract-large-number,-clear-no-such-hyp".

(** ** JavaScript values *)

Module JS.

(** The values a parsed JSON request is made of, plus [undefined].  Numbers
    are the integers that a double holds exactly and prints in plain decimal
    notation; fractions, [NaN] and the infinities are outside the model.  A
    string is a sequence of 8-bit characters standing for its code units
    (letter case is that of ASCII).  An object is its list of own properties
    in insertion order, with distinct keys. *)
Inductive value :=
  | VUndefined
  | VNull
  | VBool (b : bool)
  | VNum (n : Z)
  | VStr (s : string)
  | VArr (l : list value)
  | VObj (o : list (string * value)).

(** What a [throw] carries.  [TypeError] is raised by the engine (property of
    [null], call of a non-function, iteration of a non-iterable, conversion
    of an object without a usable [toString]).  The two translation errors
    are the [Error]s [convertRequest] throws itself; [KiroApiError] is the
    class of that name. *)
Inductive exn :=
  | TypeError
  | UnsupportedModel (label : string)
  | EmptyMessages
  | TokenError (msg : string)
  | KiroApiError (status : Z) (responseText : string) (requestDebug : value).

Inductive result (A : Type) :=
  | Ok (a : A)
  | Throw (e : exn).
Arguments Ok {A} a.
Arguments Throw {A} e.

#[global] Instance result_ret : MRet result := fun _ a => Ok a.
#[global] Instance result_bind : MBind result := fun _ _ f m =>
  match m with Ok a => f a | Throw e => Throw e end.

(** [xs.map(f)] with a callback that may throw. *)
Fixpoint mapM_res {A B} (f : A → result B) (l : list A) : result (list B) :=
  match l with
  | [] => Ok []
  | x :: l' => y ← f x; ys ← mapM_res f l'; Ok (y :: ys)
  end.

Definition is_nil {A} (l : list A) : bool :=
  match l with [] => true | _ :: _ => false end.

(** *** Coercions and tests *)

(** [!!v] *)
Definition truthy (v : value) : bool :=
  match v with
  | VUndefined | VNull | VBool false | VNum 0 | VStr "" => false
  | _ => true
  end.

(** [a || b] *)
Definition or_else (a b : value) : value := if truthy a then a else b.

(** [v === 'lit'] *)
Definition is_str (v : value) (lit : string) : bool :=
  match v with VStr s => bool_decide (s = lit) | _ => false end.

(** *** Objects *)

Definition obj_get (o : list (string * value)) (k : string) : value :=
  match list_find (λ kv, kv.1 = k) o with
  | Some (_, (_, v)) => v
  | None => VUndefined
  end.

Definition obj_has (o : list (string * value)) (k : string) : bool :=
  bool_decide (k ∈ o.*1).

(** A key that is an array index: the decimal numeral, without leading
    zeros, of a number below [2^32 - 1]. *)
Definition array_index (k : string) : option N :=
  let digits := list_ascii_of_string k in
  let n := fold_left (λ acc c, acc * 10 + N.of_nat (nat_of_ascii c - 48))%N
             digits 0%N in
  if bool_decide (pretty n = k) && (n <? 4294967295)%N then Some n else None.

Definition index_le (a b : N * string) : Prop := (a.1 ≤ b.1)%N.
#[global] Instance index_le_dec a b : Decision (index_le a b) :=
  decide (a.1 ≤ b.1)%N.

(** [Object.keys(o)]: the array-index keys in ascending order, then the
    other keys in insertion order. *)
Definition own_keys (o : list (string * value)) : list string :=
  let indexed := omap (λ k, (λ n, (n, k)) <$> array_index k) o.*1 in
  (merge_sort index_le indexed).*2
    ++ filter (λ k, array_index k = None) o.*1.

(** Writing an own property: overwrite in place, or append. *)
Fixpoint obj_set (o : list (string * value)) (k : string) (v : value)
  : list (string * value) :=
  match o with
  | [] => [(k, v)]
  | (k', v') :: o' =>
      if bool_decide (k' = k) then (k, v) :: o' else (k', v') :: obj_set o' k v
  end.

(** [o[k] = v] on an object created by an object literal.  The key
    [__proto__] reaches the setter inherited from [Object.prototype], which
    changes the prototype (not modelled) and adds no property. *)
Definition assign (o : list (string * value)) (k : string) (v : value)
  : list (string * value) :=
  if bool_decide (k = "__proto__") then o else obj_set o k v.

(** [v.k] for the property names the sources read.  None of them lives on a
    prototype, so a primitive or an object without the key answers
    [undefined]; [length] exists on arrays and strings. *)
Definition get (v : value) (k : string) : result value :=
  match v with
  | VUndefined | VNull => Throw TypeError
  | VObj o => Ok (obj_get o k)
  | VArr l => Ok (if bool_decide (k = "length") then VNum (Z.of_nat (length l))
                  else VUndefined)
  | VStr s => Ok (if bool_decide (k = "length")
                  then VNum (Z.of_nat (String.length s)) else VUndefined)
  | VBool _ | VNum _ => Ok VUndefined
  end.

(** *** Strings *)

Definition is_digit (c : ascii) : bool :=
  let n := nat_of_ascii c in (48 <=? n)%nat && (n <=? 57)%nat.
Definition is_upper (c : ascii) : bool :=
  let n := nat_of_ascii c in (65 <=? n)%nat && (n <=? 90)%nat.
Definition is_lower (c : ascii) : bool :=
  let n := nat_of_ascii c in (97 <=? n)%nat && (n <=? 122)%nat.
Definition is_underscore (c : ascii) : bool := bool_decide (c = "_"%char).

(** The class [[a-zA-Z0-9_]]. *)
Definition is_word (c : ascii) : bool :=
  is_lower c || is_upper c || is_digit c || is_underscore c.

Definition lower_char (c : ascii) : ascii :=
  if is_upper c then ascii_of_nat (nat_of_ascii c + 32) else c.

Fixpoint map_chars (f : ascii → ascii) (s : string) : string :=
  match s with
  | EmptyString => EmptyString
  | String c s' => String (f c) (map_chars f s')
  end.

(** [s.toLowerCase()] on the ASCII letters. *)
Definition toLowerCase (s : string) : string := map_chars lower_char s.

(** [s.includes(t)] *)
Fixpoint includes (s t : string) : bool :=
  String.prefix t s ||
  match s with
  | EmptyString => false
  | String _ s' => includes s' t
  end.

(** [parts.join(sep)] on parts that are already strings. *)
Fixpoint join (sep : string) (parts : list string) : string :=
  match parts with
  | [] => ""
  | [p] => p
  | p :: ps => p +:+ sep +:+ join sep ps
  end.

Definition nl : string := String (ascii_of_nat 10) EmptyString.

(** *** ToString *)

(** [String(v)], [`${v}`] and [''+v].  An array prints as its elements joined
    by a comma, [null] and [undefined] elements printing as nothing; a plain
    object prints as [[object Object]] unless it has an own [toString]
    property, which (coming from JSON) is not callable and makes the
    conversion throw. *)
Fixpoint toString (v : value) : result string :=
  match v with
  | VUndefined => Ok "undefined"
  | VNull => Ok "null"
  | VBool true => Ok "true"
  | VBool false => Ok "false"
  | VNum n => Ok (pretty n)
  | VStr s => Ok s
  | VArr l =>
      parts ← (fix elems (l : list value) : result (list string) :=
                 match l with
                 | [] => Ok []
                 | x :: l' =>
                     s ← match x with
                         | VUndefined | VNull => Ok ""
                         | _ => toString x
                         end;
                     ss ← elems l'; Ok (s :: ss)
                 end) l;
      Ok (join "," parts)
  | VObj o => if obj_has o "toString" then Throw TypeError
              else Ok "[object Object]"
  end.

(** [arr.join(sep)] on arbitrary elements. *)
Definition join_values (sep : string) (l : list value) : result string :=
  parts ← mapM_res (λ x, match x with
                         | VUndefined | VNull => Ok ""
                         | _ => toString x
                         end) l;
  Ok (join sep parts).

(** [for (const x of v)]: arrays iterate over their elements, strings over
    their characters, and nothing else in the model is iterable. *)
Definition iterate (v : value) : result (list value) :=
  match v with
  | VArr l => Ok l
  | VStr s => Ok ((λ c, VStr (String c EmptyString)) <$> list_ascii_of_string s)
  | _ => Throw TypeError
  end.

End JS.

(** ** The translator: [KiroClient] *)

Module KiroClient.
Import JS.

(** Built-ins of the host that the translator calls and that are not part of
    the repository. [JSON_parse] answers [None] where [JSON.parse] throws. *)
Class Host := {
  JSON_parse : string → option value;
  JSON_stringify : value → string
}.

(** The fields of [this] that the methods read: [config], the credentials of
    the token manager, and the database manager's [findModelMapping], whose
    source is not part of the translator and is taken as given ([None] when
    no database manager is bound). *)
Record client := {
  config_region : value;
  config_kiroVersion : value;
  config_proxyUrl : value;
  credentials_machineId : value;
  credentials_profileArn : value;
  dbManager : option (value → value)
}.

(** *** Tool names *)

Fixpoint collapse_underscores (s : string) : string :=
  match s with
  | EmptyString => EmptyString
  | String c s' =>
      match s' with
      | String c' _ =>
          if is_underscore c && is_underscore c' then collapse_underscores s'
          else String c (collapse_underscores s')
      | EmptyString => String c EmptyString
      end
  end.

Fixpoint trim_leading (s : string) : string :=
  match s with
  | String c s' => if is_underscore c then trim_leading s' else s
  | EmptyString => EmptyString
  end.

Fixpoint trim_trailing (s : string) : string :=
  match s with
  | EmptyString => EmptyString
  | String c s' =>
      let r := trim_trailing s' in
      if is_underscore c && bool_decide (r = "") then "" else String c r
  end.

Definition starts_with_digit (s : string) : bool :=
  match s with String c _ => is_digit c | EmptyString => false end.

Definition sanitizeToolName (name : value) : result string :=
  raw ← match name with
        | VUndefined | VNull => Ok ""
        | _ => toString name
        end;
  let replaced :=
    collapse_underscores
      (map_chars (λ c, if is_word c then c else "_"%char) raw) in
  let trimmed := trim_trailing (trim_leading replaced) in
  let safe := if bool_decide (trimmed = "") then "tool" else trimmed in
  Ok (if starts_with_digit safe then "t_" +:+ safe else safe).

(** The per-request name table: the [Map] from original to assigned names
    and the [Set] of assigned names. *)
Record names := {
  toolNameMap : gmap string string;
  usedNames : gset string
}.

Definition no_names : names := {| toolNameMap := ∅; usedNames := ∅ |}.

(** [`${base}_${i}`] *)
Definition suffixed (base : string) (i : nat) : string :=
  base +:+ "_" +:+ pretty i.

(** The [while (usedNames.has(candidate))] loop, [i] being the next suffix.
    Each round that does not exit accounts for one more member of
    [usedNames], so [S (size usedNames)] rounds are enough
    (lemma [free_name_fresh]); the bound only makes the recursion
    structural. *)
Fixpoint free_name (rounds : nat) (base : string) (used : gset string)
    (candidate : string) (i : nat) : string :=
  match rounds with
  | 0 => candidate
  | S rounds' =>
      if bool_decide (candidate ∈ used)
      then free_name rounds' base used (suffixed base i) (S i)
      else candidate
  end.

(** Only strings reach this method: both callers have applied
    [toLowerCase] to the name before. *)
Definition getOrCreateKiroToolName (originalName : string) (ns : names)
  : result (string * names) :=
  match toolNameMap ns !! originalName with
  | Some assigned => Ok (assigned, ns)
  | None =>
      base ← sanitizeToolName (VStr originalName);
      let candidate :=
        free_name (S (size (usedNames ns))) base (usedNames ns) base 2 in
      Ok (candidate,
          {| toolNameMap := <[originalName := candidate]> (toolNameMap ns);
             usedNames := {[candidate]} ∪ usedNames ns |})
  end.

Definition isUnsupportedTool (name : value) : result bool :=
  match name with
  | VStr s =>
      let lower := toLowerCase s in
      Ok (bool_decide (lower = "web_search")
          || bool_decide (lower = "websearch"))
  | _ => Throw TypeError
  end.

Section WithHost.
Context `{!Host}.

Definition normalizeJsonObject (v : value) : value :=
  let fallback := VObj [] in
  match v with
  | VUndefined | VNull => fallback
  | VStr s =>
      match JSON_parse s with
      | Some (VObj o) => VObj o
      | _ => fallback
      end
  | VObj o => VObj o
  | _ => fallback
  end.


(** *** The request-debug summary *)

(** [summarize (7 - depth) v] is [summarizeForDebug(v, depth)]: the source
    counts the depth up to its bound, the recursion here counts the levels
    that remain.  Lemma [summarizeForDebug_unfold] restates it with the
    depth. *)
Fixpoint summarize (levels : nat) (v : value) : value :=
  match levels with
  | 0 => VStr "[MaxDepth]"
  | S levels' =>
      match v with
      | VNull => VNull
      | VStr s => VStr ("<string len=" +:+ pretty (String.length s) +:+ ">")
      | VNum _ | VBool _ => v
      | VUndefined => VStr "<undefined>"
      | VArr l =>
          VObj [("_type", VStr "array");
                ("length", VNum (Z.of_nat (length l)));
                ("sample", VArr (summarize levels' <$> take 3 l))]
      | VObj o =>
          let keys := take 60 (own_keys o) in
          VObj (fold_left
                  (λ out k, assign out k (summarize levels' (obj_get o k)))
                  keys
                  [("_type", VStr "object"); ("keys", VArr (VStr <$> keys))])
      end
  end.

Definition summarizeForDebug (v : value) (depth : nat) : value :=
  summarize (7 - depth) v.

(** *** Model mapping *)

Definition mapModel (this : client) (model : value) : result value :=
  match dbManager this with
  | None =>
      match model with
      | VStr s =>
          let lower := toLowerCase s in
          if includes lower "sonnet" then Ok (VStr "claude-sonnet-4.5")
          else if includes lower "opus" then Ok (VStr "claude-opus-4.5")
          else if includes lower "haiku" then Ok (VStr "claude-haiku-4.5")
          else Ok VNull
      | _ => Throw TypeError
      end
  | Some findModelMapping =>
      let mapping := findModelMapping model in
      if truthy mapping then get mapping "internalId" else Ok VNull
  end.

(** *** Content extractors *)

Definition extractTextContent (content : value) : result string :=
  match content with
  | VStr s => Ok s
  | VArr l =>
      texts ← (fix filter_text (l : list value) : result (list value) :=
                 match l with
                 | [] => Ok []
                 | c :: l' =>
                     ty ← get c "type";
                     rest ← filter_text l';
                     Ok (if is_str ty "text" then c :: rest else rest)
                 end) l;
      parts ← mapM_res (λ c, get c "text") texts;
      join_values nl parts
  | _ => Ok ""
  end.

(** The content of a [tool_result] block as a string. *)
Definition resultContent (content : value) : result string :=
  match content with
  | VStr s => Ok s
  | VArr l =>
      parts ← mapM_res (λ c, t ← get c "text"; Ok (or_else t (VStr ""))) l;
      join_values nl parts
  | _ => Ok ""
  end.

(** The [for (const block of content)] loop of [extractUserContent]. *)
Fixpoint user_blocks (blocks textParts toolResults : list value)
  : result (list value * list value) :=
  match blocks with
  | [] => Ok (textParts, toolResults)
  | block :: rest =>
      ty ← get block "type";
      if is_str ty "text" then
        t ← get block "text";
        user_blocks rest (textParts ++ [t]) toolResults
      else if is_str ty "tool_result" then
        c ← get block "content";
        rc ← resultContent c;
        id ← get block "tool_use_id";
        is_error ← get block "is_error";
        user_blocks rest textParts
          (toolResults ++
             [VObj [("toolUseId", id);
                    ("status",
                     VStr (if truthy is_error then "error" else "success"));
                    ("content", VArr [VObj [("text", VStr rc)]])]])
      else user_blocks rest textParts toolResults
  end.

Definition extractUserContent (content : value)
  : result (string * list value) :=
  if negb (truthy content) then Ok ("", [])
  else match content with
       | VStr s => Ok (s, [])
       | _ =>
           blocks ← iterate content;
           '(textParts, toolResults) ← user_blocks blocks [] [];
           text ← join_values nl textParts;
           Ok (text, toolResults)
       end.

(** The [for (const block of content || [])] loop of
    [extractAssistantContent]. *)
Fixpoint assistant_blocks (blocks : list value) (thinkingContent : string)
    (textParts toolUses : list value) (ns : names)
  : result (string * list value * list value * names) :=
  match blocks with
  | [] => Ok (thinkingContent, textParts, toolUses, ns)
  | block :: rest =>
      ty ← get block "type";
      if is_str ty "thinking" then
        th ← get block "thinking";
        s ← toString (or_else th (VStr ""));
        assistant_blocks rest (thinkingContent +:+ s) textParts toolUses ns
      else if is_str ty "text" then
        t ← get block "text";
        assistant_blocks rest thinkingContent (textParts ++ [t]) toolUses ns
      else if is_str ty "tool_use" then
        name ← get block "name";
        unsupported ← isUnsupportedTool name;
        if (unsupported : bool) then
          assistant_blocks rest thinkingContent textParts toolUses ns
        else
          id ← get block "id";
          '(kiroName, ns') ←
            match name with
            | VStr s => getOrCreateKiroToolName s ns
            | _ => Throw TypeError
            end;
          input ← get block "input";
          assistant_blocks rest thinkingContent textParts
            (toolUses ++
               [VObj [("toolUseId", id);
                      ("name", VStr kiroName);
                      ("input",
                       normalizeJsonObject (or_else input (VObj [])))]])
            ns'
      else assistant_blocks rest thinkingContent textParts toolUses ns
  end.

Definition extractAssistantContent (content : value) (ns : names)
  : result (string * list value * names) :=
  match content with
  | VStr s => Ok (s, [], ns)
  | _ =>
      blocks ← iterate (or_else content (VArr []));
      '(thinkingContent, textParts, toolUses, ns') ←
        assistant_blocks blocks "" [] [] ns;
      joined ← join_values nl textParts;
      let finalText :=
        if bool_decide (thinkingContent = "") then joined
        else if is_nil textParts then
          "<thinking>" +:+ thinkingContent +:+ "</thinking>"
        else "<thinking>" +:+ thinkingContent +:+ "</thinking>" +:+ nl +:+ nl
               +:+ joined in
      Ok (if bool_decide (finalText = "") && negb (is_nil toolUses)
          then "OK" else finalText,
          toolUses, ns')
  end.


(** *** Merging user messages *)

(** The loop shared by [mergeUserMessages] and by the construction of the
    current message: the non-empty texts and all tool results, in order. *)
Fixpoint user_parts (msgs : list value) (parts : list string)
    (results : list value) : result (list string * list value) :=
  match msgs with
  | [] => Ok (parts, results)
  | msg :: rest =>
      content ← get msg "content";
      '(text, toolResults) ← extractUserContent content;
      user_parts rest
        (if bool_decide (text = "") then parts else parts ++ [text])
        (results ++ toolResults)
  end.

Definition mergeUserMessages (messages : list value) (modelId : value)
  : result value :=
  '(contentParts, allToolResults) ← user_parts messages [] [];
  let joined := join nl contentParts in
  let content :=
    if bool_decide (joined = "")
    then (if is_nil allToolResults then "" else "continue")
    else joined in
  Ok (VObj ([("content", VStr content); ("modelId", modelId);
             ("origin", VStr "AI_EDITOR")]
            ++ if is_nil allToolResults then []
               else [("userInputMessageContext",
                      VObj [("toolResults", VArr allToolResults)])])).

(** *** [convertRequest] *)

Definition user_turn (m : value) : value := VObj [("userInputMessage", m)].
Definition assistant_turn (m : value) : value :=
  VObj [("assistantResponseMessage", m)].

(** [anthropicReq.messages || []] as the sequence the method indexes.  A
    string is indexed by character; any other non-array either has length
    [0] or ends in a [TypeError] at [messages.slice]. *)
Definition messages_of (anthropicReq : value) : result (list value) :=
  m ← get anthropicReq "messages";
  match or_else m (VArr []) with
  | VArr l => Ok l
  | VStr s => iterate (VStr s)
  | VObj o =>
      match obj_get o "length" with
      | VNum 0 => Ok []
      | _ => Throw TypeError
      end
  | _ => Throw TypeError
  end.

(** The number of rounds of the [while] loop that moves [currentStart]
    down, on the messages taken from the last one backwards. *)
Fixpoint trailing_users (backwards : list value) : result nat :=
  match backwards with
  | [] => Ok 0
  | m :: rest =>
      role ← get m "role";
      if is_str role "user" then n ← trailing_users rest; Ok (S n) else Ok 0
  end.

Definition thinking_prefix (anthropicReq : value) : result (option string) :=
  thinking ← get anthropicReq "thinking";
  if truthy thinking then
    ty ← get thinking "type";
    if is_str ty "enabled" then
      bt ← get thinking "budget_tokens";
      budgetTokens ← toString (or_else bt (VNum 10000));
      Ok (Some ("<thinking_mode>enabled</thinking_mode><max_thinking_length>"
                  +:+ budgetTokens +:+ "</max_thinking_length>"))
    else Ok None
  else Ok None.

Definition instruction_pair (content : string) (modelId : value) : list value :=
  [user_turn (VObj [("content", VStr content); ("modelId", modelId);
                    ("origin", VStr "AI_EDITOR")]);
   assistant_turn
     (VObj [("content", VStr "I will follow these instructions.")])].

(** The turns pushed for the system prompt and the thinking prefix. *)
Definition system_turns (system : value) (thinkingPrefix : option string)
    (modelId : value) : result (list value) :=
  if truthy system then
    systemContent ←
      match system with
      | VStr s => Ok s
      | VArr l => parts ← mapM_res (λ s, get s "text") l; join_values nl parts
      | _ => Ok ""
      end;
    if bool_decide (systemContent = "") then Ok []
    else
      let finalContent :=
        match thinkingPrefix with
        | Some p =>
            if negb (includes systemContent "<thinking_mode>")
               && negb (includes systemContent "<max_thinking_length>")
            then p +:+ nl +:+ systemContent
            else systemContent
        | None => systemContent
        end in
      Ok (instruction_pair finalContent modelId)
  else
    match thinkingPrefix with
    | Some p => Ok (instruction_pair p modelId)
    | None => Ok []
    end.

(** The history loop over [messages[0 .. historyEnd)]. *)
Fixpoint walk (modelId : value) (msgs userBuffer history : list value)
    (ns : names) : result (list value * list value * names) :=
  match msgs with
  | [] => Ok (userBuffer, history, ns)
  | msg :: rest =>
      role ← get msg "role";
      if is_str role "user" then
        walk modelId rest (userBuffer ++ [msg]) history ns
      else if is_str role "assistant" then
        flushed ←
          (if is_nil userBuffer then Ok history
           else mergedUser ← mergeUserMessages userBuffer modelId;
                Ok (history ++ [user_turn mergedUser]));
        content ← get msg "content";
        '(text, toolUses, ns') ← extractAssistantContent content ns;
        let assistantMsg :=
          VObj ([("content", VStr text)]
                ++ if is_nil toolUses then []
                   else [("toolUses", VArr toolUses)]) in
        walk modelId rest [] (flushed ++ [assistant_turn assistantMsg]) ns'
      else walk modelId rest userBuffer history ns
  end.

(** [tools.filter(t => !this.isUnsupportedTool(t.name))] *)
Fixpoint supported_tools (tools : list value) : result (list value) :=
  match tools with
  | [] => Ok []
  | t :: rest =>
      name ← get t "name";
      unsupported ← isUnsupportedTool name;
      kept ← supported_tools rest;
      Ok (if (unsupported : bool) then kept else t :: kept)
  end.

(** [(t.description || '').slice(0, 10000)] *)
Definition description_of (d : value) : result value :=
  match or_else d (VStr "") with
  | VStr s => Ok (VStr (String.substring 0 10000 s))
  | VArr l => Ok (VArr (take 10000 l))
  | _ => Throw TypeError
  end.

(** The [.map] that builds the tool specifications. *)
Fixpoint tool_specs (tools : list value) (ns : names)
  : result (list value * names) :=
  match tools with
  | [] => Ok ([], ns)
  | t :: rest =>
      name ← get t "name";
      '(kiroName, ns1) ←
        match name with
        | VStr s => getOrCreateKiroToolName s ns
        | _ => Throw TypeError
        end;
      d ← get t "description";
      description ← description_of d;
      schema ← get t "input_schema";
      let spec :=
        VObj [("toolSpecification",
               VObj [("name", VStr kiroName);
                     ("description", description);
                     ("inputSchema",
                      VObj [("json",
                             normalizeJsonObject
                               (or_else schema (VObj [])))])])] in
      '(specs, ns2) ← tool_specs rest ns1;
      Ok (spec :: specs, ns2)
  end.

Definition chatTriggerType_of (toolList : list value) (tool_choice : value)
  : result string :=
  if is_nil toolList then Ok "MANUAL"
  else if truthy tool_choice then
    tcType ← get tool_choice "type";
    Ok (if is_str tcType "any" || is_str tcType "tool"
        then "AUTO" else "MANUAL")
  else Ok "MANUAL".

(** [ids] are the two values [uuidv4()] returns, [conversationId] first. *)
Definition convertRequest (this : client) (ids : string * string)
    (anthropicReq : value) : result (value * gmap string string) :=
  model ← get anthropicReq "model";
  modelId ← mapModel this model;
  if negb (truthy modelId)
  then label ← toString model; Throw (UnsupportedModel label)
  else
  messages ← messages_of anthropicReq;
  if is_nil messages then Throw EmptyMessages
  else
  let conversationId := ids.1 in
  let agentContinuationId := ids.2 in
  trailing ← trailing_users (reverse messages);
  let currentStart := length messages - trailing in
  let currentUserMessages := drop currentStart messages in
  endsWithAssistant ←
    (if is_nil currentUserMessages then
       match last messages with
       | Some m => role ← get m "role"; Ok (is_str role "assistant")
       | None => Ok false
       end
     else Ok false);
  thinkingPrefix ← thinking_prefix anthropicReq;
  system ← get anthropicReq "system";
  history0 ← system_turns system thinkingPrefix modelId;
  let historyEnd :=
    if (endsWithAssistant : bool) then length messages else currentStart in
  '(userBuffer, history1, ns) ←
    walk modelId (take historyEnd messages) [] history0 no_names;
  history ←
    (if is_nil userBuffer then Ok history1
     else mergedUser ← mergeUserMessages userBuffer modelId;
          Ok (history1 ++ [user_turn mergedUser;
                           assistant_turn (VObj [("content", VStr "OK")])]));
  '(currentText, allToolResults) ←
    (if endsWithAssistant then Ok ("continue", [])
     else '(textParts, results) ← user_parts currentUserMessages [] [];
          let joined := join nl textParts in
          Ok (if bool_decide (joined = "") then "continue" else joined,
              results));
  toolsIn ← get anthropicReq "tools";
  toolList ← match or_else toolsIn (VArr []) with
             | VArr l => Ok l
             | _ => Throw TypeError
             end;
  kept ← supported_tools toolList;
  '(tools, ns') ← tool_specs kept ns;
  let userInputMessageContext :=
    (if is_nil tools then [] else [("tools", VArr tools)])
    ++ (if is_nil allToolResults then []
        else [("toolResults", VArr allToolResults)]) in
  tool_choice ← get anthropicReq "tool_choice";
  chatTriggerType ← chatTriggerType_of toolList tool_choice;
  let userInputMessage :=
    VObj ([("content", VStr currentText); ("modelId", modelId);
           ("origin", VStr "AI_EDITOR")]
          ++ if is_nil userInputMessageContext then []
             else [("userInputMessageContext",
                    VObj userInputMessageContext)]) in
  let kiroRequest :=
    VObj ([("conversationState",
            VObj [("agentContinuationId", VStr agentContinuationId);
                  ("agentTaskType", VStr "vibe");
                  ("chatTriggerType", VStr chatTriggerType);
                  ("currentMessage",
                   VObj [("userInputMessage", userInputMessage)]);
                  ("conversationId", VStr conversationId);
                  ("history", VArr history)])]
          ++ if truthy (credentials_profileArn this)
             then [("profileArn", credentials_profileArn this)] else []) in
  Ok (kiroRequest, toolNameMap ns').


(** *** The dispatcher: [callApiStream] *)

Record response := {
  ok : bool;
  status : Z;
  text : string
}.

(** What the collaborators answer during one call: the token manager, the
    random sources, the dynamic import of the proxy agent, and [fetch]. *)
Record world := {
  ensureValidToken : result value;
  uuidv4 : nat → string;
  randomBytes_hex : string;
  import_proxy_agent : bool;
  fetch : string → list (string * string) → string → option value
          → result response
}.

(** The calls that leave the client, in the order they are made. *)
Inductive event :=
  | CallEnsureValidToken
  | CallFetch (url body : string)
  | CallResponseText
  | CallInsertLog.

(** Computations that may throw and that record their outside calls. *)
Definition io (A : Type) : Type := list event → result A * list event.

#[global] Instance io_ret : MRet io := λ _ a tr, (Ok a, tr).
#[global] Instance io_bind : MBind io := λ _ _ f m tr,
  match m tr with
  | (Ok a, tr') => f a tr'
  | (Throw e, tr') => (Throw e, tr')
  end.

Definition call {A} (e : event) (answer : result A) : io A :=
  λ tr, (answer, tr ++ [e]).
Definition pure {A} (r : result A) : io A := λ tr, (r, tr).
Definition run {A} (m : io A) : result A * list event := m [].

Definition buildHeaders (this : client) (w : world) (token : value)
  : result (list (string * string)) :=
  region ← toString (or_else (config_region this) (VStr "us-east-1"));
  kiroVersion ← toString (or_else (config_kiroVersion this) (VStr "0.8.0"));
  machineId ← toString (or_else (credentials_machineId this)
                          (VStr (randomBytes_hex w)));
  let xAmzUserAgent :=
    "aws-sdk-js/1.0.27 KiroIDE-" +:+ kiroVersion +:+ "-" +:+ machineId in
  let userAgent :=
    "aws-sdk-js/1.0.27 ua/2.1 os/windows lang/js md/nodejs#20.0.0 "
    +:+ "api/codewhispererstreaming#1.0.27 m/E KiroIDE-"
    +:+ kiroVersion +:+ "-" +:+ machineId in
  bearer ← toString token;
  Ok [("Content-Type", "application/json");
      ("x-amzn-codewhisperer-optout", "true");
      ("x-amzn-kiro-agent-mode", "vibe");
      ("x-amz-user-agent", xAmzUserAgent);
      ("User-Agent", userAgent);
      ("Host", "q." +:+ region +:+ ".amazonaws.com");
      ("amz-sdk-invocation-id", uuidv4 w 2);
      ("amz-sdk-request", "attempt=1; max=3");
      ("Authorization", "Bearer " +:+ bearer);
      ("Connection", "close")].

Definition callApiStream (this : client) (w : world) (anthropicReq : value)
  : io (response * gmap string string) :=
  token ← call CallEnsureValidToken (ensureValidToken w);
  region ← pure (toString (or_else (config_region this) (VStr "us-east-1")));
  let url :=
    "https://q." +:+ region +:+ ".amazonaws.com/generateAssistantResponse" in
  '(kiroReq, toolNameMap) ←
    pure (convertRequest this (uuidv4 w 0, uuidv4 w 1) anthropicReq);
  headers ← pure (buildHeaders this w token);
  let requestDebug := summarizeForDebug kiroReq 0 in
  let body := JSON_stringify kiroReq in
  let agent :=
    if truthy (config_proxyUrl this) && import_proxy_agent w
    then Some (config_proxyUrl this) else None in
  response ← call (CallFetch url body) (fetch w url headers body agent);
  if ok response then mret (response, toolNameMap)
  else
    error ← call CallResponseText (Ok (text response));
    pure (Throw (KiroApiError (status response) error requestDebug)).

End WithHost.

End KiroClient.

(** ** The account pool: [AccountPool] *)

Module AccountPool.
Import JS.

Inductive account_status := active | cooldown | invalid | disabled.

#[global] Instance account_status_eq_dec : EqDecision account_status.
Proof. solve_decision. Defined.

(** An account object.  Its credentials and usage are opaque to the pool's
    selection and status logic and are left out; times are milliseconds. *)
Record account := {
  id : string;
  name : string;
  status : account_status;
  requestCount : nat;
  errorCount : nat;
  createdAt : N;
  lastUsedAt : option N
}.

(** Account objects are shared between the [accounts] map and the timer
    callbacks that captured them, so they live in a store and are referred
    to by location. *)
Definition loc := nat.

(** A pending [setTimeout] of [recordError]: the time it is due and the
    account object its callback captured. *)
Record timer := {
  due : N;
  target : loc
}.

(** The pool: the [accounts] map in insertion order, the account objects,
    the strategy and the round-robin index, the pending timers, the clock,
    and the roster as [save()] last wrote it.  Token managers are left
    out. *)
Record pool := {
  accounts : list (string * loc);
  store : gmap loc account;
  strategy : string;
  roundRobinIndex : nat;
  timers : list timer;
  now : N;
  disk : list account
}.

Definition set_store (h : gmap loc account) (p : pool) : pool :=
  {| accounts := accounts p; store := h; strategy := strategy p;
     roundRobinIndex := roundRobinIndex p; timers := timers p;
     now := now p; disk := disk p |}.

Definition with_status (s : account_status) (a : account) : account :=
  {| id := id a; name := name a; status := s;
     requestCount := requestCount a; errorCount := errorCount a;
     createdAt := createdAt a; lastUsedAt := lastUsedAt a |}.

(** [this.accounts.get(id)] *)
Definition accounts_get (i : string) (p : pool) : option loc :=
  snd <$> (snd <$> list_find (λ kl, kl.1 = i) (accounts p)).

Definition status_at (l : loc) (p : pool) : option account_status :=
  status <$> store p !! l.

(** [Array.from(this.accounts.values())], each object with its location. *)
Definition values (p : pool) : list (loc * account) :=
  omap (λ kl, (λ a, (kl.2, a)) <$> store p !! kl.2) (accounts p).

(** [save()]: the roster as it is when the call is made. *)
Definition save (p : pool) : pool :=
  {| accounts := accounts p; store := store p; strategy := strategy p;
     roundRobinIndex := roundRobinIndex p; timers := timers p;
     now := now p; disk := (values p).*2 |}.

Definition available (p : pool) : list (loc * account) :=
  filter (λ la, status la.2 = active) (values p).

(** [available.reduce((a, b) => a.requestCount < b.requestCount ? a : b)] *)
Definition least_used (first : loc * account) (rest : list (loc * account))
  : loc * account :=
  fold_left (λ a b, if (requestCount a.2 <? requestCount b.2)%nat then a else b)
    rest first.

(** [rnd n] is [Math.floor(Math.random() * n)].  An index outside the array
    reads [undefined], and [selected.requestCount++] then throws. *)
Definition selectAccount (rnd : nat → nat) (p : pool)
  : result (option (string * string) * pool) :=
  match available p with
  | [] => Ok (None, p)
  | first :: rest =>
      let n := length (first :: rest) in
      let '(selected, index') :=
        if bool_decide (strategy p = "random")
        then ((first :: rest) !! rnd n, roundRobinIndex p)
        else if bool_decide (strategy p = "least-used")
        then (Some (least_used first rest), roundRobinIndex p)
        else ((first :: rest) !! (roundRobinIndex p `mod` n),
              S (roundRobinIndex p)) in
      match selected with
      | None => Throw TypeError
      | Some (l, a) =>
          let a' :=
            {| id := id a; name := name a; status := status a;
               requestCount := S (requestCount a); errorCount := errorCount a;
               createdAt := createdAt a; lastUsedAt := Some (now p) |} in
          Ok (Some (id a, name a),
              save {| accounts := accounts p; store := <[l := a']> (store p);
                      strategy := strategy p; roundRobinIndex := index';
                      timers := timers p; now := now p; disk := disk p |})
      end
  end.

(** The delay of the cooldown timer, [5 * 60 * 1000] milliseconds. *)
Definition cooldown_ms : N := 5 * 60 * 1000.

Definition recordError (i : string) (isRateLimit : bool) (p : pool) : pool :=
  match accounts_get i p with
  | None => p
  | Some l =>
      match store p !! l with
      | None => p
      | Some a =>
          let a1 :=
            {| id := id a; name := name a; status := status a;
               requestCount := requestCount a; errorCount := S (errorCount a);
               createdAt := createdAt a; lastUsedAt := lastUsedAt a |} in
          if isRateLimit then
            save {| accounts := accounts p;
                    store := <[l := with_status cooldown a1]> (store p);
                    strategy := strategy p;
                    roundRobinIndex := roundRobinIndex p;
                    timers := timers p ++ [{| due := (now p + cooldown_ms)%N;
                                              target := l |}];
                    now := now p; disk := disk p |}
          else save (set_store (<[l := a1]> (store p)) p)
      end
  end.

(** The callback of the cooldown timer, run on the object it captured. *)
Definition cooldown_elapsed (l : loc) (p : pool) : pool :=
  match store p !! l with
  | Some a =>
      if bool_decide (status a = cooldown)
      then set_store (<[l := with_status active a]> (store p)) p
      else p
  | None => p
  end.

(** The [n]-th pending timer fires: possible once it is due; it leaves the
    queue and its callback runs. *)
Definition fire (n : nat) (p : pool) : option pool :=
  match timers p !! n with
  | Some t =>
      if (due t <=? now p)%N then
        Some (cooldown_elapsed (target t)
                {| accounts := accounts p; store := store p;
                   strategy := strategy p;
                   roundRobinIndex := roundRobinIndex p;
                   timers := delete n (timers p);
                   now := now p; disk := disk p |})
      else None
  | None => None
  end.

(** Time passes. *)
Definition elapse (ms : N) (p : pool) : pool :=
  {| accounts := accounts p; store := store p; strategy := strategy p;
     roundRobinIndex := roundRobinIndex p; timers := timers p;
     now := (now p + ms)%N; disk := disk p |}.

(** [markInvalid], [enableAccount] and [disableAccount] differ in the status
    they write (and in a boolean they return, which is left out). *)
Definition set_status (s : account_status) (i : string) (p : pool) : pool :=
  match accounts_get i p with
  | Some l =>
      match store p !! l with
      | Some a => save (set_store (<[l := with_status s a]> (store p)) p)
      | None => p
      end
  | None => p
  end.

Definition markInvalid : string → pool → pool := set_status invalid.
Definition enableAccount : string → pool → pool := set_status active.
Definition disableAccount : string → pool → pool := set_status disabled.

Definition setStrategy (s : string) (p : pool) : pool :=
  {| accounts := accounts p; store := store p; strategy := s;
     roundRobinIndex := roundRobinIndex p; timers := timers p;
     now := now p; disk := disk p |}.

(** *** The roster: [constructor], [load], [addAccount], [removeAccount] *)

(** [new AccountPool(config, db)], at a given time and with a given
    accounts file. *)
Definition constructor (clock : N) (file : list account) : pool :=
  {| accounts := []; store := ∅; strategy := "round-robin";
     roundRobinIndex := 0; timers := []; now := clock; disk := file |}.

(** [this.accounts.set(i, object)], the object being at location [l]: the
    entry of an existing key is overwritten where it is, a new key goes
    last. *)
Fixpoint accounts_set (m : list (string * loc)) (i : string) (l : loc)
  : list (string * loc) :=
  match m with
  | [] => [(i, l)]
  | (i', l') :: m' =>
      if bool_decide (i' = i) then (i, l) :: m'
      else (i', l') :: accounts_set m' i l
  end.

(** [this.accounts.delete(i)] *)
Definition accounts_delete (m : list (string * loc)) (i : string)
  : list (string * loc) :=
  filter (λ kl, kl.1 ≠ i) m.

Definition set_accounts (m : list (string * loc)) (p : pool) : pool :=
  {| accounts := m; store := store p; strategy := strategy p;
     roundRobinIndex := roundRobinIndex p; timers := timers p;
     now := now p; disk := disk p |}.

(** A new account object enters the map under its [id]. *)
Definition put (a : account) (p : pool) : pool :=
  let l := fresh (dom (store p)) in
  {| accounts := accounts_set (accounts p) (id a) l;
     store := <[l := a]> (store p); strategy := strategy p;
     roundRobinIndex := roundRobinIndex p; timers := timers p;
     now := now p; disk := disk p |}.

(** [load()]: every account of the file becomes an object of the map,
    under its [id].  A file that is missing or does not parse leaves the
    map as it is, like the empty roster.  [JSON.parse] is taken to give
    back the records that [JSON.stringify] wrote. *)
Definition load (p : pool) : pool :=
  fold_left (λ p acc, put acc p) (disk p) p.

(** What [addAccount] reads of its argument: [id] and [name], strings when
    they are present.  The credentials go to the token manager. *)
Record account_input := {
  given_id : option string;
  given_name : option string
}.

(** The default name, 未命名账号, as its UTF-8 bytes. *)
Definition unnamed : string := "未命名账号".

(** [given || default] on a string that may be absent. *)
Definition or_default (given : option string) (default : string) : string :=
  match given with
  | Some s => if bool_decide (s = "") then default else s
  | None => default
  end.

(** A call that [addAccount] makes outside the pool returns, or throws
    some value. *)
Inductive outcome :=
  | Returns
  | Throws (thrown : value).

(** What the calls of [addAccount] outside the pool do: the validation
    ([new TokenManager] and its [ensureValidToken()], made unless
    validation is skipped), the [new TokenManager] that goes into the map
    of managers, and [this.save()]; and what a [save()] that throws leaves
    in the accounts file for [load] to read. *)
Record account_calls := {
  validation : outcome;
  manager : outcome;
  written : outcome;
  torn : list account
}.

(** [addAccount] returns the [id], or throws. *)
Inductive added :=
  | Added (i : string)
  | Rejected (thrown : value).

Definition set_disk (file : list account) (p : pool) : pool :=
  {| accounts := accounts p; store := store p; strategy := strategy p;
     roundRobinIndex := roundRobinIndex p; timers := timers p;
     now := now p; disk := file |}.

(** [uuid] is what [uuidv4()] returns.  The account is in the map before
    the manager is built and the file written, and it stays there when one
    of the two throws. *)
Definition addAccount (uuid : string) (calls : account_calls)
    (account : account_input) (skipValidation : bool) (p : pool)
  : added * pool :=
  let i := or_default (given_id account) uuid in
  let newAccount :=
    {| id := i; name := or_default (given_name account) unnamed;
       status := active; requestCount := 0; errorCount := 0;
       createdAt := now p; lastUsedAt := None |} in
  match (if skipValidation then Returns else validation calls) with
  | Throws e => (Rejected e, p)
  | Returns =>
      let p1 := put newAccount p in
      match manager calls with
      | Throws e => (Rejected e, p1)
      | Returns =>
          match written calls with
          | Throws e => (Rejected e, set_disk (torn calls) p1)
          | Returns => (Added i, save p1)
          end
      end
  end.

Definition removeAccount (i : string) (p : pool) : bool * pool :=
  let removed := bool_decide (i ∈ (accounts p).*1) in
  let p' := set_accounts (accounts_delete (accounts p) i) p in
  (removed, if removed then save p' else p').

(** The answer [{ total, removed }] comes first. *)
Definition removeAccounts (ids : list string) (p : pool)
  : (nat * nat) * pool :=
  let '(removed, p') :=
    fold_left
      (λ '(removed, p) i,
         if bool_decide (i ∈ (accounts p).*1)
         then (S removed, set_accounts (accounts_delete (accounts p) i) p)
         else (removed, p))
      ids (0%nat, p) in
  ((length ids, removed), if (0 <? removed)%nat then save p' else p').

Definition getStrategy (p : pool) : string := strategy p.

(** *** [getStats] *)

Module Stats.
Record stats := {
  total : nat;
  active : nat;
  cooldown : nat;
  invalid : nat;
  disabled : nat;
  totalRequests : nat;
  totalErrors : nat
}.
End Stats.

(** [accounts.filter(a => a.status === s).length] *)
Definition count (s : account_status) (l : list account) : nat :=
  length (filter (λ a, status a = s) l).

Definition getStats (p : pool) : Stats.stats :=
  let accounts := (values p).*2 in
  {| Stats.total := length accounts;
     Stats.active := count active accounts;
     Stats.cooldown := count cooldown accounts;
     Stats.invalid := count invalid accounts;
     Stats.disabled := count disabled accounts;
     Stats.totalRequests :=
       fold_left (λ sum a, sum + requestCount a)%nat accounts 0%nat;
     Stats.totalErrors :=
       fold_left (λ sum a, sum + errorCount a)%nat accounts 0%nat |}.

End AccountPool.

(** ** Reading an envelope, and the requests of the specification's scenarios *)

Module Envelope.
Import JS KiroClient.

(** [v.k1.k2...], answering [undefined] where the path leaves the objects. *)
Definition path (v : value) (ks : list string) : value :=
  fold_left (λ v k, match v with VObj o => obj_get o k | _ => VUndefined end)
    ks v.

Definition elements (v : value) : list value :=
  match v with VArr l => l | _ => [] end.

Definition history (kiroRequest : value) : list value :=
  elements (path kiroRequest ["conversationState"; "history"]).

Definition currentMessage (kiroRequest : value) : value :=
  path kiroRequest ["conversationState"; "currentMessage"].

Definition is_userInputMessage (turn : value) : bool :=
  match turn with
  | VObj [(k, _)] => bool_decide (k = "userInputMessage")
  | _ => false
  end.

Definition is_assistantResponseMessage (turn : value) : bool :=
  match turn with
  | VObj [(k, _)] => bool_decide (k = "assistantResponseMessage")
  | _ => false
  end.

(** A history made of user/assistant pairs: even length, strict
    alternation, a user turn first and an assistant turn last. *)
Fixpoint alternates (h : list value) : bool :=
  match h with
  | [] => true
  | u :: rest =>
      match rest with
      | a :: h' =>
          is_userInputMessage u && is_assistantResponseMessage a
          && alternates h'
      | [] => false
      end
  end.

(** The tool uses carried by the assistant turns of a history. *)
Definition toolUses_of (turn : value) : list value :=
  elements (path turn ["assistantResponseMessage"; "toolUses"]).

Definition history_toolUses (kiroRequest : value) : list value :=
  concat (toolUses_of <$> history kiroRequest).

(** The names of the tool specifications of the current message. *)
Definition tool_names (kiroRequest : value) : list value :=
  (λ t, path t ["toolSpecification"; "name"]) <$>
    elements (path kiroRequest
                ["conversationState"; "currentMessage"; "userInputMessage";
                 "userInputMessageContext"; "tools"]).

(** [role_is msg r]: [msg.role === r]. *)
Definition role_is (msg : value) (r : string) : bool :=
  match get msg "role" with
  | Ok role => is_str role r
  | Throw _ => false
  end.

(** Every assistant message has a user message before it that no earlier
    assistant message has answered; [pending] tells whether one is waiting.
    Messages of another role do not count. *)
Fixpoint assistants_answer (pending : bool) (msgs : list value) : bool :=
  match msgs with
  | [] => true
  | m :: rest =>
      if role_is m "user" then assistants_answer true rest
      else if role_is m "assistant" then pending && assistants_answer false rest
      else assistants_answer pending rest
  end.

(** The two generated identifiers replaced by others. *)
Definition with_ids (ids : string * string) (kiroRequest : value) : value :=
  match kiroRequest with
  | VObj o =>
      match obj_get o "conversationState" with
      | VObj cs =>
          VObj (obj_set o "conversationState"
                  (VObj (obj_set
                           (obj_set cs "agentContinuationId" (VStr ids.2))
                           "conversationId" (VStr ids.1))))
      | _ => kiroRequest
      end
  | _ => kiroRequest
  end.

(** Two values that differ at most in the characters of their string
    values: same structure, same property names, same numbers and booleans,
    strings of the same length. *)
Inductive same_shape : value → value → Prop :=
  | shape_undefined : same_shape VUndefined VUndefined
  | shape_null : same_shape VNull VNull
  | shape_bool b : same_shape (VBool b) (VBool b)
  | shape_num n : same_shape (VNum n) (VNum n)
  | shape_str s t :
      String.length s = String.length t → same_shape (VStr s) (VStr t)
  | shape_arr l l' : Forall2 same_shape l l' → same_shape (VArr l) (VArr l')
  | shape_obj o o' :
      Forall2 (λ kv kv', kv.1 = kv'.1 ∧ same_shape kv.2 kv'.2) o o' →
      same_shape (VObj o) (VObj o').

(** All the text of a value: its string values and its property names. *)
Fixpoint texts (v : value) : list string :=
  match v with
  | VStr s => [s]
  | VArr l =>
      (fix of_elements (l : list value) : list string :=
         match l with
         | [] => []
         | x :: l' => texts x ++ of_elements l'
         end) l
  | VObj o =>
      (fix of_properties (o : list (string * value)) : list string :=
         match o with
         | [] => []
         | (k, x) :: o' => k :: texts x ++ of_properties o'
         end) o
  | _ => []
  end.

(** The field names of the upstream envelope. *)
Definition schema_names : list string :=
  ["conversationState"; "agentContinuationId"; "agentTaskType";
   "chatTriggerType"; "currentMessage"; "conversationId"; "history";
   "profileArn"; "userInputMessage"; "assistantResponseMessage"; "content";
   "modelId"; "origin"; "userInputMessageContext"; "tools"; "toolResults";
   "toolUses"; "toolUseId"; "name"; "input"; "status"; "toolSpecification"].

(** The words the summary itself writes. *)
Definition summary_tags : list string :=
  ["_type"; "keys"; "length"; "sample"; "array"; "object"; "[MaxDepth]";
   "<undefined>"].

(** Text that carries no payload: a field name of the schema, a word of the
    summary, or the length tag of a string. *)
Definition harmless (s : string) : Prop :=
  s ∈ schema_names ∨ s ∈ summary_tags ∨
  ∃ n : nat, s = "<string len=" +:+ pretty n +:+ ">".

(** Down to [levels] levels, every property name is a field name of the
    schema. *)
Fixpoint fixed_keys (levels : nat) (v : value) : bool :=
  match levels with
  | 0 => true
  | S levels' =>
      match v with
      | VArr l => forallb (fixed_keys levels') l
      | VObj o =>
          forallb (λ kv, bool_decide (kv.1 ∈ schema_names)
                         && fixed_keys levels' kv.2) o
      | _ => true
      end
  end.

Definition scalar (v : value) : Prop :=
  match v with VArr _ | VObj _ => False | _ => True end.

(** The model identifiers the client maps to and its profile are not
    objects or arrays (they are strings in practice). *)
Definition scalar_config (this : client) : Prop :=
  scalar (credentials_profileArn this) ∧
  ∀ model id, mapModel this model = Ok id → scalar id.

(** A client without database manager, proxy or profile, in the default
    region. *)
Definition plain_client : client :=
  {| config_region := VUndefined; config_kiroVersion := VUndefined;
     config_proxyUrl := VUndefined; credentials_machineId := VUndefined;
     credentials_profileArn := VUndefined; dbManager := None |}.

(** A host for the closed examples below, none of which reaches
    [JSON.parse] or depends on what [JSON.stringify] prints. *)
Definition example_host : Host :=
  {| JSON_parse := λ _, None; JSON_stringify := λ _, "" |}.

Definition message (role : string) (content : value) : value :=
  VObj [("role", VStr role); ("content", content)].
Definition text_block (s : string) : value :=
  VObj [("type", VStr "text"); ("text", VStr s)].
Definition request (messages : list value) (more : list (string * value))
  : value :=
  VObj ([("model", VStr "claude-3-5-sonnet-latest");
         ("messages", VArr messages)] ++ more).

(** Scenarios 1, 2, 3 and 5. *)
Definition single_user_request : value :=
  request [message "user" (VStr "hi")] [].
Definition assistant_suffix_request : value :=
  request [message "user" (VStr "a"); message "assistant" (VStr "b")] [].
Definition merged_users_request : value :=
  request [message "user" (VStr "x"); message "assistant" (VStr "y");
           message "user" (VStr "p"); message "user" (VStr "q")] [].
Definition thinking_request : value :=
  request [message "user" (VStr "hi")]
    [("system", VStr "S");
     ("thinking",
      VObj [("type", VStr "enabled"); ("budget_tokens", VNum 4096)])].

Definition content_of (turn : value) : value :=
  match turn with
  | VObj [(_, m)] => path m ["content"]
  | _ => VUndefined
  end.

(** Scenario 4, tool result threading. *)
Definition threading_request : value :=
  request
    [message "user" (VArr [text_block "run"]);
     message "assistant"
       (VArr [text_block "calling";
              VObj [("type", VStr "tool_use"); ("id", VStr "T1");
                    ("name", VStr "web.search!");
                    ("input", VObj [("q", VStr "hi")])]]);
     message "user"
       (VArr [VObj [("type", VStr "tool_result"); ("tool_use_id", VStr "T1");
                    ("content", VStr "42")]])]
    [].

(** Scenario 6, two tools whose names collide once sanitized. *)
Definition collision_request : value :=
  request [message "user" (VStr "hi")]
    [("tools", VArr [VObj [("name", VStr "a!")]; VObj [("name", VStr "a?")]])].

(** A conversation that opens with an assistant message. *)
Definition assistant_first_request : value :=
  request [message "assistant" (VStr "hello"); message "user" (VStr "hi")] [].

(** A conversation with two assistant messages in a row. *)
Definition double_assistant_request : value :=
  request [message "user" (VStr "a"); message "assistant" (VStr "b");
           message "assistant" (VStr "c"); message "user" (VStr "d")] [].

Definition empty_request : value := request [] [].

(** A world whose token manager hands out a token and whose upstream
    answers 200. *)
Definition example_world : world :=
  {| ensureValidToken := Ok (VStr "token");
     uuidv4 := λ n, pretty n;
     randomBytes_hex := "00";
     import_proxy_agent := false;
     fetch := λ _ _ _ _, Ok {| ok := true; status := 200; text := "" |} |}.

End Envelope.

(** ** Example pools *)

Module PoolExamples.
Import AccountPool.

Definition example_account (s : account_status) : account :=
  {| id := "acc-1"; name := "first"; status := s; requestCount := 0;
     errorCount := 0; createdAt := 0%N; lastUsedAt := None |}.

(** A pool with a single account, in the given status. *)
Definition example_pool (s : account_status) : pool :=
  {| accounts := [("acc-1", 0%nat)];
     store := {[ 0%nat := example_account s ]};
     strategy := "round-robin"; roundRobinIndex := 0; timers := [];
     now := 0%N; disk := [] |}.

End PoolExamples.

(** ** Tool names and the name table *)

Module ToolNames.
Import JS KiroClient Envelope.

(** Every character is in [[a-zA-Z0-9_]]. *)
Fixpoint all_word (s : string) : bool :=
  match s with
  | EmptyString => true
  | String c s' => is_word c && all_word s'
  end.

Definition starts_with_underscore (s : string) : bool :=
  match s with String c _ => is_underscore c | EmptyString => false end.

Fixpoint ends_with_underscore (s : string) : bool :=
  match s with
  | EmptyString => false
  | String c EmptyString => is_underscore c
  | String _ s' => ends_with_underscore s'
  end.

Fixpoint adjacent_underscores (s : string) : bool :=
  match s with
  | EmptyString => false
  | String c s' =>
      (is_underscore c && starts_with_underscore s') || adjacent_underscores s'
  end.

(** An identifier: [^[a-zA-Z_][a-zA-Z0-9_]*$]. *)
Definition kiro_name (s : string) : bool :=
  negb (bool_decide (s = "")) && all_word s && negb (starts_with_digit s).

(** A name the sanitizer has nothing to do on: an identifier without an
    underscore at either end and without two underscores in a row. *)
Definition clean (s : string) : bool :=
  kiro_name s && negb (starts_with_underscore s)
  && negb (ends_with_underscore s) && negb (adjacent_underscores s).

(** The name table as [getOrCreateKiroToolName] keeps it: every assigned
    name is recorded as used and is an identifier, and no two original
    names share an assigned name. *)
Definition table_ok (ns : names) : Prop :=
  (∀ o k, toolNameMap ns !! o = Some k →
          k ∈ usedNames ns ∧ kiro_name k = true) ∧
  (∀ o o' k, toolNameMap ns !! o = Some k → toolNameMap ns !! o' = Some k →
             o = o').

(** [n] is a name that the map assigns to some original name. *)
Definition assigned (m : gmap string string) (n : value) : Prop :=
  ∃ o k, n = VStr k ∧ m !! o = Some k.

(** A tool use whose [name] the map has assigned. *)
Definition named_by (m : gmap string string) (u : value) : Prop :=
  assigned m (path u ["name"]).

Definition turns_named (m : gmap string string) (h : list value) : Prop :=
  Forall (λ t, Forall (named_by m) (toolUses_of t)) h.

(** The tool specifications of the current message. *)
Definition envelope_tools (kiroRequest : value) : list value :=
  elements (path kiroRequest
              ["conversationState"; "currentMessage"; "userInputMessage";
               "userInputMessageContext"; "tools"]).

(** The name of a tool definition, when it is a string. *)
Definition named (t : value) (s : string) : Prop :=
  get t "name" = Ok (VStr s).

(** A tool definition whose name, in lower case, is [web_search] or
    [websearch]. *)
Definition web_search_tool (t : value) : bool :=
  match get t "name" with
  | Ok (VStr s) =>
      bool_decide (toLowerCase s = "web_search")
      || bool_decide (toLowerCase s = "websearch")
  | _ => false
  end.

(** [description] is what a tool specification says for a tool whose
    description is [d]: the first 10000 characters of a string (the first
    10000 elements of an array), and the empty string for a falsy [d]. *)
Definition cut_to_10000 (d description : value) : Prop :=
  match d with
  | VStr s => description = VStr (substring 0 10000 s)
  | VArr l => description = VArr (take 10000 l)
  | _ => truthy d = false ∧ description = VStr ""
  end.

Section WithHost.
Context `{!Host}.

(** [spec] is the specification that [convertRequest] builds for the tool
    definition [t], under the name that [m] assigns to the name of [t]. *)
Definition specified (m : gmap string string) (t spec : value) : Prop :=
  ∃ s k d description input_schema,
    named t s ∧ m !! s = Some k ∧
    get t "description" = Ok d ∧ cut_to_10000 d description ∧
    get t "input_schema" = Ok input_schema ∧
    spec = VObj [("toolSpecification",
                  VObj [("name", VStr k);
                        ("description", description);
                        ("inputSchema",
                         VObj [("json",
                                normalizeJsonObject
                                  (or_else input_schema (VObj [])))])])].

End WithHost.

End ToolNames.

(** ** The turns of an envelope and the blocks of a message *)

Module Turns.
Import JS KiroClient Envelope.

(** The object literal [kiroRequest] of [convertRequest], with the
    properties added to it afterwards, from the values the method has
    computed. *)
Definition kiroRequest_of (this : client) (ids : string * string)
    (modelId : value) (chatTriggerType currentText : string)
    (history tools allToolResults : list value) : value :=
  let userInputMessageContext :=
    (if is_nil tools then [] else [("tools", VArr tools)])
    ++ (if is_nil allToolResults then []
        else [("toolResults", VArr allToolResults)]) in
  let userInputMessage :=
    VObj ([("content", VStr currentText); ("modelId", modelId);
           ("origin", VStr "AI_EDITOR")]
          ++ if is_nil userInputMessageContext then []
             else [("userInputMessageContext",
                    VObj userInputMessageContext)]) in
  VObj ([("conversationState",
          VObj [("agentContinuationId", VStr ids.2);
                ("agentTaskType", VStr "vibe");
                ("chatTriggerType", VStr chatTriggerType);
                ("currentMessage",
                 VObj [("userInputMessage", userInputMessage)]);
                ("conversationId", VStr ids.1);
                ("history", VArr history)])]
        ++ if truthy (credentials_profileArn this)
           then [("profileArn", credentials_profileArn this)] else []).

(** The tool results a turn carries. *)
Definition toolResults_of (turn : value) : list value :=
  elements (path turn ["userInputMessage"; "userInputMessageContext";
                       "toolResults"]).

(** A turn whose content is a non-empty string. *)
Definition spoken (turn : value) : Prop :=
  ∃ s, content_of turn = VStr s ∧ s ≠ "".

(** A turn has a string for content, and not the empty one when it carries
    tool uses or tool results. *)
Definition sound_turn (turn : value) : Prop :=
  (∃ s, content_of turn = VStr s) ∧
  (toolUses_of turn ≠ [] ∨ toolResults_of turn ≠ [] → spoken turn).

(** [block.type === ty] *)
Definition block_type (block : value) (ty : string) : bool :=
  match get block "type" with
  | Ok v => is_str v ty
  | Throw _ => false
  end.

(** The [.filter(c => c.type === 'text')] of [extractTextContent], by
    name. *)
Fixpoint text_blocks (l : list value) : result (list value) :=
  match l with
  | [] => Ok []
  | c :: l' =>
      ty ← get c "type";
      rest ← text_blocks l';
      Ok (if is_str ty "text" then c :: rest else rest)
  end.

(** [p] is what an element [c] of the content of a [tool_result] block
    gives to the text of the result: its [text] as a string, and nothing
    when the [text] is missing or falsy. *)
Definition text_of_part (c : value) (p : string) : Prop :=
  ∃ t, get c "text" = Ok t ∧
       if truthy t then toString t = Ok p else p = "".

(** [rc] is the single text made of the content [c] of a [tool_result]
    block: a string is taken as it is, the elements of an array give their
    texts, joined by newlines, and anything else gives the empty string. *)
Definition result_text (c : value) (rc : string) : Prop :=
  match c with
  | VStr s => rc = s
  | VArr l => ∃ parts, Forall2 text_of_part l parts ∧ rc = join nl parts
  | _ => rc = ""
  end.

(** [r] is the entry of [toolResults] that [extractUserContent] builds
    from the [tool_result] block [block]. *)
Definition tool_result_of (block r : value) : Prop :=
  ∃ id is_error c rc,
    get block "tool_use_id" = Ok id ∧ get block "is_error" = Ok is_error ∧
    get block "content" = Ok c ∧ result_text c rc ∧
    r = VObj [("toolUseId", id);
              ("status", VStr (if truthy is_error then "error" else "success"));
              ("content", VArr [VObj [("text", VStr rc)]])].

(** Scenario 2 with a system message in the last place. *)
Definition system_last_request : value :=
  request [message "user" (VStr "a"); message "system" (VStr "b")] [].

(** A request for a model that the default mapping does not know. *)
Definition unknown_model_request : value :=
  VObj [("model", VStr "gpt-4"); ("messages", VArr [])].

(** A request with three tools: the second one is a web search, and the
    third has neither description nor schema. *)
Definition three_tools_request : value :=
  request [message "user" (VStr "hi")]
    [("tools",
      VArr [VObj [("name", VStr "calc"); ("description", VStr "adds");
                  ("input_schema", VObj [("type", VStr "object")])];
            VObj [("name", VStr "Web_Search");
                  ("description", VStr "searches")];
            VObj [("name", VStr "clock")]])].

(** A user content with a text and two tool results. *)
Definition result_blocks : list value :=
  [text_block "done";
   VObj [("type", VStr "tool_result"); ("tool_use_id", VStr "T1");
         ("content", VStr "42")];
   VObj [("type", VStr "tool_result"); ("tool_use_id", VStr "T2");
         ("is_error", VBool true);
         ("content", VArr [text_block "no"; text_block "way"])]].


End Turns.

(** ** The pool over time *)

Module Roster.
Import JS AccountPool.

(** What [selectAccount] returns of an account. *)
Definition ident (la : loc * account) : string * string :=
  (id la.2, name la.2).

(** The account object after [requestCount++] and the new [lastUsedAt]. *)
Definition used (clock : N) (a : account) : account :=
  {| id := id a; name := name a; status := status a;
     requestCount := S (requestCount a); errorCount := errorCount a;
     createdAt := createdAt a; lastUsedAt := Some clock |}.

(** [k] calls of [selectAccount] in a row. *)
Fixpoint selections (rnd : nat → nat) (k : nat) (p : pool)
  : result (list (option (string * string)) * pool) :=
  match k with
  | 0 => Ok ([], p)
  | S k' =>
      '(sel, p1) ← selectAccount rnd p;
      '(sels, p2) ← selections rnd k' p1;
      Ok (sel :: sels, p2)
  end.

(** The map and the objects fit: the keys are distinct, so are the
    objects, and every key leads to an object that carries it as [id]. *)
Definition consistent (p : pool) : Prop :=
  NoDup (accounts p).*1 ∧ NoDup (accounts p).*2 ∧
  ∀ i l, (i, l) ∈ accounts p → ∃ a, store p !! l = Some a ∧ id a = i.

(** One thing happens to the pool: a method returns, a timer fires, or
    time passes. *)
Inductive step : pool → pool → Prop :=
  | step_load p : step p (load p)
  | step_addAccount uuid calls account skipValidation p :
      step p (addAccount uuid calls account skipValidation p).2
  | step_removeAccount i p : step p (removeAccount i p).2
  | step_removeAccounts ids p : step p (removeAccounts ids p).2
  | step_selectAccount rnd p sel p' :
      selectAccount rnd p = Ok (sel, p') → step p p'
  | step_recordError i isRateLimit p : step p (recordError i isRateLimit p)
  | step_markInvalid i p : step p (markInvalid i p)
  | step_enableAccount i p : step p (enableAccount i p)
  | step_disableAccount i p : step p (disableAccount i p)
  | step_setStrategy s p : step p (setStrategy s p)
  | step_fire n p p' : fire n p = Some p' → step p p'
  | step_elapse ms p : step p (elapse ms p).

(** A pool of three active accounts that have served 2, 1 and 1
    requests. *)
Definition busy (i n : string) (served : nat) : account :=
  {| id := i; name := n; status := active; requestCount := served;
     errorCount := 0; createdAt := 0%N; lastUsedAt := None |}.

Definition three_pool (s : string) : pool :=
  {| accounts := [("a", 0%nat); ("b", 1%nat); ("c", 2%nat)];
     store := {[ 0%nat := busy "a" "A" 2; 1%nat := busy "b" "B" 1;
                 2%nat := busy "c" "C" 1 ]};
     strategy := s; roundRobinIndex := 0; timers := [];
     now := 0%N; disk := [] |}.

Definition second_account : account_input :=
  {| given_id := Some "acc-2"; given_name := None |}.

(** The manager is built, and the write of the accounts file fails. *)
Definition failing_write : account_calls :=
  {| validation := Returns; manager := Returns;
     written := Throws (VStr "EACCES"); torn := [] |}.

End Roster.

(** * Properties *)

(** ** Reasoning along a chain of binds *)

Lemma bind_Ok {A B} (m : JS.result A) (f : A → JS.result B) (b : B) :
  m ≫= f = JS.Ok b → ∃ a, m = JS.Ok a ∧ f a = JS.Ok b.
Proof. destruct m as [a|e]; [eauto | discriminate]. Qed.

(** A bind that returned: name what its first part returned. *)
Tactic Notation "bind_ok" hyp(H) "as" simple_intropattern(x) ident(E) :=
  apply bind_Ok in H as (x & E & H); cbv beta iota in H.

(** Case analysis along a chain of binds and tests, for goals that compare
    two runs of the same code. *)
Ltac step_through :=
  repeat match goal with
  | |- context [mbind _ ?m] =>
      destruct m as [?|?] eqn:?; cbn [mbind JS.result_bind]; try done
  | |- context [if ?b then _ else _] =>
      destruct b eqn:?; cbn [mbind JS.result_bind]; try done
  | |- context [let '(_, _) := ?p in _] =>
      destruct p; cbn [mbind JS.result_bind]; try done
  end.

(** ** Tool names in the scenarios *)

Section Scenarios.
Import JS KiroClient Envelope.
Context `{!Host}.
Variable ids : string * string.

(** The model on the literal scenarios 1, 2, 3 and 5 of the
    specification. *)
Example single_user_text :
  ∃ e m, convertRequest plain_client ids single_user_request = Ok (e, m) ∧
         content_of (currentMessage e) = VStr "hi" ∧ history e = [] ∧
         path e ["conversationState"; "chatTriggerType"] = VStr "MANUAL".
Proof. eexists _, _. split; [vm_compute; reflexivity|]. by repeat split. Qed.

Example assistant_suffix :
  ∃ e m, convertRequest plain_client ids assistant_suffix_request = Ok (e, m) ∧
         content_of (currentMessage e) = VStr "continue" ∧
         content_of <$> history e = [VStr "a"; VStr "b"].
Proof. eexists _, _. split; [vm_compute; reflexivity|]. by repeat split. Qed.

Example merged_trailing_users :
  ∃ e m, convertRequest plain_client ids merged_users_request = Ok (e, m) ∧
         content_of (currentMessage e) = VStr ("p" +:+ nl +:+ "q") ∧
         content_of <$> history e = [VStr "x"; VStr "y"].
Proof. eexists _, _. split; [vm_compute; reflexivity|]. by repeat split. Qed.

Example thinking_and_system :
  ∃ e m, convertRequest plain_client ids thinking_request = Ok (e, m) ∧
         content_of <$> history e =
           [VStr ("<thinking_mode>enabled</thinking_mode>"
                  +:+ "<max_thinking_length>4096</max_thinking_length>"
                  +:+ nl +:+ "S");
            VStr "I will follow these instructions."].
Proof. eexists _, _. split; [vm_compute; reflexivity|]. by repeat split. Qed.

(** C3, as the code has it: in a request whose tool definitions are named
    ["a!"] and then ["a?"], the sanitizer trims the trailing underscore, so
    the first tool is assigned ["a"] and the second, whose base ["a"] is
    taken, ["a_2"]; the returned name map has an entry for each of the two
    original names. *)
Theorem collision_assigns_a_and_a_2 :
  sanitizeToolName (VStr "a!") = Ok "a" ∧
  sanitizeToolName (VStr "a?") = Ok "a" ∧
  ∃ e m, convertRequest plain_client ids collision_request = Ok (e, m) ∧
         tool_names e = [VStr "a"; VStr "a_2"] ∧
         m !! "a!" = Some "a" ∧ m !! "a?" = Some "a_2".
Proof.
  split; [reflexivity|]. split; [reflexivity|].
  eexists _, _. split; [vm_compute; reflexivity|].
  repeat split; vm_compute; reflexivity.
Qed.

(** C2, as the code has it: in the tool-result-threading scenario the name
    ["web.search!"] is sanitized to ["web_search"], a name the
    unsupported-tool filter matches; but the filter is applied to the
    original name, which it does not match, so the tool use stays in the
    assistant turn under the name ["web_search"]. *)
Theorem threading_keeps_tool_use :
  sanitizeToolName (VStr "web.search!") = Ok "web_search" ∧
  isUnsupportedTool (VStr "web_search") = Ok true ∧
  isUnsupportedTool (VStr "web.search!") = Ok false ∧
  ∃ e m, convertRequest plain_client ids threading_request = Ok (e, m) ∧
         history_toolUses e =
           [VObj [("toolUseId", VStr "T1"); ("name", VStr "web_search");
                  ("input", VObj [("q", VStr "hi")])]] ∧
         m !! "web.search!" = Some "web_search".
Proof.
  do 3 (split; [reflexivity|]).
  eexists _, _. split; [vm_compute; reflexivity|].
  split; vm_compute; reflexivity.
Qed.

(** C4 at a content that is a plain object, a number or [true]:
    [extractTextContent] answers the empty text, while the [for ... of] of
    [extractUserContent] and of [extractAssistantContent] throws. *)
Theorem extractors_on_unknown_shape (ns : names) :
  Forall (λ content,
            extractTextContent content = Ok "" ∧
            extractUserContent content = Throw TypeError ∧
            extractAssistantContent content ns = Throw TypeError)
    [VObj []; VObj [("type", VStr "text")]; VNum 5; VBool true].
Proof. repeat constructor. Qed.

End Scenarios.

(** C3 as stated fails: the names assigned are not ["a_"] and ["a__2"]. *)
Lemma collision_names_counterexample :
  ¬ ∃ e m,
      @KiroClient.convertRequest Envelope.example_host Envelope.plain_client
        ("c", "a") Envelope.collision_request = JS.Ok (e, m) ∧
      Envelope.tool_names e = [JS.VStr "a_"; JS.VStr "a__2"].
Proof.
  intros (e & m & He & Hn).
  assert (match @KiroClient.convertRequest Envelope.example_host
                  Envelope.plain_client ("c", "a") Envelope.collision_request
          with
          | JS.Ok (e', _) => Envelope.tool_names e'
          | JS.Throw _ => []
          end = [JS.VStr "a"; JS.VStr "a_2"]) as Hnames
    by (vm_compute; reflexivity).
  rewrite He, Hn in Hnames. discriminate.
Qed.

(** C2 as stated fails: the tool use is not dropped from the assistant
    turn. *)
Lemma threading_drop_counterexample :
  ¬ (KiroClient.sanitizeToolName (JS.VStr "web.search!") = JS.Ok "web_search" ∧
     KiroClient.isUnsupportedTool (JS.VStr "web_search") = JS.Ok true ∧
     ∃ e m,
       @KiroClient.convertRequest Envelope.example_host Envelope.plain_client
         ("c", "a") Envelope.threading_request = JS.Ok (e, m) ∧
       Envelope.history_toolUses e = []).
Proof.
  intros (_ & _ & e & m & He & Hn).
  assert (match @KiroClient.convertRequest Envelope.example_host
                  Envelope.plain_client ("c", "a") Envelope.threading_request
          with
          | JS.Ok (e', _) => length (Envelope.history_toolUses e')
          | JS.Throw _ => 0%nat
          end = 1%nat) as Hkept
    by (vm_compute; reflexivity).
  rewrite He, Hn in Hkept. discriminate.
Qed.

(** ** The name loop ends on a free name *)

Section FreeName.
Import JS KiroClient.
Variable base : string.

Lemma suffixed_inj i j : suffixed base i = suffixed base j → i = j.
Proof.
  unfold suffixed. intros H. do 2 apply String.app_inj in H.
  by apply (inj pretty).
Qed.

Lemma length_append (s t : string) :
  String.length (s +:+ t) = (String.length s + String.length t)%nat.
Proof. induction s as [|c s IH]; simpl; [done | by f_equal]. Qed.

Lemma suffixed_not_base i : suffixed base i ≠ base.
Proof.
  unfold suffixed. intros H. apply (f_equal String.length) in H.
  rewrite !length_append in H. change (String.length "_") with 1%nat in H. lia.
Qed.

(** The loop only asks about its candidates. *)
Lemma free_name_agree rounds : ∀ (U V : gset string) c i,
  (c ∈ U ↔ c ∈ V) →
  (∀ j, i ≤ j → suffixed base j ∈ U ↔ suffixed base j ∈ V)%nat →
  free_name rounds base U c i = free_name rounds base V c i.
Proof.
  induction rounds as [|r IH]; intros U V c i Hc Hs; cbn [free_name]; [done|].
  rewrite (bool_decide_ext _ _ Hc). case_bool_decide; [|done].
  apply IH; [by apply Hs | intros j Hj; apply Hs; lia].
Qed.

Lemma free_name_range rounds : ∀ (U : gset string) c i,
  free_name rounds base U c i = c ∨
  ∃ j, (i ≤ j)%nat ∧ free_name rounds base U c i = suffixed base j.
Proof.
  induction rounds as [|r IH]; intros U c i; cbn [free_name]; [by left|].
  case_bool_decide; [|by left]. right.
  destruct (IH U (suffixed base i) (S i)) as [->|(j & Hj & ->)];
    [exists i | exists j]; split; (lia || done).
Qed.

Lemma free_name_not_used rounds : ∀ (U : gset string) c i,
  (size U < rounds)%nat → (∀ j, i ≤ j → suffixed base j ≠ c)%nat →
  free_name rounds base U c i ∉ U.
Proof.
  induction rounds as [|r IH]; intros U c i Hsize Hc; [lia|].
  cbn [free_name].
  case_bool_decide as Hin; [|done].
  assert (size (U ∖ {[c]}) < r)%nat as Hsmaller.
  { rewrite size_difference by set_solver. rewrite size_singleton.
    assert (size U ≠ 0)%nat by (apply size_non_empty_iff; set_solver). lia. }
  assert (∀ j, S i ≤ j → suffixed base j ≠ suffixed base i)%nat as Hfresh.
  { intros j Hj Heq. apply suffixed_inj in Heq. lia. }
  pose proof (IH (U ∖ {[c]}) (suffixed base i) (S i) Hsmaller Hfresh) as Hout.
  rewrite <- (free_name_agree r U (U ∖ {[c]})) in Hout.
  - destruct (free_name_range r U (suffixed base i) (S i)) as [E|(j & Hj & E)];
      rewrite E in *.
    + specialize (Hc i (le_n _)). set_solver.
    + assert (suffixed base j ≠ c) by (apply Hc; lia). set_solver.
  - specialize (Hc i (le_n _)). set_solver.
  - intros j Hj. assert (suffixed base j ≠ c) by (apply Hc; lia). set_solver.
Qed.

End FreeName.

(** With the rounds [getOrCreateKiroToolName] allows, the loop leaves by its
    own test: the name it returns is not in [usedNames]. *)
Lemma free_name_fresh (base : string) (used : gset string) :
  KiroClient.free_name (S (size used)) base used base 2 ∉ used.
Proof.
  apply free_name_not_used; [lia|]. intros j _. apply suffixed_not_base.
Qed.

(** ** The shape of the translated history *)

Section Translation.
Import JS KiroClient Envelope.
Context `{!Host}.

Lemma pair_ind {A} (P : list A → Prop) :
  P [] → (∀ x, P [x]) → (∀ x y l, P l → P (x :: y :: l)) → ∀ l, P l.
Proof.
  intros H0 H1 H2 l. enough (P l ∧ ∀ x, P (x :: l)) by tauto.
  induction l as [|y l [IH1 IH2]]; split; auto.
Qed.

Lemma alternates_app h1 h2 :
  alternates h1 = true → alternates (h1 ++ h2) = alternates h2.
Proof.
  induction h1 as [| x | x y h1 IH] using pair_ind; cbn; intros Hh; try done.
  apply andb_true_iff in Hh as [-> Hh]. cbn. auto.
Qed.

Lemma alternates_pair h u a :
  is_userInputMessage u = true → is_assistantResponseMessage a = true →
  alternates (h ++ [u; a]) = alternates h.
Proof.
  intros Hu Ha.
  induction h as [| x | x y h IH] using pair_ind; cbn.
  - by rewrite Hu, Ha.
  - destruct (is_userInputMessage x); cbn; [|done].
    destruct u as [| | | | | |[|[k v] [|]]]; try done. cbn in Hu.
    apply bool_decide_eq_true in Hu as ->. cbn. done.
  - rewrite IH. done.
Qed.

Lemma user_not_assistant t :
  is_userInputMessage t = true → is_assistantResponseMessage t = false.
Proof.
  destruct t as [| | | | | |[|[k v] [|]]]; try done. cbn.
  intros ->%bool_decide_eq_true. done.
Qed.

Lemma assistant_not_user t :
  is_assistantResponseMessage t = true → is_userInputMessage t = false.
Proof.
  destruct t as [| | | | | |[|[k v] [|]]]; try done. cbn.
  intros ->%bool_decide_eq_true. done.
Qed.

(** What [alternates] says, turn by turn. *)
Lemma alternates_spec h :
  alternates h = true →
  Nat.Even (length h) ∧
  ∀ i turn, h !! i = Some turn →
    is_userInputMessage turn = Nat.even i ∧
    is_assistantResponseMessage turn = Nat.odd i.
Proof.
  induction h as [| x | x y h IH] using pair_ind; cbn; [|done|].
  - intros _. split; [by exists 0%nat|]. intros i turn Hi. done.
  - intros [[Hx Hy]%andb_true_iff Hh]%andb_true_iff.
    destruct (IH Hh) as [[n Hn] Hturns]. split.
    + exists (S n). cbn. lia.
    + intros [|[|i]] turn Hi; cbn in Hi.
      * injection Hi as <-. split; [done | by apply user_not_assistant].
      * injection Hi as <-. split; [by apply assistant_not_user | done].
      * destruct (Hturns i turn Hi) as [-> ->].
        by rewrite Nat.even_succ_succ, Nat.odd_succ_succ.
Qed.

Lemma alternates_assistant_first m t :
  alternates (assistant_turn m :: t) = false.
Proof. destruct t; reflexivity. Qed.

Lemma system_turns_alternate system thinkingPrefix modelId h0 :
  system_turns system thinkingPrefix modelId = Ok h0 → alternates h0 = true.
Proof.
  unfold system_turns. intros Hs.
  destruct (truthy system).
  - bind_ok Hs as systemContent E.
    destruct (bool_decide _); by injection Hs as <-.
  - destruct thinkingPrefix; by injection Hs as <-.
Qed.

(** What the history loop appends alternates exactly when every assistant
    message it meets finds a user message waiting. *)
Lemma walk_history modelId msgs :
  ∀ buf h ns buf' h' ns',
    walk modelId msgs buf h ns = Ok (buf', h', ns') →
    ∃ ext, h' = h ++ ext ∧
           alternates ext = assistants_answer (negb (is_nil buf)) msgs.
Proof.
  induction msgs as [|msg rest IH]; intros buf h ns buf' h' ns' Hw.
  - injection Hw as <- <- <-. exists []. by rewrite app_nil_r.
  - cbn [walk] in Hw. bind_ok Hw as role Erole.
    cbn [assistants_answer]. unfold role_is. rewrite Erole.
    destruct (is_str role "user").
    { apply IH in Hw as (ext & -> & Hext). exists ext. split; [done|].
      rewrite Hext. by destruct buf. }
    destruct (is_str role "assistant"); [|by apply IH in Hw].
    bind_ok Hw as flushed Eflushed. bind_ok Hw as content Econtent.
    bind_ok Hw as [[text toolUses] ns1] Eextract.
    apply IH in Hw as (ext & -> & Hext). cbn in Hext.
    destruct buf as [|b buf]; cbn [is_nil negb andb] in *.
    + injection Eflushed as <-. eexists. rewrite <- app_assoc.
      split; [done|]. apply alternates_assistant_first.
    + bind_ok Eflushed as mergedUser Emerged. injection Eflushed as <-.
      eexists. rewrite <- !app_assoc. split; [done|]. cbn. done.
Qed.

Lemma trailing_users_spec l n :
  trailing_users l = Ok n →
  (n ≤ length l)%nat ∧ Forall (λ m, role_is m "user" = true) (take n l).
Proof.
  revert n. induction l as [|m l IH]; intros n Hn; cbn in Hn.
  - injection Hn as <-. split; [done | constructor].
  - bind_ok Hn as role Erole. destruct (is_str role "user") eqn:Hu.
    + bind_ok Hn as n' En'. injection Hn as <-.
      apply IH in En' as [Hle Hall].
      split; [cbn; lia|]. cbn. constructor; [|done].
      unfold role_is. by rewrite Erole.
    + injection Hn as <-. split; [cbn; lia | constructor].
Qed.

Lemma assistants_answer_users b pre us :
  Forall (λ m, role_is m "user" = true) us →
  assistants_answer b (pre ++ us) = assistants_answer b pre.
Proof.
  intros Hus. revert b. induction pre as [|m pre IH]; intros b; cbn.
  - revert b. induction Hus as [|m us Hm _ IH]; intros b; [done|].
    cbn. by rewrite Hm.
  - by rewrite !IH.
Qed.

Lemma history_of_envelope cs rest :
  history (VObj (("conversationState", VObj cs) :: rest)) =
  elements (obj_get cs "history").
Proof. reflexivity. Qed.

(** The history alternates exactly when every assistant message finds a
    user message waiting. *)
Lemma history_alternates_exactly (this : client) (ids : string * string)
    (req e : value) (m : gmap string string) (msgs : list value) :
  convertRequest this ids req = Ok (e, m) →
  messages_of req = Ok msgs →
  is_userInputMessage (currentMessage e) = true ∧
  alternates (history e) = assistants_answer false msgs.
Proof.
  unfold convertRequest. intros Hc Hm.
  bind_ok Hc as model Emodel. bind_ok Hc as modelId EmodelId.
  destruct (negb (truthy modelId)); [by bind_ok Hc as label Elabel|].
  bind_ok Hc as messages Emsgs. assert (messages = msgs) as -> by congruence.
  destruct (is_nil msgs); [done|].
  bind_ok Hc as trailing Etrailing.
  bind_ok Hc as endsWithAssistant Eends.
  bind_ok Hc as thinkingPrefix Eprefix.
  bind_ok Hc as system Esystem.
  bind_ok Hc as history0 Ehistory0.
  bind_ok Hc as [[userBuffer history1] ns] Ewalk.
  bind_ok Hc as hist Ehist.
  bind_ok Hc as [currentText allToolResults] Ecurrent.
  bind_ok Hc as toolsIn EtoolsIn.
  bind_ok Hc as toolList EtoolList.
  bind_ok Hc as kept Ekept.
  bind_ok Hc as [tools ns'] Etools.
  bind_ok Hc as tool_choice Echoice.
  bind_ok Hc as chatTriggerType Etrigger.
  injection Hc as <- <-.
  split; [reflexivity|].
  cbn [app]. rewrite history_of_envelope.
  change (elements (obj_get _ "history")) with hist.
  apply system_turns_alternate in Ehistory0.
  apply walk_history in Ewalk as (ext & -> & Hext). cbn in Hext.
  apply trailing_users_spec in Etrailing as [Hle Husers].
  assert (alternates hist = alternates ext) as ->.
  { destruct (is_nil userBuffer).
    - injection Ehist as <-. by apply alternates_app.
    - bind_ok Ehist as mergedUser Emerged. injection Ehist as <-.
      rewrite alternates_pair by done. by apply alternates_app. }
  rewrite Hext.
  destruct endsWithAssistant.
  - by rewrite firstn_all.
  - rewrite <- (assistants_answer_users false _
                  (drop (length msgs - trailing) msgs)).
    + by rewrite take_drop.
    + rewrite take_reverse in Husers. by apply Forall_reverse.
Qed.

(** Where the history does alternate: for every client request that
    [convertRequest] accepts, the currentMessage is a userInputMessage; and
    if every assistant message of the request has, since the previous
    assistant message or the start of the list, at least one user message
    before it, then the history has even length and strictly alternates:
    its turns at even positions (the first one included) are
    userInputMessages and those at odd positions (the last one included)
    assistantResponseMessages. *)
Theorem history_alternates (this : client) (ids : string * string)
    (req e : value) (m : gmap string string) (msgs : list value) :
  convertRequest this ids req = Ok (e, m) →
  messages_of req = Ok msgs →
  is_userInputMessage (currentMessage e) = true ∧
  (assistants_answer false msgs = true →
   alternates (history e) = true ∧
   Nat.Even (length (history e)) ∧
   ∀ i turn, history e !! i = Some turn →
     is_userInputMessage turn = Nat.even i ∧
     is_assistantResponseMessage turn = Nat.odd i).
Proof.
  intros Hc Hm.
  destruct (history_alternates_exactly this ids req e m msgs Hc Hm) as [Hu Ha].
  split; [done|]. intros Hanswered. rewrite Hanswered in Ha.
  split; [done|]. by apply alternates_spec.
Qed.

(** ** Two translations of one request *)

Lemma convertRequest_ids (this : client) (ids ids' : string * string)
    (req : value) :
  convertRequest this ids' req =
  match convertRequest this ids req with
  | Ok (e, m) => Ok (with_ids ids' e, m)
  | Throw x => Throw x
  end.
Proof. unfold convertRequest. step_through. Qed.

Lemma convertRequest_carries_ids (this : client) (ids : string * string)
    (req e : value) (m : gmap string string) :
  convertRequest this ids req = Ok (e, m) →
  path e ["conversationState"; "conversationId"] = VStr ids.1 ∧
  path e ["conversationState"; "agentContinuationId"] = VStr ids.2.
Proof.
  unfold convertRequest. step_through; intros [= <- <-]; done.
Qed.

(** C9: two runs of [convertRequest] on the same request, with the same
    client, either throw the same error or return the same tool-name map
    and envelopes that are equal once the conversationId and the
    agentContinuationId of one are replaced by those of the other; these
    two fields hold the identifiers generated in each run. *)
Theorem translations_differ_only_in_ids (this : client)
    (ids ids' : string * string) (req : value) :
  match convertRequest this ids req, convertRequest this ids' req with
  | Ok (e, m), Ok (e', m') =>
      m' = m ∧ e' = with_ids ids' e ∧ e = with_ids ids e' ∧
      path e ["conversationState"; "conversationId"] = VStr ids.1 ∧
      path e ["conversationState"; "agentContinuationId"] = VStr ids.2 ∧
      path e' ["conversationState"; "conversationId"] = VStr ids'.1 ∧
      path e' ["conversationState"; "agentContinuationId"] = VStr ids'.2
  | Throw x, Throw x' => x' = x
  | _, _ => False
  end.
Proof.
  destruct (convertRequest this ids req) as [[e m]|x] eqn:E;
    destruct (convertRequest this ids' req) as [[e' m']|x'] eqn:E'.
  - pose proof (convertRequest_ids this ids ids' req) as H1.
    pose proof (convertRequest_ids this ids' ids req) as H2.
    rewrite E, E' in H1, H2.
    apply convertRequest_carries_ids in E, E'.
    destruct E, E'. repeat split; congruence.
  - rewrite (convertRequest_ids this ids ids'), E in E'. done.
  - rewrite (convertRequest_ids this ids ids'), E in E'. done.
  - rewrite (convertRequest_ids this ids ids'), E in E'. congruence.
Qed.

End Translation.

(** [history_alternates] on scenario 4. *)
Lemma history_alternates_witness :
  ∃ e m msgs,
    @KiroClient.convertRequest Envelope.example_host Envelope.plain_client
      ("c", "a") Envelope.threading_request = JS.Ok (e, m) ∧
    KiroClient.messages_of Envelope.threading_request = JS.Ok msgs ∧
    Envelope.assistants_answer false msgs = true ∧
    Envelope.is_userInputMessage (Envelope.currentMessage e) = true ∧
    Envelope.alternates (Envelope.history e) = true ∧
    Nat.Even (length (Envelope.history e)).
Proof.
  eexists _, _, _.
  split; [vm_compute; reflexivity|]. split; [vm_compute; reflexivity|].
  split; [vm_compute; reflexivity|].
  edestruct (@history_alternates Envelope.example_host Envelope.plain_client
               ("c", "a") Envelope.threading_request) as [Hu Ha];
    [vm_compute; reflexivity | vm_compute; reflexivity |].
  split; [exact Hu|].
  destruct Ha as (Halt & Heven & _); [vm_compute; reflexivity|].
  split; [exact Halt | exact Heven].
Defined.

(** C1 at a conversation that opens with an assistant message, and at one
    with two assistant messages in a row.  Both are accepted, and for an
    assistant message that no user message precedes the history loop
    pushes the assistantResponseMessage alone: the history is the single
    assistant turn in the first case, and a user turn followed by two
    assistant turns in the second.  It does not alternate, and its length
    is odd. *)
Theorem assistant_turn_unpaired :
  (∃ e m,
     @KiroClient.convertRequest Envelope.example_host Envelope.plain_client
       ("c", "a") Envelope.assistant_first_request = JS.Ok (e, m) ∧
     Envelope.history e
       = [KiroClient.assistant_turn
            (JS.VObj [("content", JS.VStr "hello")])] ∧
     Envelope.alternates (Envelope.history e) = false ∧
     ¬ Nat.Even (length (Envelope.history e))) ∧
  (∃ e m,
     @KiroClient.convertRequest Envelope.example_host Envelope.plain_client
       ("c", "a") Envelope.double_assistant_request = JS.Ok (e, m) ∧
     Envelope.is_userInputMessage <$> Envelope.history e
       = [true; false; false] ∧
     Envelope.is_assistantResponseMessage <$> Envelope.history e
       = [false; true; true] ∧
     Envelope.alternates (Envelope.history e) = false ∧
     ¬ Nat.Even (length (Envelope.history e))).
Proof.
  split.
  - eexists _, _. split; [vm_compute; reflexivity|].
    split; [reflexivity|]. split; [reflexivity|].
    intros [n Hn]. change (1 = 2 * n)%nat in Hn. lia.
  - eexists _, _. split; [vm_compute; reflexivity|].
    split; [reflexivity|]. split; [reflexivity|]. split; [reflexivity|].
    intros [n Hn]. change (3 = 2 * n)%nat in Hn. lia.
Qed.

(** ** The request-debug summary *)

Section Summary.
Import JS KiroClient Envelope.
Context `{!Host}.

Lemma obj_get_cons k' v o k :
  obj_get ((k', v) :: o) k = if decide (k' = k) then v else obj_get o k.
Proof.
  unfold obj_get. cbn. destruct (decide (k' = k)); [done|].
  by destruct (list_find _ o) as [[? [? ?]]|].
Qed.

Lemma obj_get_set o k v k' :
  obj_get (obj_set o k v) k' = if decide (k = k') then v else obj_get o k'.
Proof.
  induction o as [|[k0 v0] o IH]; cbn [obj_set].
  - rewrite obj_get_cons. by destruct (decide (k = k')).
  - case_bool_decide as Hk0; rewrite !obj_get_cons.
    + subst k0. by destruct (decide (k = k')).
    + rewrite IH. destruct (decide (k0 = k')), (decide (k = k')); congruence.
Qed.

Lemma obj_set_keys o k v k' :
  k' ∈ (obj_set o k v).*1 ↔ k' = k ∨ k' ∈ o.*1.
Proof.
  induction o as [|[k0 v0] o IH]; cbn [obj_set].
  - cbn. rewrite !elem_of_cons, elem_of_nil. tauto.
  - case_bool_decide; cbn; rewrite ?elem_of_cons, ?IH; [subst|]; tauto.
Qed.

Lemma assign_get o k v k' :
  obj_get (assign o k v) k' =
  if decide (k = k' ∧ k ≠ "__proto__") then v else obj_get o k'.
Proof.
  unfold assign. case_bool_decide as Hp.
  - rewrite decide_False; [done | tauto].
  - rewrite obj_get_set. destruct (decide (k = k')) as [->|Hne].
    + by rewrite decide_True.
    + rewrite decide_False; [done | tauto].
Qed.

Lemma assign_keys o k v k' :
  k' ∈ (assign o k v).*1 ↔ (k' = k ∧ k ≠ "__proto__") ∨ k' ∈ o.*1.
Proof.
  unfold assign. case_bool_decide as Hp; [tauto|].
  rewrite obj_set_keys. tauto.
Qed.

(** The loop [for (const k of keys) out[k] = f(k)]. *)
Lemma fold_assign_get (f : string → value) keys : ∀ out k,
  obj_get (fold_left (λ out k, assign out k (f k)) keys out) k =
  if decide (k ∈ keys ∧ k ≠ "__proto__") then f k else obj_get out k.
Proof.
  induction keys as [|k1 keys IH]; intros out k; cbn [fold_left].
  - rewrite decide_False; [done|]. rewrite elem_of_nil. tauto.
  - rewrite IH, assign_get.
    destruct (decide (k ∈ keys ∧ k ≠ "__proto__")) as [Hin|Hin].
    + rewrite decide_True; [done|]. rewrite elem_of_cons. tauto.
    + destruct (decide (k1 = k ∧ k1 ≠ "__proto__")) as [[-> Hp]|Hne].
      * rewrite decide_True; [done|]. rewrite elem_of_cons. tauto.
      * rewrite decide_False; [done|]. rewrite elem_of_cons.
        intros [[->|E] Hp]; tauto.
Qed.

Lemma fold_assign_keys (f : string → value) keys : ∀ out k,
  k ∈ (fold_left (λ out k, assign out k (f k)) keys out).*1 ↔
  (k ∈ keys ∧ k ≠ "__proto__") ∨ k ∈ out.*1.
Proof.
  induction keys as [|k1 keys IH]; intros out k; cbn [fold_left].
  - rewrite elem_of_nil. tauto.
  - rewrite IH, assign_keys, elem_of_cons.
    split; [intros [?|[[-> ?]|?]] | intros [[[->|?] ?]|?]]; tauto.
Qed.

Lemma fold_assign_ext (f g : string → value) keys :
  (∀ k, f k = g k) → ∀ out,
  fold_left (λ out k, assign out k (f k)) keys out =
  fold_left (λ out k, assign out k (g k)) keys out.
Proof.
  intros Hfg. induction keys as [|k keys IH]; intros out; cbn; [done|].
  by rewrite Hfg, IH.
Qed.

Lemma same_shape_obj_get (o o' : list (string * value)) k :
  Forall2 (λ kv kv', kv.1 = kv'.1 ∧ same_shape kv.2 kv'.2) o o' →
  same_shape (obj_get o k) (obj_get o' k).
Proof.
  induction 1 as [|[k1 v1] [k2 v2] o o' [Hk Hv] _ IH]; [constructor|].
  cbn in Hk, Hv. subst k2. rewrite !obj_get_cons.
  by destruct (decide (k1 = k)).
Qed.

Lemma same_shape_keys (o o' : list (string * value)) :
  Forall2 (λ kv kv', kv.1 = kv'.1 ∧ same_shape kv.2 kv'.2) o o' →
  o.*1 = o'.*1.
Proof.
  induction 1 as [|[k1 v1] [k2 v2] o o' [Hk Hv] _ IH]; [done|].
  cbn in *. congruence.
Qed.

Lemma summarize_same_shape levels : ∀ v w,
  same_shape v w → summarize levels w = summarize levels v.
Proof.
  induction levels as [|levels IH]; intros v w Hvw; [done|].
  destruct Hvw as [| | | | s t Hlen | l l' Hl | o o' Ho]; cbn [summarize];
    try done.
  - by rewrite Hlen.
  - rewrite (Forall2_length _ _ _ Hl).
    enough (summarize levels <$> take 3 l' = summarize levels <$> take 3 l)
      as -> by done.
    apply (Forall2_take _ _ _ 3) in Hl.
    induction Hl as [|x y t t' Hxy _ IHl]; [done|].
    rewrite !fmap_cons. by rewrite IHl, (IH _ _ Hxy).
  - assert (own_keys o' = own_keys o) as ->.
    { unfold own_keys. by rewrite (same_shape_keys _ _ Ho). }
    f_equal. apply fold_assign_ext. intros k. apply IH.
    by apply same_shape_obj_get.
Qed.

(** *** No payload in the summary of an envelope *)

Lemma texts_arr l : texts (VArr l) = concat (texts <$> l).
Proof. induction l as [|x l IH]; [done|]. cbn in *. by rewrite IH. Qed.

Lemma texts_obj o :
  texts (VObj o) = concat ((λ kv, kv.1 :: texts kv.2) <$> o).
Proof.
  induction o as [|[k x] o IH]; [done|]. cbn in *. by rewrite IH.
Qed.

Lemma harmless_arr l :
  Forall (λ x, Forall harmless (texts x)) l → Forall harmless (texts (VArr l)).
Proof.
  rewrite texts_arr. induction 1 as [|x l Hx _ IH]; [constructor|].
  cbn. by apply Forall_app.
Qed.

Lemma harmless_obj o :
  Forall (λ kv, harmless kv.1 ∧ Forall harmless (texts kv.2)) o →
  Forall harmless (texts (VObj o)).
Proof.
  rewrite texts_obj. induction 1 as [|[k x] o [Hk Hx] _ IH]; [constructor|].
  cbn. constructor; [done|]. by apply Forall_app.
Qed.

Lemma obj_set_elem o k v kv :
  kv ∈ obj_set o k v → kv = (k, v) ∨ kv ∈ o.
Proof.
  induction o as [|[k0 v0] o IH]; cbn [obj_set].
  - rewrite list_elem_of_singleton. tauto.
  - case_bool_decide; rewrite !elem_of_cons; [tauto|].
    intros [->|Hin]; [tauto|]. destruct (IH Hin); tauto.
Qed.

Lemma fold_assign_elem (f : string → value) keys : ∀ out kv,
  kv ∈ fold_left (λ out k, assign out k (f k)) keys out →
  kv ∈ out ∨ (kv.1 ∈ keys ∧ kv.2 = f kv.1).
Proof.
  induction keys as [|k keys IH]; intros out kv; cbn [fold_left]; [tauto|].
  intros [Hin|[Hin Hf]]%IH.
  - unfold assign in Hin. case_bool_decide; [tauto|].
    apply obj_set_elem in Hin as [->|Hin]; [|tauto].
    right. split; [by left | done].
  - right. split; [by right | done].
Qed.

Lemma own_keys_elem o k : k ∈ own_keys o → k ∈ o.*1.
Proof.
  unfold own_keys. rewrite elem_of_app. intros [Hk|Hk].
  - apply list_elem_of_fmap in Hk as ([n k'] & -> & Hk).
    rewrite merge_sort_Permutation in Hk.
    apply list_elem_of_omap in Hk as (k0 & Hk0 & Hn).
    destruct (array_index k0); [|done]. by injection Hn as _ <-.
  - by apply list_elem_of_filter in Hk as [_ Hk].
Qed.

Lemma fixed_keys_obj_get n o k :
  forallb (λ kv, bool_decide (kv.1 ∈ schema_names) && fixed_keys n kv.2) o
    = true →
  fixed_keys n (obj_get o k) = true.
Proof.
  induction o as [|[k0 v0] o IH]; cbn [forallb].
  - intros _. by destruct n.
  - intros [[_ Hv]%andb_true_iff Ho]%andb_true_iff.
    rewrite obj_get_cons. destruct (decide (k0 = k)); [done | by apply IH].
Qed.

Lemma fixed_keys_names n (o : list (string * value)) k :
  forallb (λ kv, bool_decide (kv.1 ∈ schema_names) && fixed_keys n kv.2) o
    = true →
  k ∈ o.*1 → k ∈ schema_names.
Proof.
  intros Ho Hk. apply list_elem_of_fmap in Hk as ([k0 v0] & -> & Hin).
  rewrite forallb_forall in Ho. apply list_elem_of_In in Hin.
  apply Ho in Hin. apply andb_true_iff in Hin as [Hin _].
  by apply bool_decide_eq_true in Hin.
Qed.

Lemma tag_harmless s : s ∈ summary_tags → harmless s.
Proof. intros Hs. right. by left. Qed.

Lemma name_harmless s : s ∈ schema_names → harmless s.
Proof. intros Hs. by left. Qed.

Lemma summarize_harmless levels : ∀ v,
  fixed_keys levels v = true → Forall harmless (texts (summarize levels v)).
Proof.
  induction levels as [|n IH]; intros v Hv.
  { apply Forall_singleton, tag_harmless. set_solver. }
  destruct v as [| | b | z | s | l | o]; cbn [summarize].
  - apply Forall_singleton, tag_harmless. set_solver.
  - constructor.
  - constructor.
  - constructor.
  - apply Forall_singleton. right. right. by eexists.
  - apply harmless_obj. repeat apply Forall_cons_2; [..|constructor];
      cbn [fst snd texts]; (split; [apply tag_harmless; set_solver|]).
    + apply Forall_singleton, tag_harmless. set_solver.
    + constructor.
    + apply harmless_arr. apply Forall_fmap, Forall_forall. intros x Hx.
      apply IH. cbn in Hv. rewrite forallb_forall in Hv. apply Hv.
      apply list_elem_of_In.
      apply elem_of_take in Hx as (i & Hi & _).
      by eapply list_elem_of_lookup_2.
  - cbn [fixed_keys] in Hv. apply harmless_obj, Forall_forall.
    assert (∀ k, k ∈ take 60 (own_keys o) → k ∈ schema_names) as Hkeys.
    { intros k (i & Hi & _)%elem_of_take.
      eapply fixed_keys_names; [done|].
      apply own_keys_elem. by eapply list_elem_of_lookup_2. }
    intros [k v] [Hin|[Hk Hval]]%fold_assign_elem; cbn [fst snd] in *.
    + apply elem_of_cons in Hin as [[= -> ->]|Hin].
      { split; [apply tag_harmless; set_solver|].
        apply Forall_singleton, tag_harmless. set_solver. }
      apply list_elem_of_singleton in Hin as [= -> ->].
      split; [apply tag_harmless; set_solver|].
      apply harmless_arr, Forall_fmap, Forall_forall. intros k Hk.
      apply Forall_singleton, name_harmless. by apply Hkeys.
    + subst v. split.
      * apply name_harmless. by apply Hkeys.
      * apply IH. by apply fixed_keys_obj_get.
Qed.

Lemma Forall_forallb {A} (f : A → bool) l :
  Forall (λ x, f x = true) l → forallb f l = true.
Proof. induction 1 as [|x l Hx _ IH]; [done|]. cbn. by rewrite Hx, IH. Qed.

Lemma fixed_keys_scalar n v : scalar v → fixed_keys n v = true.
Proof. by destruct n, v. Qed.

Lemma user_blocks_shape blocks : ∀ textParts toolResults parts' toolResults',
  user_blocks blocks textParts toolResults = Ok (parts', toolResults') →
  Forall (λ r, fixed_keys 1 r = true) toolResults →
  Forall (λ r, fixed_keys 1 r = true) toolResults'.
Proof.
  induction blocks as [|block rest IH]; intros tp tr tp' tr' Hb Htr.
  - by injection Hb as <- <-.
  - cbn [user_blocks] in Hb. bind_ok Hb as ty Ety.
    destruct (is_str ty "text").
    { bind_ok Hb as t Et. by eapply IH. }
    destruct (is_str ty "tool_result"); [|by eapply IH].
    bind_ok Hb as c Ec. bind_ok Hb as rc Erc. bind_ok Hb as id Eid.
    bind_ok Hb as is_error Eerr. eapply IH; [done|].
    apply Forall_app. split; [done|]. by apply Forall_singleton.
Qed.

Lemma extractUserContent_shape content text toolResults :
  extractUserContent content = Ok (text, toolResults) →
  Forall (λ r, fixed_keys 1 r = true) toolResults.
Proof.
  unfold extractUserContent. intros Hc.
  destruct (negb (truthy content)); [by injection Hc as <- <-|].
  destruct content; try (by injection Hc as <- <-);
    (bind_ok Hc as blocks Eblocks; bind_ok Hc as [tp tr] Eb;
     bind_ok Hc as joined Ej; injection Hc as <- <-;
     by eapply user_blocks_shape).
Qed.

Lemma user_parts_shape msgs : ∀ parts results parts' results',
  user_parts msgs parts results = Ok (parts', results') →
  Forall (λ r, fixed_keys 1 r = true) results →
  Forall (λ r, fixed_keys 1 r = true) results'.
Proof.
  induction msgs as [|msg rest IH]; intros parts results parts' results' Hp Hr.
  - by injection Hp as <- <-.
  - cbn [user_parts] in Hp. bind_ok Hp as content Econtent.
    bind_ok Hp as [text toolResults] Eextract. eapply IH; [done|].
    apply Forall_app. split; [done|]. by eapply extractUserContent_shape.
Qed.

Lemma assistant_blocks_shape blocks : ∀ th tp tu ns th' tp' tu' ns',
  assistant_blocks blocks th tp tu ns = Ok (th', tp', tu', ns') →
  Forall (λ u, fixed_keys 1 u = true) tu →
  Forall (λ u, fixed_keys 1 u = true) tu'.
Proof.
  induction blocks as [|block rest IH];
    intros th tp tu ns th' tp' tu' ns' Hb Htu.
  - by injection Hb as <- <- <- <-.
  - cbn [assistant_blocks] in Hb. bind_ok Hb as ty Ety.
    destruct (is_str ty "thinking").
    { bind_ok Hb as t Et. bind_ok Hb as s Es. by eapply IH. }
    destruct (is_str ty "text").
    { bind_ok Hb as t Et. by eapply IH. }
    destruct (is_str ty "tool_use"); [|by eapply IH].
    bind_ok Hb as name Ename. bind_ok Hb as unsupported Eunsupported.
    destruct unsupported; [by eapply IH|].
    bind_ok Hb as id Eid. bind_ok Hb as [kiroName ns1] Ekiro.
    bind_ok Hb as input Einput. eapply IH; [done|].
    apply Forall_app. split; [done|]. by apply Forall_singleton.
Qed.

Lemma extractAssistantContent_shape content ns text toolUses ns' :
  extractAssistantContent content ns = Ok (text, toolUses, ns') →
  Forall (λ u, fixed_keys 1 u = true) toolUses.
Proof.
  unfold extractAssistantContent. intros Hc.
  destruct content; try (by injection Hc as <- <- <-);
    (bind_ok Hc as blocks Eblocks; bind_ok Hc as [[[th tp] tu] ns1] Eb;
     bind_ok Hc as joined Ej; injection Hc as _ <- _;
     by eapply assistant_blocks_shape).
Qed.

Lemma mergeUserMessages_shape messages modelId merged :
  mergeUserMessages messages modelId = Ok merged → scalar modelId →
  fixed_keys 4 (user_turn merged) = true.
Proof.
  unfold mergeUserMessages. intros Hm Hs.
  bind_ok Hm as [contentParts allToolResults] Eparts. injection Hm as <-.
  destruct (is_nil allToolResults); destruct modelId; try done; cbn.
  all: rewrite Forall_forallb; [done | by apply Forall_true].
Qed.

Lemma walk_shape modelId msgs : ∀ buf h ns buf' h' ns',
  walk modelId msgs buf h ns = Ok (buf', h', ns') → scalar modelId →
  Forall (λ t, fixed_keys 4 t = true) h →
  Forall (λ t, fixed_keys 4 t = true) h'.
Proof.
  induction msgs as [|msg rest IH]; intros buf h ns buf' h' ns' Hw Hs Hh.
  - by injection Hw as <- <- <-.
  - cbn [walk] in Hw. bind_ok Hw as role Erole.
    destruct (is_str role "user"); [by eapply IH|].
    destruct (is_str role "assistant"); [|by eapply IH].
    bind_ok Hw as flushed Eflushed. bind_ok Hw as content Econtent.
    bind_ok Hw as [[text toolUses] ns1] Eextract.
    eapply IH; [done..|].
    apply Forall_app. split.
    + destruct (is_nil buf); [by injection Eflushed as <-|].
      bind_ok Eflushed as mergedUser Emerged. injection Eflushed as <-.
      apply Forall_app. split; [done|]. apply Forall_singleton.
      by eapply mergeUserMessages_shape.
    + apply Forall_singleton. apply extractAssistantContent_shape in Eextract.
      cbn. destruct (is_nil toolUses); cbn; [done|].
      by rewrite Forall_forallb.
Qed.

Lemma system_turns_shape system thinkingPrefix modelId h0 :
  system_turns system thinkingPrefix modelId = Ok h0 → scalar modelId →
  Forall (λ t, fixed_keys 4 t = true) h0.
Proof.
  unfold system_turns, instruction_pair. intros Hs Hm.
  assert (∀ c, fixed_keys 4
                 (user_turn (VObj [("content", VStr c); ("modelId", modelId);
                                   ("origin", VStr "AI_EDITOR")])) = true)
    as Hu.
  { intros c. by destruct modelId. }
  destruct (truthy system).
  - bind_ok Hs as systemContent E.
    destruct (bool_decide _); injection Hs as <-; repeat constructor; apply Hu.
  - destruct thinkingPrefix; injection Hs as <-; repeat constructor; apply Hu.
Qed.

Lemma tool_specs_shape tools : ∀ ns specs ns',
  tool_specs tools ns = Ok (specs, ns') →
  Forall (λ t, fixed_keys 1 t = true) specs.
Proof.
  induction tools as [|t rest IH]; intros ns specs ns' Ht.
  - injection Ht as <- _. constructor.
  - cbn [tool_specs] in Ht. bind_ok Ht as name Ename.
    bind_ok Ht as [kiroName ns1] Ekiro. bind_ok Ht as d Ed.
    bind_ok Ht as description Edesc. bind_ok Ht as schema Eschema.
    bind_ok Ht as [specs' ns2] Erest. injection Ht as <- _.
    constructor; [done | by eapply IH].
Qed.


Lemma fixed_keys_obj n o :
  Forall (λ kv, kv.1 ∈ schema_names ∧ fixed_keys n kv.2 = true) o →
  fixed_keys (S n) (VObj o) = true.
Proof.
  intros Ho. cbn [fixed_keys]. apply Forall_forallb.
  eapply Forall_impl; [done|]. intros kv [Hk Hv]. cbn beta.
  by rewrite bool_decide_true, Hv.
Qed.

Lemma schema_name k :
  bool_decide (k ∈ schema_names) = true → k ∈ schema_names.
Proof. apply bool_decide_eq_true_1. Qed.

Ltac field :=
  split; [cbn [fst]; apply schema_name; vm_compute; reflexivity | cbn [snd]].

Lemma convertRequest_fixed_keys (this : client) (ids : string * string)
    (req e : value) (m : gmap string string) :
  convertRequest this ids req = Ok (e, m) → scalar_config this →
  fixed_keys 7 e = true.
Proof.
  unfold convertRequest. intros Hc [Hprofile Hmodel].
  bind_ok Hc as model Emodel. bind_ok Hc as modelId EmodelId.
  destruct (negb (truthy modelId)); [by bind_ok Hc as label Elabel|].
  bind_ok Hc as messages Emsgs.
  destruct (is_nil messages); [done|].
  bind_ok Hc as trailing Etrailing.
  bind_ok Hc as endsWithAssistant Eends.
  bind_ok Hc as thinkingPrefix Eprefix.
  bind_ok Hc as system Esystem.
  bind_ok Hc as history0 Ehistory0.
  bind_ok Hc as [[userBuffer history1] ns] Ewalk.
  bind_ok Hc as hist Ehist.
  bind_ok Hc as [currentText allToolResults] Ecurrent.
  bind_ok Hc as toolsIn EtoolsIn.
  bind_ok Hc as toolList EtoolList.
  bind_ok Hc as kept Ekept.
  bind_ok Hc as [tools ns'] Etools.
  bind_ok Hc as tool_choice Echoice.
  bind_ok Hc as chatTriggerType Etrigger.
  injection Hc as <- _.
  apply Hmodel in EmodelId as Hscalar.
  assert (forallb (fixed_keys 4) hist = true) as Hhist.
  { apply Forall_forallb.
    apply system_turns_shape in Ehistory0; [|done].
    eapply walk_shape in Ewalk; [|done..].
    destruct (is_nil userBuffer); [by injection Ehist as <-|].
    bind_ok Ehist as mergedUser Emerged. injection Ehist as <-.
    apply Forall_app. split; [done|].
    constructor; [by eapply mergeUserMessages_shape | by constructor]. }
  assert (forallb (fixed_keys 1) tools = true) as Htools.
  { apply Forall_forallb. by eapply tool_specs_shape. }
  assert (forallb (fixed_keys 1) allToolResults = true) as Hresults.
  { apply Forall_forallb. destruct endsWithAssistant.
    - injection Ecurrent as _ <-. constructor.
    - bind_ok Ecurrent as [textParts results] Eparts.
      injection Ecurrent as _ <-. by eapply user_parts_shape. }
  apply fixed_keys_obj, Forall_cons_2.
  - field. apply fixed_keys_obj.
    repeat apply Forall_cons_2; [..|constructor]; field; try done.
    apply fixed_keys_obj, Forall_singleton. field.
    apply fixed_keys_obj.
    apply Forall_cons_2; [by field|].
    apply Forall_cons_2; [field; by apply fixed_keys_scalar|].
    apply Forall_cons_2; [by field|].
    destruct (is_nil (_ ++ _)); [constructor|].
    apply Forall_singleton. field.
    apply fixed_keys_obj, Forall_app.
    split; [destruct (is_nil tools) | destruct (is_nil allToolResults)];
      try constructor; try field; try done; constructor.
  - destruct (truthy _); [|constructor].
    apply Forall_singleton. field. by apply fixed_keys_scalar.
Qed.

Lemma scalar_config_default (this : client) :
  dbManager this = None → scalar (credentials_profileArn this) →
  scalar_config this.
Proof.
  intros Hdb Hp. split; [done|]. intros model id. unfold mapModel.
  rewrite Hdb. destruct model; try done.
  repeat (case_match; try done); by intros [= <-].
Qed.

(** The method as the source writes it, with the depth going up. *)
Lemma summarizeForDebug_unfold (v : value) (depth : nat) :
  summarizeForDebug v depth =
  if (6 <? depth)%nat then VStr "[MaxDepth]"
  else match v with
       | VNull => VNull
       | VStr s => VStr ("<string len=" +:+ pretty (String.length s) +:+ ">")
       | VNum _ | VBool _ => v
       | VUndefined => VStr "<undefined>"
       | VArr l =>
           VObj [("_type", VStr "array");
                 ("length", VNum (Z.of_nat (length l)));
                 ("sample",
                  VArr ((λ x, summarizeForDebug x (S depth)) <$> take 3 l))]
       | VObj o =>
           let keys := take 60 (own_keys o) in
           VObj (fold_left
                   (λ out k,
                      assign out k (summarizeForDebug (obj_get o k) (S depth)))
                   keys
                   [("_type", VStr "object"); ("keys", VArr (VStr <$> keys))])
       end.
Proof.
  unfold summarizeForDebug. destruct (Nat.ltb_spec 6 depth) as [Hd|Hd].
  - by replace (7 - depth)%nat with 0%nat by lia.
  - replace (7 - depth)%nat with (S (6 - depth)) by lia.
    by replace (7 - S depth)%nat with (6 - depth)%nat by lia.
Qed.

(** C6: at a depth of at most 6 the summary replaces a string value by
    [<string len=N>], passes numbers, booleans and [null] through, keeps of
    an array its length and the summaries of its first 3 elements, and of an
    object the summaries of the values of its first 60 keys under those keys
    (the key [__proto__] apart), next to [_type] and [keys]; beyond depth 6
    it is [[MaxDepth]].  It never contains payload bytes: the characters of
    string values do not reach it, two values that differ only in the
    characters of string values of equal length having the same summary;
    and in the summary of an envelope that [convertRequest] returned, all
    text is a field name of the envelope, a word of the summary or a length
    tag. *)
Theorem summarizeForDebug_bounded (v : value) (depth : nat) :
  (6 < depth → summarizeForDebug v depth = VStr "[MaxDepth]")%nat ∧
  (depth ≤ 6 →
   match v with
   | VStr s =>
       summarizeForDebug v depth =
       VStr ("<string len=" +:+ pretty (String.length s) +:+ ">")
   | VNum _ | VBool _ | VNull => summarizeForDebug v depth = v
   | VUndefined => summarizeForDebug v depth = VStr "<undefined>"
   | VArr l =>
       summarizeForDebug v depth =
       VObj [("_type", VStr "array");
             ("length", VNum (Z.of_nat (length l)));
             ("sample",
              VArr ((λ x, summarizeForDebug x (S depth)) <$> take 3 l))]
   | VObj o =>
       let keys := take 60 (own_keys o) in
       ∃ out,
         summarizeForDebug v depth = VObj out ∧
         (∀ k, k ∈ out.*1 ↔
               k = "_type" ∨ k = "keys" ∨ (k ∈ keys ∧ k ≠ "__proto__")) ∧
         (∀ k, k ∈ keys → k ≠ "__proto__" →
               obj_get out k = summarizeForDebug (obj_get o k) (S depth)) ∧
         ("_type" ∉ keys → obj_get out "_type" = VStr "object") ∧
         ("keys" ∉ keys → obj_get out "keys" = VArr (VStr <$> keys))
   end)%nat ∧
  (∀ w, same_shape v w →
        summarizeForDebug w depth = summarizeForDebug v depth) ∧
  (∀ this ids req m,
     convertRequest this ids req = Ok (v, m) → scalar_config this →
     Forall harmless (texts (summarizeForDebug v 0))).
Proof.
  split; [|split; [|split]].
  - intros Hd. rewrite summarizeForDebug_unfold.
    by rewrite (proj2 (Nat.ltb_lt _ _)).
  - intros Hd. rewrite summarizeForDebug_unfold.
    rewrite (proj2 (Nat.ltb_ge _ _)) by done.
    destruct v as [| | b | n | s | l | o]; try done.
    cbv zeta. eexists. split; [done|].
    split; [|split; [|split]].
    + intros k. rewrite fold_assign_keys. cbn.
      rewrite !elem_of_cons, elem_of_nil. tauto.
    + intros k Hk Hp. rewrite fold_assign_get. by rewrite decide_True.
    + intros Hk. rewrite fold_assign_get. rewrite decide_False; [done|tauto].
    + intros Hk. rewrite fold_assign_get. rewrite decide_False; [done|tauto].
  - intros w. apply summarize_same_shape.
  - intros this ids req m Hc Hconfig. apply summarize_harmless.
    by eapply convertRequest_fixed_keys.
Qed.

End Summary.

(** [summarizeForDebug_bounded] on small values and on the envelope of
    scenario 4. *)
Lemma summarizeForDebug_bounded_witness :
  KiroClient.summarizeForDebug (JS.VObj [("k", JS.VStr "hello")]) 7
    = JS.VStr "[MaxDepth]" ∧
  KiroClient.summarizeForDebug (JS.VStr "hello") 0 = JS.VStr "<string len=5>" ∧
  KiroClient.summarizeForDebug (JS.VStr "world") 6
    = KiroClient.summarizeForDebug (JS.VStr "hello") 6 ∧
  ∃ e m,
    @KiroClient.convertRequest Envelope.example_host Envelope.plain_client
      ("c", "a") Envelope.threading_request = JS.Ok (e, m) ∧
    Forall Envelope.harmless
      (Envelope.texts (KiroClient.summarizeForDebug e 0)).
Proof.
  split; [|split; [|split]].
  - apply (proj1 (@summarizeForDebug_bounded Envelope.example_host
                    (JS.VObj [("k", JS.VStr "hello")]) 7)).
    lia.
  - apply (proj1 (proj2 (@summarizeForDebug_bounded Envelope.example_host
                           (JS.VStr "hello") 0))).
    lia.
  - apply (proj1 (proj2 (proj2 (@summarizeForDebug_bounded
                                  Envelope.example_host (JS.VStr "hello") 6)))).
    constructor. reflexivity.
  - eexists _, _. split; [vm_compute; reflexivity|].
    eapply (proj2 (proj2 (proj2 (@summarizeForDebug_bounded
                                   Envelope.example_host _ 0)))
              Envelope.plain_client ("c", "a") Envelope.threading_request).
    + vm_compute. reflexivity.
    + apply scalar_config_default; reflexivity.
Defined.

(** A small object and its summary: the key name is kept, the characters
    of the string value are not. *)
Example summary_of_object :
  KiroClient.summarizeForDebug (JS.VObj [("secret", JS.VStr "x")]) 0 =
  JS.VObj [("_type", JS.VStr "object");
           ("keys", JS.VArr [JS.VStr "secret"]);
           ("secret", JS.VStr "<string len=1>")].
Proof. reflexivity. Qed.

(** ** The order of the calls in [callApiStream] *)

Section Dispatch.
Import JS KiroClient Envelope.
Context `{!Host}.

(** C5, as the code has it: [callApiStream] first asks the token manager
    for a bearer token and only then translates the request.  If the token
    manager throws, the request is not translated.  If the translation
    throws (EmptyMessages, UnsupportedModel, ...), the error leaves
    [callApiStream] after that one call: nothing is fetched and no log row
    is written.  In every run the call to the token manager comes first. *)
Theorem callApiStream_token_first (this : client) (w : world) (req : value) :
  let region := toString (or_else (config_region this) (VStr "us-east-1")) in
  let translation := convertRequest this (uuidv4 w 0, uuidv4 w 1) req in
  match ensureValidToken w, region, translation with
  | Throw e, _, _ | Ok _, Throw e, _ | Ok _, Ok _, Throw e =>
      run (callApiStream this w req) = (Throw e, [CallEnsureValidToken])
  | Ok _, Ok _, Ok _ =>
      ∃ calls,
        (run (callApiStream this w req)).2 = CallEnsureValidToken :: calls
  end.
Proof.
  unfold run, callApiStream, call, pure, mbind, io_bind, mret, io_ret.
  cbn [app].
  destruct (ensureValidToken w) as [token|e]; [|done].
  destruct (toString _) as [region|e]; [|done].
  destruct (convertRequest _ _ _) as [[kiroReq toolNameMap]|e]; [|done].
  destruct (buildHeaders this w token) as [headers|e]; [|by eexists].
  destruct (fetch w _ _ _ _) as [response|e]; [|by eexists].
  destruct (ok response); by eexists.
Qed.

End Dispatch.

(** C5 as stated fails: on a request without messages the translation
    throws EmptyMessages, and the token manager has been called. *)
Lemma translation_before_token_counterexample :
  @KiroClient.convertRequest Envelope.example_host Envelope.plain_client
    ("0", "1") Envelope.empty_request = JS.Throw JS.EmptyMessages ∧
  ¬ (KiroClient.CallEnsureValidToken ∉
       (KiroClient.run
          (@KiroClient.callApiStream Envelope.example_host
             Envelope.plain_client Envelope.example_world
             Envelope.empty_request)).2).
Proof.
  split; [reflexivity|]. intros Hnot. apply Hnot. vm_compute. left.
Qed.

(** ** The account pool *)

Section Pool.
Import JS AccountPool.

Lemma least_used_elem first rest : least_used first rest ∈ first :: rest.
Proof.
  unfold least_used. revert first.
  induction rest as [|b rest IH]; intros first; cbn [fold_left]; [by left|].
  destruct (requestCount first.2 <? requestCount b.2)%nat.
  - destruct (proj1 (elem_of_cons _ _ _) (IH first)) as [->|Hin];
      [by left | by do 2 right].
  - right. apply IH.
Qed.

Lemma available_elem l a p :
  (l, a) ∈ available p ↔ (l, a) ∈ values p ∧ status a = active.
Proof. unfold available. rewrite list_elem_of_filter. cbn. tauto. Qed.

Lemma values_elem l a p :
  (l, a) ∈ values p ↔ (∃ i, (i, l) ∈ accounts p) ∧ store p !! l = Some a.
Proof.
  unfold values. rewrite list_elem_of_omap. split.
  - intros ([i l'] & Hin & Hl). cbn in Hl.
    destruct (store p !! l') as [a'|] eqn:E; [|done].
    injection Hl as -> ->. eauto.
  - intros [[i Hin] Hl]. exists (i, l). split; [done|]. cbn. by rewrite Hl.
Qed.

Lemma accounts_get_elem i l p :
  accounts_get i p = Some l → (i, l) ∈ accounts p.
Proof.
  unfold accounts_get. intros H.
  destruct (list_find _ _) as [[n [i' l']]|] eqn:E; [|done].
  injection H as ->. apply list_find_Some in E as (Hn & Hi & _).
  cbn in Hi. subst i'. by eapply list_elem_of_lookup_2.
Qed.

(** C8: whatever the pool and the strategy, an account that [selectAccount]
    returns is an account object of the pool whose status is active (so not
    invalid, cooldown or disabled), and it is still active afterwards; when
    no account of the pool is active, [selectAccount] returns null and
    leaves the pool as it is. *)
Theorem selectAccount_only_active (rnd : nat → nat) (p : pool) :
  (∀ sel p', selectAccount rnd p = Ok (Some sel, p') →
     ∃ l a, (l, a) ∈ values p ∧ status a = active ∧
            sel = (id a, name a) ∧ status_at l p' = Some active) ∧
  (Forall (λ la, status la.2 ≠ active) (values p) →
   selectAccount rnd p = Ok (None, p)).
Proof.
  unfold selectAccount. split.
  - intros sel p'. destruct (available p) as [|first rest] eqn:Hav; [done|].
    set (n := length (first :: rest)).
    assert (∀ la, la ∈ first :: rest →
                  la ∈ values p ∧ status la.2 = active) as Hactive.
    { intros [l a]. rewrite <- Hav. apply available_elem. }
    intros Hsel.
    destruct (if bool_decide (strategy p = "random") then _ else _)
      as [[[l a]|] index'] eqn:Hchoice; [|done].
    injection Hsel as <- <-.
    assert ((l, a) ∈ first :: rest) as Hin.
    { repeat case_bool_decide; injection Hchoice as Hl _.
      - by eapply list_elem_of_lookup_2.
      - rewrite <- Hl. apply least_used_elem.
      - by eapply list_elem_of_lookup_2. }
    apply Hactive in Hin as [Hv Ha]. exists l, a.
    repeat split; try done. unfold status_at. cbn.
    rewrite lookup_insert_eq. cbn. by f_equal.
  - intros Hnone. replace (available p) with (@nil (loc * account)); [done|].
    symmetry. unfold available. induction Hnone as [|la v Hla _ IH]; [done|].
    rewrite filter_cons. by rewrite decide_False.
Qed.

Lemma recordError_rate_limit (p : pool) (i : string) (l : loc) (a : account) :
  accounts_get i p = Some l → store p !! l = Some a →
  (∃ a1, store (recordError i true p) !! l = Some a1 ∧
         status a1 = cooldown ∧ id a1 = id a ∧ name a1 = name a) ∧
  timers (recordError i true p) =
    timers p ++ [{| due := (now p + cooldown_ms)%N; target := l |}] ∧
  now (recordError i true p) = now p ∧
  accounts (recordError i true p) = accounts p ∧
  strategy (recordError i true p) = strategy p.
Proof.
  intros Hi Hl. unfold recordError. rewrite Hi, Hl. cbn.
  rewrite lookup_insert_eq. repeat split; try done. by eexists.
Qed.

Lemma fire_due (q : pool) (n : nat) (t : timer) (a : account) :
  timers q !! n = Some t → store q !! target t = Some a →
  (now q < due t → fire n q = None)%N ∧
  (due t ≤ now q →
   ∃ q', fire n q = Some q' ∧
         timers q' = delete n (timers q) ∧
         accounts q' = accounts q ∧ strategy q' = strategy q ∧
         (status a = cooldown →
          store q' = <[target t := with_status active a]> (store q)) ∧
         (status a ≠ cooldown → store q' = store q))%N.
Proof.
  intros Ht Ha. unfold fire. rewrite Ht. split; intros Hnow.
  - by rewrite (proj2 (N.leb_gt _ _)).
  - rewrite (proj2 (N.leb_le _ _)) by done. eexists. split; [done|].
    unfold cooldown_elapsed. cbn. rewrite Ha.
    case_bool_decide as Hc; cbn; repeat split; done.
Qed.

(** C7: after [recordError] with the rate-limit flag on an existing
    account, the account's status is cooldown at once and a timer on that
    account is pending, due 5 minutes (300000 ms) later.  In any later
    state of the pool in which that timer is pending, it cannot fire before
    it is due; when it fires, the account becomes active if its status is
    cooldown at that moment, and otherwise (the status was changed in the
    meantime, to disabled for instance) the account store is left as it
    is. *)
Theorem cooldown_timer (p : pool) (i : string) (l : loc) (a : account) :
  accounts_get i p = Some l → store p !! l = Some a →
  let t := {| due := (now p + cooldown_ms)%N; target := l |} in
  status_at l (recordError i true p) = Some cooldown ∧
  timers (recordError i true p) = timers p ++ [t] ∧
  cooldown_ms = 300000%N ∧
  ∀ (q : pool) (n : nat) (s : account_status),
    timers q !! n = Some t → status_at l q = Some s →
    (now q < due t → fire n q = None)%N ∧
    (due t ≤ now q →
     ∃ q', fire n q = Some q' ∧
           status_at l q' =
             Some (if bool_decide (s = cooldown) then active else s) ∧
           (s ≠ cooldown → store q' = store q))%N.
Proof.
  intros Hi Hl t.
  destruct (recordError_rate_limit p i l a Hi Hl)
    as ((a1 & Ha1 & Hs & _) & Ht & _).
  split; [|split; [done|split; [done|]]].
  { unfold status_at. rewrite Ha1. cbn. by f_equal. }
  intros q n s Hn Hq. unfold status_at in Hq.
  destruct (store q !! l) as [b|] eqn:Eb; [|done]. injection Hq as <-.
  destruct (fire_due q n t b Hn Eb) as [Hearly Hfire]. split; [done|].
  intros Hdue. destruct (Hfire Hdue) as (q' & Hq' & _ & _ & _ & Hc & Hnc).
  exists q'. split; [done|]. split; [|done].
  unfold status_at. case_bool_decide as Hcool.
  - rewrite (Hc Hcool). cbn. by rewrite lookup_insert_eq.
  - rewrite (Hnc Hcool). cbn in Eb. by rewrite Eb.
Qed.

(** C10: [recordError] with the rate-limit flag puts an existing account in
    cooldown whatever its status was, disabled and invalid included; once
    the 5 minutes have passed the timer it scheduled can fire and, nothing
    else having touched the account, makes it active, so that
    [selectAccount] considers it again: under the round-robin and
    least-used strategies a selection then succeeds, and it returns this
    very account when it is the only one in the pool. *)
Theorem rate_limit_revives (rnd : nat → nat) (p : pool) (i : string)
    (l : loc) (a : account) :
  accounts_get i p = Some l → store p !! l = Some a →
  status_at l (recordError i true p) = Some cooldown ∧
  ∃ p2,
    fire (length (timers p)) (elapse cooldown_ms (recordError i true p))
      = Some p2 ∧
    status_at l p2 = Some active ∧
    l ∈ (available p2).*1 ∧
    (strategy p ≠ "random" →
     ∃ sel p3, selectAccount rnd p2 = Ok (Some sel, p3)) ∧
    (accounts p = [(i, l)] → strategy p ≠ "random" →
     ∃ p3, selectAccount rnd p2 = Ok (Some (id a, name a), p3)).
Proof.
  intros Hi Hl.
  destruct (recordError_rate_limit p i l a Hi Hl)
    as ((a1 & Ha1 & Hs & Hid & Hname) & Ht & Hnow & Hacc & Hstr).
  split. { unfold status_at. rewrite Ha1. cbn. by f_equal. }
  set (p1 := recordError i true p) in *.
  set (t := {| due := (now p + cooldown_ms)%N; target := l |}) in *.
  assert (timers (elapse cooldown_ms p1) !! length (timers p) = Some t)
    as Hpending.
  { cbn. rewrite Ht. by rewrite lookup_app_r, Nat.sub_diag. }
  destruct (fire_due (elapse cooldown_ms p1) _ t a1 Hpending Ha1) as [_ Hfire].
  destruct Hfire as (p2 & Hp2 & _ & Hacc2 & Hstr2 & Hactive & _).
  { cbn. rewrite Hnow. done. }
  specialize (Hactive Hs). cbn in Hactive, Hacc2, Hstr2.
  exists p2. split; [done|].
  assert (store p2 !! l = Some (with_status active a1)) as Ea2.
  { rewrite Hactive. by rewrite lookup_insert_eq. }
  split. { unfold status_at. by rewrite Ea2. }
  assert ((l, with_status active a1) ∈ available p2) as Hav.
  { apply available_elem. split; [|done]. apply values_elem.
    split; [|done]. exists i. rewrite Hacc2, Hacc. by apply accounts_get_elem. }
  split; [|split].
  - apply list_elem_of_fmap. by eexists (l, _).
  - intros Hnr. unfold selectAccount.
    destruct (available p2) as [|first rest] eqn:E;
      [by apply elem_of_nil in Hav|].
    rewrite Hstr2, Hstr. rewrite bool_decide_false by done.
    case_bool_decide.
    + destruct (least_used first rest). eauto.
    + destruct (lookup_lt_is_Some_2 (first :: rest)
                  (roundRobinIndex p2 `mod` length (first :: rest)))
        as [[l' a'] ->]; [|eauto].
      apply Nat.mod_upper_bound. done.
  - intros Hone Hnr. unfold selectAccount.
    assert (available p2 = [(l, with_status active a1)]) as ->.
    { unfold available, values. rewrite Hacc2, Hacc, Hone. cbn.
      rewrite Ea2. done. }
    rewrite Hstr2, Hstr. rewrite bool_decide_false by done.
    rewrite <- Hid, <- Hname.
    case_bool_decide; cbn; eauto.
Qed.

End Pool.

(** [selectAccount_only_active] on the example pool: the active account is
    returned, an invalid one is not. *)
Lemma selectAccount_only_active_witness :
  (∃ sel p',
     AccountPool.selectAccount (λ _, 0%nat)
       (PoolExamples.example_pool AccountPool.active) = JS.Ok (Some sel, p') ∧
     ∃ l a,
       (l, a) ∈ AccountPool.values
                  (PoolExamples.example_pool AccountPool.active) ∧
       AccountPool.status a = AccountPool.active ∧
       sel = (AccountPool.id a, AccountPool.name a) ∧
       AccountPool.status_at l p' = Some AccountPool.active) ∧
  AccountPool.selectAccount (λ _, 0%nat)
    (PoolExamples.example_pool AccountPool.invalid)
  = JS.Ok (None, PoolExamples.example_pool AccountPool.invalid).
Proof.
  split.
  - eexists _, _. split; [vm_compute; reflexivity|].
    apply (proj1 (selectAccount_only_active (λ _, 0%nat)
                    (PoolExamples.example_pool AccountPool.active))).
    vm_compute. reflexivity.
  - apply (proj2 (selectAccount_only_active (λ _, 0%nat)
                    (PoolExamples.example_pool AccountPool.invalid))).
    vm_compute. repeat constructor. discriminate.
Defined.

(** [cooldown_timer] on the example pool: the account is rate-limited, then
    disabled by the administrator; when the timer fires after 5 minutes the
    account stays disabled. *)
Lemma cooldown_timer_witness :
  let p := PoolExamples.example_pool AccountPool.active in
  let q := AccountPool.elapse AccountPool.cooldown_ms
             (AccountPool.disableAccount "acc-1"
                (AccountPool.recordError "acc-1" true p)) in
  AccountPool.status_at 0%nat (AccountPool.recordError "acc-1" true p)
    = Some AccountPool.cooldown ∧
  ∃ q', AccountPool.fire 0 q = Some q' ∧
        AccountPool.status_at 0%nat q' = Some AccountPool.disabled.
Proof.
  intros p q.
  destruct (cooldown_timer p "acc-1" 0%nat
              (PoolExamples.example_account AccountPool.active))
    as (Hcool & _ & _ & Hfire); [reflexivity | reflexivity |].
  split; [exact Hcool|].
  destruct (Hfire q 0%nat AccountPool.disabled) as [_ Hdue];
    [reflexivity | reflexivity |].
  destruct Hdue as (q' & Hq' & Hs & _); [vm_compute; discriminate|].
  exists q'. split; [exact Hq' | exact Hs].
Defined.

(** [rate_limit_revives] on the example pool: a disabled account that is
    reported rate-limited is selected again 5 minutes later. *)
Lemma rate_limit_revives_witness :
  let p := PoolExamples.example_pool AccountPool.disabled in
  AccountPool.status_at 0%nat p = Some AccountPool.disabled ∧
  ∃ p2 p3,
    AccountPool.fire 0
      (AccountPool.elapse AccountPool.cooldown_ms
         (AccountPool.recordError "acc-1" true p)) = Some p2 ∧
    AccountPool.selectAccount (λ _, 0%nat) p2
      = JS.Ok (Some ("acc-1", "first"), p3).
Proof.
  intros p. split; [reflexivity|].
  destruct (rate_limit_revives (λ _, 0%nat) p "acc-1" 0%nat
              (PoolExamples.example_account AccountPool.disabled))
    as (_ & p2 & Hfire & _ & _ & _ & Hone); [reflexivity | reflexivity |].
  destruct Hone as [p3 Hsel]; [reflexivity | discriminate |].
  exists p2, p3. split; [exact Hfire | exact Hsel].
Defined.

(** ** What the sanitizer returns *)

Section Sanitizer.
Import JS KiroClient ToolNames.

Lemma append_cons c (p s : string) : String c p +:+ s = String c (p +:+ s).
Proof. reflexivity. Qed.

Lemma all_word_replaced raw :
  all_word (map_chars (λ c, if is_word c then c else "_"%char) raw) = true.
Proof.
  induction raw as [|c raw IH]; [done|]. cbn [map_chars all_word].
  rewrite IH, andb_true_r. by destruct (is_word c) eqn:E.
Qed.

Lemma collapse_head s :
  starts_with_underscore (collapse_underscores s) = starts_with_underscore s.
Proof.
  induction s as [|c s IH]; [done|]. cbn [collapse_underscores].
  destruct s as [|c' s]; [done|].
  destruct (is_underscore c) eqn:Ec; cbn [andb]; [|by cbn; rewrite Ec].
  destruct (is_underscore c') eqn:Ec'; [|by cbn; rewrite Ec].
  rewrite IH. cbn. by rewrite Ec, Ec'.
Qed.

Lemma collapse_word s :
  all_word s = true → all_word (collapse_underscores s) = true.
Proof.
  induction s as [|c s IH]; [done|]. cbn [collapse_underscores all_word].
  intros [Hc Hs]%andb_true_iff. destruct s as [|c' s]; [by cbn; rewrite Hc|].
  destruct (_ && _); [by apply IH|].
  change (is_word c && all_word (collapse_underscores (String c' s)) = true).
  by rewrite Hc, IH.
Qed.

Lemma collapse_no_adjacent s :
  adjacent_underscores (collapse_underscores s) = false.
Proof.
  induction s as [|c s IH]; [done|]. cbn [collapse_underscores].
  destruct s as [|c' s]; [cbn; by destruct (is_underscore c)|].
  destruct (is_underscore c && is_underscore c') eqn:E; [done|].
  change (is_underscore c
          && starts_with_underscore (collapse_underscores (String c' s))
          || adjacent_underscores (collapse_underscores (String c' s)) = false).
  rewrite IH, collapse_head, orb_false_r. exact E.
Qed.

Lemma trim_leading_suffix s : ∃ p, s = p +:+ trim_leading s.
Proof.
  induction s as [|c s [p IH]]; [by exists ""|]. cbn [trim_leading].
  destruct (is_underscore c); [|by exists ""].
  exists (String c p).
  change (String c s = String c (p +:+ trim_leading s)). by rewrite <- IH.
Qed.

Lemma all_word_app p s : all_word (p +:+ s) = all_word p && all_word s.
Proof.
  induction p as [|c p IH]; [done|]. rewrite append_cons. cbn [all_word].
  by rewrite IH, andb_assoc.
Qed.

Lemma adjacent_app_r p s :
  adjacent_underscores (p +:+ s) = false → adjacent_underscores s = false.
Proof.
  induction p as [|c p IH]; [done|]. rewrite append_cons.
  cbn [adjacent_underscores].
  intros [_ H]%orb_false_iff. by apply IH.
Qed.

Lemma trim_leading_head s : starts_with_underscore (trim_leading s) = false.
Proof.
  induction s as [|c s IH]; [done|]. cbn [trim_leading].
  by destruct (is_underscore c) eqn:E; [|cbn].
Qed.

Lemma trim_trailing_word s :
  all_word s = true → all_word (trim_trailing s) = true.
Proof.
  induction s as [|c s IH]; [done|]. cbn [trim_trailing all_word].
  intros [Hc Hs]%andb_true_iff. destruct (_ && _); [done|].
  cbn. by rewrite Hc, IH.
Qed.

Lemma trim_trailing_head s :
  starts_with_underscore s = false →
  starts_with_underscore (trim_trailing s) = false.
Proof.
  destruct s as [|c s]; [done|]. cbn. intros E. rewrite E. cbn. exact E.
Qed.

Lemma trim_trailing_head_inner s :
  starts_with_underscore (trim_trailing s) = true →
  starts_with_underscore s = true.
Proof.
  destruct s as [|c s]; [done|]. cbn [trim_trailing].
  destruct (is_underscore c && _) eqn:E; [done|]. done.
Qed.

Lemma trim_trailing_no_adjacent s :
  adjacent_underscores s = false →
  adjacent_underscores (trim_trailing s) = false.
Proof.
  induction s as [|c s IH]; [done|]. cbn [trim_trailing adjacent_underscores].
  intros [Hc Hs]%orb_false_iff. destruct (is_underscore c && bool_decide _);
    [done|].
  cbn [adjacent_underscores]. rewrite IH by done. rewrite orb_false_r.
  destruct (is_underscore c); [|done]. cbn in *.
  destruct (starts_with_underscore (trim_trailing s)) eqn:E; [|done].
  apply trim_trailing_head_inner in E. congruence.
Qed.

Lemma trim_trailing_end s : ends_with_underscore (trim_trailing s) = false.
Proof.
  induction s as [|c s IH]; [done|]. cbn [trim_trailing].
  destruct (is_underscore c) eqn:Ec; cbn [andb].
  - case_bool_decide as Hr; [done|].
    cbn [ends_with_underscore]. by destruct (trim_trailing s).
  - cbn [ends_with_underscore].
    destruct (trim_trailing s); [by rewrite Ec|done].
Qed.

Lemma digit_not_underscore s :
  starts_with_digit s = true → starts_with_underscore s = false.
Proof.
  destruct s as [|c s]; [done|]. cbn. unfold is_digit, is_underscore.
  intros H. case_bool_decide as E; [|done]. subst c. done.
Qed.

Lemma clean_prefixed safe :
  starts_with_digit safe = true → all_word safe = true →
  ends_with_underscore safe = false → adjacent_underscores safe = false →
  clean ("t_" +:+ safe) = true.
Proof.
  destruct safe as [|c safe']; [done|]. intros Hd Hw He Ha.
  change ("t_" +:+ String c safe')
    with (String "t" (String "_" (String c safe'))).
  apply digit_not_underscore in Hd as Hu.
  unfold clean, kiro_name. cbn in *.
  rewrite Hw, He, Ha, Hu. by rewrite bool_decide_false.
Qed.

Lemma sanitizeToolName_clean name s :
  sanitizeToolName name = Ok s → clean s = true.
Proof.
  unfold sanitizeToolName. intros H. apply bind_Ok in H as (raw & _ & H).
  injection H as <-.
  set (replaced := collapse_underscores _).
  assert (all_word replaced = true) as Hw
    by apply collapse_word, all_word_replaced.
  assert (adjacent_underscores replaced = false) as Ha
    by apply collapse_no_adjacent.
  destruct (trim_leading_suffix replaced) as [p Hp].
  set (lead := trim_leading replaced) in *.
  assert (all_word lead = true) as Hwl.
  { rewrite Hp, all_word_app in Hw. by apply andb_true_iff in Hw as [_ ?]. }
  assert (adjacent_underscores lead = false) as Hal.
  { rewrite Hp in Ha. by eapply adjacent_app_r. }
  pose proof (trim_leading_head replaced) as Hhl. fold lead in Hhl.
  set (trimmed := trim_trailing lead).
  assert (all_word trimmed = true) as Hwt by by apply trim_trailing_word.
  assert (adjacent_underscores trimmed = false) as Hat
    by by apply trim_trailing_no_adjacent.
  assert (starts_with_underscore trimmed = false) as Hht
    by by apply trim_trailing_head.
  assert (ends_with_underscore trimmed = false) as Het
    by apply trim_trailing_end.
  case_bool_decide as Ht; [done|].
  destruct (starts_with_digit trimmed) eqn:Hd; [by apply clean_prefixed|].
  unfold clean, kiro_name.
  by rewrite bool_decide_false, Hwt, Hd, Hht, Het, Hat.
Qed.

Lemma clean_kiro_name s : clean s = true → kiro_name s = true.
Proof.
  unfold clean.
  by intros [[[? _]%andb_true_iff _]%andb_true_iff _]%andb_true_iff.
Qed.

Lemma map_chars_word s :
  all_word s = true →
  map_chars (λ c, if is_word c then c else "_"%char) s = s.
Proof.
  induction s as [|c s IH]; [done|]. cbn.
  intros [-> Hs]%andb_true_iff. by rewrite IH.
Qed.

Lemma collapse_id s :
  adjacent_underscores s = false → collapse_underscores s = s.
Proof.
  induction s as [|c s IH]; [done|]. cbn [adjacent_underscores].
  intros [Hc Hs]%orb_false_iff. cbn [collapse_underscores].
  destruct s as [|c' s]; [done|]. cbn in Hc. rewrite Hc. by rewrite IH.
Qed.

Lemma trim_leading_id s :
  starts_with_underscore s = false → trim_leading s = s.
Proof. destruct s as [|c s]; [done|]. cbn. by intros ->. Qed.

Lemma trim_trailing_id s :
  ends_with_underscore s = false → trim_trailing s = s.
Proof.
  induction s as [|c s IH]; [done|]. cbn [ends_with_underscore trim_trailing].
  destruct s as [|c' s].
  - intros ->. done.
  - intros Hs. rewrite IH by done. rewrite bool_decide_false by done.
    by rewrite andb_false_r.
Qed.

Lemma sanitizeToolName_keeps_clean s :
  clean s = true → sanitizeToolName (VStr s) = Ok s.
Proof.
  unfold clean, kiro_name.
  intros [[[[[Hn Hw]%andb_true_iff Hd]%andb_true_iff Hh]%andb_true_iff
             He]%andb_true_iff Ha]%andb_true_iff.
  apply negb_true_iff in Hn, Hd, Hh, He, Ha.
  unfold sanitizeToolName. cbn [toString mbind result_bind].
  rewrite map_chars_word, collapse_id, trim_leading_id, trim_trailing_id
    by done.
  by rewrite Hn, Hd.
Qed.

(** X1: whatever [sanitizeToolName] returns is an identifier, that is a
    non-empty string of letters, digits and underscores that does not
    start with a digit; moreover it neither starts nor ends with an
    underscore and has no two underscores in a row. *)
Theorem sanitizeToolName_valid (name : value) (s : string) :
  sanitizeToolName name = Ok s →
  kiro_name s = true ∧ starts_with_underscore s = false ∧
  ends_with_underscore s = false ∧ adjacent_underscores s = false.
Proof.
  intros Hs. apply sanitizeToolName_clean in Hs.
  pose proof (clean_kiro_name _ Hs) as Hk. unfold clean in Hs.
  rewrite Hk in Hs. cbn [andb] in Hs.
  apply andb_true_iff in Hs as [[Hh He]%andb_true_iff Ha].
  apply negb_true_iff in Hh, He, Ha. done.
Qed.

(** X2: [sanitizeToolName] leaves a clean name as it is (an identifier
    without an underscore at either end and without two underscores in a
    row); so sanitizing the name it returned returns that name again. *)
Theorem sanitizeToolName_idempotent (s : string) :
  (clean s = true → sanitizeToolName (VStr s) = Ok s) ∧
  (∀ name, sanitizeToolName name = Ok s → sanitizeToolName (VStr s) = Ok s).
Proof.
  split; [apply sanitizeToolName_keeps_clean|].
  intros name Hs. by eapply sanitizeToolName_keeps_clean, sanitizeToolName_clean.
Qed.

End Sanitizer.

(** [sanitizeToolName_valid] on the tool name of scenario 4. *)
Lemma sanitizeToolName_valid_witness :
  KiroClient.sanitizeToolName (JS.VStr "web.search!") = JS.Ok "web_search" ∧
  ToolNames.kiro_name "web_search" = true ∧
  ToolNames.adjacent_underscores "web_search" = false.
Proof.
  split; [reflexivity|].
  destruct (sanitizeToolName_valid (JS.VStr "web.search!") "web_search")
    as (Hk & _ & _ & Ha); [reflexivity|].
  split; [exact Hk | exact Ha].
Defined.

(** [sanitizeToolName_idempotent] on a clean name and on the name returned
    for ["9 lives"]. *)
Lemma sanitizeToolName_idempotent_witness :
  KiroClient.sanitizeToolName (JS.VStr "a_2") = JS.Ok "a_2" ∧
  KiroClient.sanitizeToolName (JS.VStr "9 lives") = JS.Ok "t_9_lives" ∧
  KiroClient.sanitizeToolName (JS.VStr "t_9_lives") = JS.Ok "t_9_lives".
Proof.
  split; [|split; [reflexivity|]].
  - apply (proj1 (sanitizeToolName_idempotent "a_2")). reflexivity.
  - apply (proj2 (sanitizeToolName_idempotent "t_9_lives")
             (JS.VStr "9 lives")).
    reflexivity.
Defined.

(** ** The name table *)

Section Table.
Import JS KiroClient Envelope ToolNames.
Context `{!Host}.

Lemma pretty_N_char_word n : is_word (pretty_N_char n) = true.
Proof. unfold pretty_N_char. by repeat case_match. Qed.

Lemma pretty_N_go_word x : ∀ s,
  all_word s = true → all_word (pretty_N_go x s) = true.
Proof.
  induction (N.lt_wf_0 x) as [x _ IH]. intros s Hs.
  destruct (decide (x = 0)%N) as [->|Hx]; [by rewrite pretty_N_go_0|].
  rewrite pretty_N_go_step by lia. apply IH; [apply N.div_lt; lia|].
  cbn. by rewrite pretty_N_char_word.
Qed.

Lemma pretty_nat_word (i : nat) : all_word (pretty i) = true.
Proof.
  unfold pretty, pretty_nat, pretty, pretty_N.
  destruct (decide _); [done|]. by apply pretty_N_go_word.
Qed.

Lemma starts_with_digit_app (s t : string) :
  s ≠ "" → starts_with_digit (s +:+ t) = starts_with_digit s.
Proof. by destruct s. Qed.

Lemma kiro_name_suffixed base i :
  kiro_name base = true → kiro_name (suffixed base i) = true.
Proof.
  unfold kiro_name, suffixed.
  intros [[Hn Hw]%andb_true_iff Hd]%andb_true_iff.
  apply negb_true_iff, bool_decide_eq_false in Hn.
  rewrite starts_with_digit_app, Hd by done.
  rewrite !all_word_app, Hw, pretty_nat_word.
  rewrite bool_decide_false; [done|]. by destruct base.
Qed.

Lemma no_names_ok : table_ok no_names.
Proof. split; intros *; cbn; by rewrite lookup_empty. Qed.

Lemma assigned_weaken m m' n : m ⊆ m' → assigned m n → assigned m' n.
Proof.
  intros Hm (o & k & -> & Hk). exists o, k. split; [done|].
  by eapply lookup_weaken.
Qed.

(** The loop tries the suffixes in order. *)
Lemma free_name_skips base rounds : ∀ (U : gset string) c i,
  free_name rounds base U c i = c ∨
  (c ∈ U ∧
   ∃ j, (i ≤ j)%nat ∧ free_name rounds base U c i = suffixed base j ∧
        ∀ j', (i ≤ j' < j)%nat → suffixed base j' ∈ U).
Proof.
  induction rounds as [|r IH]; intros U c i; cbn [free_name]; [by left|].
  case_bool_decide as Hc; [|by left]. right. split; [done|].
  destruct (IH U (suffixed base i) (S i)) as [E|(Hi & j & Hj & E & Hused)].
  - exists i. split; [done|]. split; [done|]. intros j' ?. lia.
  - exists j. split; [lia|]. split; [done|]. intros j' Hj'.
    destruct (decide (j' = i)) as [->|]; [done|]. apply Hused. lia.
Qed.

Lemma getOrCreate_table o ns :
  table_ok ns →
  ∃ k ns',
    getOrCreateKiroToolName o ns = Ok (k, ns') ∧
    table_ok ns' ∧
    toolNameMap ns' !! o = Some k ∧
    toolNameMap ns ⊆ toolNameMap ns' ∧
    (toolNameMap ns !! o = None → k ∉ usedNames ns) ∧
    getOrCreateKiroToolName o ns' = Ok (k, ns').
Proof.
  intros [Hused Hinj]. unfold getOrCreateKiroToolName at 1.
  destruct (toolNameMap ns !! o) as [k|] eqn:Ho.
  { exists k, ns. split; [done|]. split; [done|]. split; [done|].
    split; [done|]. split; [congruence|].
    unfold getOrCreateKiroToolName. by rewrite Ho. }
  destruct (sanitizeToolName (VStr o)) as [base|e] eqn:Hbase; [|done].
  cbn [mbind result_bind].
  set (k := free_name _ _ _ _ _).
  assert (k ∉ usedNames ns) as Hfresh by apply free_name_fresh.
  assert (kiro_name k = true) as Hk.
  { apply sanitizeToolName_clean, clean_kiro_name in Hbase.
    destruct (free_name_range base (S (size (usedNames ns))) (usedNames ns)
                base 2) as [E|(j & _ & E)]; fold k in E; rewrite E; [done|].
    by apply kiro_name_suffixed. }
  eexists k, _. split; [done|]. unfold table_ok.
  cbn [toolNameMap usedNames]. split; [split|].
  - intros o' k' Hk'. apply lookup_insert_Some in Hk' as [[<- <-]|[Hne Hk']].
    + split; [set_solver | done].
    + destruct (Hused o' k' Hk'). split; [set_solver | done].
  - intros o1 o2 k' H1 H2.
    apply lookup_insert_Some in H1 as [[<- <-]|[Hne1 H1]];
      apply lookup_insert_Some in H2 as [[<- E]|[Hne2 H2]]; try done.
    + destruct (Hused _ _ H2). done.
    + subst k'. destruct (Hused _ _ H1). done.
    + by eapply Hinj.
  - split; [by rewrite lookup_insert_eq|].
    split; [by apply insert_subseteq|]. split; [done|].
    unfold getOrCreateKiroToolName. cbn. by rewrite lookup_insert_eq.
Qed.

Lemma getOrCreate_inv o ns k ns' :
  table_ok ns → getOrCreateKiroToolName o ns = Ok (k, ns') →
  table_ok ns' ∧ toolNameMap ns' !! o = Some k ∧
  toolNameMap ns ⊆ toolNameMap ns'.
Proof.
  intros Hok Hg.
  destruct (getOrCreate_table o ns Hok) as (k0 & ns0 & E & ? & ? & ? & _).
  rewrite Hg in E. by injection E as <- <-.
Qed.

(** X3: on a name table in which every assigned name is recorded as used
    and is an identifier, and in which no two original names share an
    assigned name, [getOrCreateKiroToolName] returns, leaves such a table,
    in which the original name has the returned name, keeps the entries
    there were, and returns the same name without changing the table when
    it is asked again.  For an original name that had no entry, the
    returned name was not in use: it is the sanitized name, or, that one
    being in use, the sanitized name followed by [_j] for the least
    [j] from 2 on whose name is free. *)
Theorem getOrCreateKiroToolName_table (o : string) (ns : names) :
  table_ok ns →
  ∃ k ns',
    getOrCreateKiroToolName o ns = Ok (k, ns') ∧
    table_ok ns' ∧
    toolNameMap ns' !! o = Some k ∧
    toolNameMap ns ⊆ toolNameMap ns' ∧
    getOrCreateKiroToolName o ns' = Ok (k, ns') ∧
    (toolNameMap ns !! o = None →
     (k ∉ usedNames ns) ∧
     ∃ base,
       sanitizeToolName (VStr o) = Ok base ∧
       (k = base ∨
        (base ∈ usedNames ns ∧
         ∃ j, (2 ≤ j)%nat ∧ k = suffixed base j ∧
              ∀ j', (2 ≤ j' < j)%nat → suffixed base j' ∈ usedNames ns))).
Proof.
  intros Hok.
  destruct (getOrCreate_table o ns Hok)
    as (k & ns' & Hg & Hok' & Hk & Hsub & Hfresh & Hagain).
  exists k, ns'. repeat (split; [done|]). intros Hnew.
  split; [by apply Hfresh|].
  unfold getOrCreateKiroToolName in Hg. rewrite Hnew in Hg.
  apply bind_Ok in Hg as (base & Hbase & Hg). injection Hg as <- _.
  exists base. split; [done|].
  destruct (free_name_skips base (S (size (usedNames ns))) (usedNames ns)
              base 2) as [E|(Hb & j & Hj & E & Hused)]; [by left|].
  right. split; [done|]. by exists j.
Qed.

Lemma assistant_blocks_table blocks : ∀ th tp tu ns th' tp' tu' ns',
  assistant_blocks blocks th tp tu ns = Ok (th', tp', tu', ns') →
  table_ok ns → Forall (named_by (toolNameMap ns)) tu →
  table_ok ns' ∧ toolNameMap ns ⊆ toolNameMap ns' ∧
  Forall (named_by (toolNameMap ns')) tu'.
Proof.
  induction blocks as [|block rest IH];
    intros th tp tu ns th' tp' tu' ns' Hb Hok Htu.
  - by injection Hb as <- <- <- <-.
  - cbn [assistant_blocks] in Hb. bind_ok Hb as ty Ety.
    destruct (is_str ty "thinking").
    { bind_ok Hb as t Et. bind_ok Hb as s Es. by eapply IH. }
    destruct (is_str ty "text").
    { bind_ok Hb as t Et. by eapply IH. }
    destruct (is_str ty "tool_use"); [|by eapply IH].
    bind_ok Hb as name Ename. bind_ok Hb as unsupported Eunsupported.
    destruct unsupported; [by eapply IH|].
    bind_ok Hb as id Eid. bind_ok Hb as [kiroName ns1] Ekiro.
    bind_ok Hb as input Einput.
    destruct name as [| | | |s| |]; try done.
    apply getOrCreate_inv in Ekiro as (Hok1 & Hs & Hsub); [|done].
    eapply IH in Hb as (Hok' & Hsub' & Htu'); [|done|].
    + split; [done|]. split; [by etrans|done].
    + apply Forall_app. split.
      * eapply Forall_impl; [done|]. intros u. by apply assigned_weaken.
      * apply Forall_singleton. by exists s, kiroName.
Qed.

Lemma extractAssistantContent_table content ns text toolUses ns' :
  extractAssistantContent content ns = Ok (text, toolUses, ns') →
  table_ok ns →
  table_ok ns' ∧ toolNameMap ns ⊆ toolNameMap ns' ∧
  Forall (named_by (toolNameMap ns')) toolUses.
Proof.
  unfold extractAssistantContent. intros Hc Hok.
  destruct content; try (by injection Hc as <- <- <-);
    (bind_ok Hc as blocks Eblocks; bind_ok Hc as [[[th tp] tu] ns1] Eb;
     bind_ok Hc as joined Ej; injection Hc as _ <- <-;
     by eapply assistant_blocks_table).
Qed.

Lemma toolUses_of_assistant text toolUses :
  toolUses_of
    (assistant_turn
       (VObj ([("content", VStr text)]
              ++ if is_nil toolUses then []
                 else [("toolUses", VArr toolUses)]))) = toolUses.
Proof. by destruct toolUses. Qed.

Lemma turns_named_weaken m m' h :
  m ⊆ m' → turns_named m h → turns_named m' h.
Proof.
  intros Hm Hh. eapply Forall_impl; [exact Hh|]. intros t Ht.
  eapply Forall_impl; [exact Ht|]. intros u. by apply assigned_weaken.
Qed.

Lemma walk_table modelId msgs : ∀ buf h ns buf' h' ns',
  walk modelId msgs buf h ns = Ok (buf', h', ns') →
  table_ok ns → turns_named (toolNameMap ns) h →
  table_ok ns' ∧ toolNameMap ns ⊆ toolNameMap ns' ∧
  turns_named (toolNameMap ns') h'.
Proof.
  induction msgs as [|msg rest IH]; intros buf h ns buf' h' ns' Hw Hok Hh.
  - by injection Hw as <- <- <-.
  - cbn [walk] in Hw. bind_ok Hw as role Erole.
    destruct (is_str role "user"); [by eapply IH|].
    destruct (is_str role "assistant"); [|by eapply IH].
    bind_ok Hw as flushed Eflushed. bind_ok Hw as content Econtent.
    bind_ok Hw as [[text toolUses] ns1] Eextract.
    apply extractAssistantContent_table in Eextract as (Hok1 & Hsub & Hu);
      [|done].
    eapply IH in Hw as (Hok' & Hsub' & Hh'); [|done|].
    + split; [done|]. split; [by etrans|done].
    + apply Forall_app. split.
      * apply (turns_named_weaken _ _ _ Hsub).
        destruct (is_nil buf); [by injection Eflushed as <-|].
        bind_ok Eflushed as mergedUser Emerged. injection Eflushed as <-.
        apply Forall_app. split; [done|]. apply Forall_singleton. constructor.
      * apply Forall_singleton. by rewrite toolUses_of_assistant.
Qed.

Lemma system_turns_named m system thinkingPrefix modelId h0 :
  system_turns system thinkingPrefix modelId = Ok h0 → turns_named m h0.
Proof.
  unfold system_turns, instruction_pair. intros Hs.
  destruct (truthy system).
  - bind_ok Hs as systemContent E.
    destruct (bool_decide _); injection Hs as <-; repeat constructor.
  - destruct thinkingPrefix; injection Hs as <-; repeat constructor.
Qed.

Lemma normalizeJsonObject_object v : ∃ o, normalizeJsonObject v = VObj o.
Proof.
  destruct v; cbn; eauto. destruct (JSON_parse s) as [[]|]; eauto.
Qed.

Lemma substring_empty n : substring 0 n "" = "".
Proof. by destruct n. Qed.

Lemma description_of_cut d description :
  description_of d = Ok description → cut_to_10000 d description.
Proof.
  unfold description_of, or_else. intros Hd.
  destruct (truthy d) eqn:Ht.
  - destruct d; try done; by injection Hd as <-.
  - rewrite substring_empty in Hd. injection Hd as <-.
    destruct d as [| |b|n|s|l|o]; try done.
    destruct s; [|done]. unfold cut_to_10000. by rewrite substring_empty.
Qed.

Lemma supported_tools_filter tools : ∀ kept,
  supported_tools tools = Ok kept →
  Forall (λ t, ∃ s, named t s) tools ∧
  kept = filter (λ t, web_search_tool t = false) tools.
Proof.
  induction tools as [|t rest IH]; intros kept Hk.
  - injection Hk as <-. split; [constructor | done].
  - cbn [supported_tools] in Hk. bind_ok Hk as name Ename.
    bind_ok Hk as unsupported Eu. bind_ok Hk as kept' Ekept.
    injection Hk as <-. destruct (IH _ Ekept) as [Hnames ->].
    destruct name as [| | | |s| |]; try done. injection Eu as Eu.
    assert (web_search_tool t = unsupported) as Hw
      by (unfold web_search_tool; by rewrite Ename).
    split; [constructor; [by exists s | done]|].
    rewrite filter_cons, Hw.
    destruct unsupported; [by rewrite decide_False | by rewrite decide_True].
Qed.

Lemma tool_specs_table tools : ∀ ns specs ns',
  tool_specs tools ns = Ok (specs, ns') → table_ok ns →
  table_ok ns' ∧ toolNameMap ns ⊆ toolNameMap ns' ∧
  Forall2 (specified (toolNameMap ns')) tools specs.
Proof.
  induction tools as [|t rest IH]; intros ns specs ns' Ht Hok.
  - injection Ht as <- <-. split; [done|]. split; [done|]. constructor.
  - cbn [tool_specs] in Ht. bind_ok Ht as name Ename.
    bind_ok Ht as [kiroName ns1] Ekiro. bind_ok Ht as d Ed.
    bind_ok Ht as description Edesc. bind_ok Ht as schema Eschema.
    bind_ok Ht as [specs' ns2] Erest. injection Ht as <- <-.
    destruct name as [| | | |s| |]; try done.
    apply getOrCreate_inv in Ekiro as (Hok1 & Hs & Hsub); [|done].
    apply IH in Erest as (Hok2 & Hsub2 & Hspecs); [|done].
    split; [done|]. split; [by etrans|]. constructor; [|done].
    exists s, kiroName, d, description, schema.
    split; [done|]. split; [by eapply lookup_weaken|]. split; [done|].
    split; [by apply description_of_cut | done].
Qed.

End Table.

(** [getOrCreateKiroToolName_table] on the second tool of scenario 6: the
    table has ["a!"] under ["a"], and ["a?"] gets ["a_2"]. *)
Lemma getOrCreateKiroToolName_table_witness :
  let ns := {| KiroClient.toolNameMap := {["a!" := "a"]};
               KiroClient.usedNames := {["a"]} |} in
  ToolNames.table_ok ns ∧
  ∃ ns', KiroClient.getOrCreateKiroToolName "a?" ns = JS.Ok ("a_2", ns') ∧
         ToolNames.table_ok ns'.
Proof.
  intros ns.
  assert (ToolNames.table_ok ns) as Hok.
  { unfold ns.
    split; cbn [KiroClient.toolNameMap KiroClient.usedNames].
    - intros o k [<- <-]%lookup_singleton_Some. split; [|reflexivity].
      apply elem_of_singleton. reflexivity.
    - intros o o' k [<- _]%lookup_singleton_Some [<- _]%lookup_singleton_Some.
      reflexivity. }
  split; [exact Hok|].
  destruct (getOrCreateKiroToolName_table "a?" ns Hok)
    as (k & ns' & Hg & Hok' & _).
  exists ns'. split; [|exact Hok'].
  rewrite Hg. f_equal. f_equal.
  assert (match KiroClient.getOrCreateKiroToolName "a?" ns with
          | JS.Ok (k', _) => k'
          | JS.Throw _ => ""
          end = "a_2") as Hk by (vm_compute; reflexivity).
  rewrite Hg in Hk. exact Hk.
Defined.

(** ** The envelope of an accepted request *)

Section Accepted.
Import JS KiroClient Envelope ToolNames Turns.
Context `{!Host}.

(** What [convertRequest] has computed when it returns. *)
Lemma convertRequest_Ok (this : client) (ids : string * string)
    (req e : value) (m : gmap string string) :
  convertRequest this ids req = Ok (e, m) →
  ∃ model modelId messages trailing (endsWithAssistant : bool) thinkingPrefix
    system history0 userBuffer history1 ns hist currentText allToolResults
    toolsIn toolList kept tools ns' tool_choice chatTriggerType,
    get req "model" = Ok model ∧ mapModel this model = Ok modelId ∧
    truthy modelId = true ∧
    messages_of req = Ok messages ∧ messages ≠ [] ∧
    trailing_users (reverse messages) = Ok trailing ∧
    (if is_nil (drop (length messages - trailing) messages) then
       match last messages with
       | Some m => role ← get m "role"; Ok (is_str role "assistant")
       | None => Ok false
       end
     else Ok false) = Ok endsWithAssistant ∧
    thinking_prefix req = Ok thinkingPrefix ∧
    get req "system" = Ok system ∧
    system_turns system thinkingPrefix modelId = Ok history0 ∧
    walk modelId
      (take (if endsWithAssistant then length messages
             else length messages - trailing) messages)
      [] history0 no_names = Ok (userBuffer, history1, ns) ∧
    (if is_nil userBuffer then Ok history1
     else mergedUser ← mergeUserMessages userBuffer modelId;
          Ok (history1 ++ [user_turn mergedUser;
                           assistant_turn (VObj [("content", VStr "OK")])]))
      = Ok hist ∧
    (if endsWithAssistant then Ok ("continue", [])
     else '(textParts, results) ←
            user_parts (drop (length messages - trailing) messages) [] [];
          let joined := join nl textParts in
          Ok (if bool_decide (joined = "") then "continue" else joined,
              results)) = Ok (currentText, allToolResults) ∧
    get req "tools" = Ok toolsIn ∧
    or_else toolsIn (VArr []) = VArr toolList ∧
    supported_tools toolList = Ok kept ∧
    tool_specs kept ns = Ok (tools, ns') ∧
    get req "tool_choice" = Ok tool_choice ∧
    chatTriggerType_of toolList tool_choice = Ok chatTriggerType ∧
    m = toolNameMap ns' ∧
    e = kiroRequest_of this ids modelId chatTriggerType currentText hist tools
          allToolResults.
Proof.
  unfold convertRequest. intros Hc.
  bind_ok Hc as model Emodel. bind_ok Hc as modelId EmodelId.
  destruct (truthy modelId) eqn:Etruthy; cbn [negb] in Hc;
    [|by bind_ok Hc as label Elabel].
  bind_ok Hc as messages Emsgs.
  destruct (is_nil messages) eqn:Enil; [done|].
  bind_ok Hc as trailing Etrailing.
  bind_ok Hc as endsWithAssistant Eends.
  bind_ok Hc as thinkingPrefix Eprefix.
  bind_ok Hc as system Esystem.
  bind_ok Hc as history0 Ehistory0.
  bind_ok Hc as [[userBuffer history1] ns] Ewalk.
  bind_ok Hc as hist Ehist.
  bind_ok Hc as [currentText allToolResults] Ecurrent.
  bind_ok Hc as toolsIn EtoolsIn.
  bind_ok Hc as toolList EtoolList.
  bind_ok Hc as kept Ekept.
  bind_ok Hc as [tools ns'] Etools.
  bind_ok Hc as tool_choice Echoice.
  bind_ok Hc as chatTriggerType Etrigger.
  injection Hc as <- <-.
  exists model, modelId, messages, trailing, endsWithAssistant, thinkingPrefix,
    system, history0, userBuffer, history1, ns, hist, currentText,
    allToolResults, toolsIn, toolList, kept, tools, ns', tool_choice,
    chatTriggerType.
  repeat (split; [done|]).
  split; [by destruct messages|].
  repeat (split; [done|]).
  split; [|done].
  destruct (or_else toolsIn (VArr [])); try done. by injection EtoolList as ->.
Qed.

Lemma history_of_kiroRequest this ids modelId trigger text hist tools results :
  history (kiroRequest_of this ids modelId trigger text hist tools results)
  = hist.
Proof. reflexivity. Qed.

Lemma tools_of_kiroRequest this ids modelId trigger text hist tools results :
  envelope_tools
    (kiroRequest_of this ids modelId trigger text hist tools results) = tools.
Proof. by destruct tools, results. Qed.

Lemma current_of_kiroRequest this ids modelId trigger text hist tools results :
  content_of
    (currentMessage
       (kiroRequest_of this ids modelId trigger text hist tools results))
  = VStr text.
Proof. by destruct tools, results. Qed.

Lemma current_results_of_kiroRequest this ids modelId trigger text hist tools
    results :
  toolResults_of
    (currentMessage
       (kiroRequest_of this ids modelId trigger text hist tools results))
  = results.
Proof. by destruct tools, results. Qed.

Lemma convertRequest_table (this : client) (ids : string * string)
    (req e : value) (m : gmap string string) :
  convertRequest this ids req = Ok (e, m) →
  ∃ ns, m = toolNameMap ns ∧ table_ok ns ∧
        turns_named m (history e) ∧
        ∃ kept, Forall2 (specified m) kept (envelope_tools e).
Proof.
  intros (model & modelId & messages & trailing & endsWithAssistant &
          thinkingPrefix & system & history0 & userBuffer & history1 & ns &
          hist & currentText & allToolResults & toolsIn & toolList & kept &
          tools & ns' & tool_choice & chatTriggerType &
          _ & _ & _ & _ & _ & _ & _ & _ & _ & Ehistory0 & Ewalk & Ehist & _ &
          _ & _ & _ & Etools & _ & _ & -> & ->)%convertRequest_Ok.
  rewrite history_of_kiroRequest, tools_of_kiroRequest.
  apply (system_turns_named ∅) in Ehistory0.
  apply walk_table in Ewalk as (Hok & _ & Hh1); [|apply no_names_ok|done].
  apply tool_specs_table in Etools as (Hok' & Hsub & Hspecs); [|done].
  exists ns'. split; [done|]. split; [done|]. split; [|by exists kept].
  apply (turns_named_weaken _ _ _ Hsub).
  destruct (is_nil userBuffer); [by injection Ehist as <-|].
  bind_ok Ehist as mergedUser Emerged. injection Ehist as <-.
  apply Forall_app. split; [done|]. repeat constructor.
Qed.

Lemma elem_of_concat {A} (x : A) (ls : list (list A)) :
  x ∈ concat ls → ∃ l, x ∈ l ∧ l ∈ ls.
Proof.
  induction ls as [|l ls IH]; cbn; [by intros ?%elem_of_nil|].
  intros [Hx|Hx]%elem_of_app.
  - exists l. split; [done | by left].
  - destruct (IH Hx) as (l' & ? & ?). exists l'. split; [done | by right].
Qed.

(** X4: the tool-name map that [convertRequest] returns assigns distinct
    names to distinct original names, every name it assigns is an
    identifier, and every tool name in the envelope (those of the tool
    specifications of the current message and those of the tool uses of
    the history) is a name that the map assigns to some original name. *)
Theorem toolNameMap_names (this : client) (ids : string * string)
    (req e : value) (m : gmap string string) :
  convertRequest this ids req = Ok (e, m) →
  (∀ o o' k, m !! o = Some k → m !! o' = Some k → o = o') ∧
  (∀ o k, m !! o = Some k → kiro_name k = true) ∧
  (∀ n, n ∈ tool_names e ++ ((λ u, path u ["name"]) <$> history_toolUses e) →
        assigned m n).
Proof.
  intros Hc.
  destruct (convertRequest_table this ids req e m Hc)
    as (ns & -> & [Hused Hinj] & Hh & kept & Hspecs).
  split; [done|]. split; [intros o k Hk; by destruct (Hused o k Hk)|].
  intros n [Hn|Hn]%elem_of_app.
  - unfold tool_names in Hn. fold (envelope_tools e) in Hn.
    apply list_elem_of_fmap in Hn as (spec & -> & Hspec).
    apply list_elem_of_lookup in Hspec as [i Hi].
    destruct (Forall2_lookup_r _ _ _ _ _ Hspecs Hi)
      as (t & _ & s & k & d & description & schema & _ & Hk & _ & _ & _ & ->).
    by exists s, k.
  - apply list_elem_of_fmap in Hn as (u & -> & Hu).
    unfold history_toolUses in Hu.
    apply elem_of_concat in Hu as (us & Hu & Hus).
    apply list_elem_of_fmap in Hus as (t & -> & Ht).
    unfold turns_named in Hh. rewrite Forall_forall in Hh.
    specialize (Hh t Ht). rewrite Forall_forall in Hh. by apply Hh.
Qed.

Lemma length_substring n : ∀ s, (String.length (substring 0 n s) ≤ n)%nat.
Proof.
  induction n as [|n IH]; intros [|c s]; cbn; try lia.
  specialize (IH s). lia.
Qed.

(** X5: in the envelope of an accepted request the tool specifications of
    the current message are, in order, those of the tools of the request
    whose name, in lower case, is neither [web_search] nor [websearch],
    every tool of the request having a string for name.  Each
    specification has the name that the returned map assigns to the name
    of its tool, for description the first 10000 characters of the
    description of the tool (the empty string when there is none), and
    for [inputSchema.json] the normalized [input_schema], which is an
    object; a description that is a string has at most 10000
    characters. *)
Theorem tool_specifications (this : client) (ids : string * string)
    (req e : value) (m : gmap string string) :
  convertRequest this ids req = Ok (e, m) →
  ∃ toolsIn toolList,
    get req "tools" = Ok toolsIn ∧ or_else toolsIn (VArr []) = VArr toolList ∧
    Forall (λ t, ∃ s, named t s) toolList ∧
    Forall2 (specified m)
      (filter (λ t, web_search_tool t = false) toolList) (envelope_tools e) ∧
    Forall (λ spec,
              (∃ o, path spec ["toolSpecification"; "inputSchema"; "json"]
                    = VObj o) ∧
              ∀ d, path spec ["toolSpecification"; "description"] = VStr d →
                   (String.length d ≤ 10000)%nat)
      (envelope_tools e).
Proof.
  intros (model & modelId & messages & trailing & endsWithAssistant &
          thinkingPrefix & system & history0 & userBuffer & history1 & ns &
          hist & currentText & allToolResults & toolsIn & toolList & kept &
          tools & ns' & tool_choice & chatTriggerType &
          _ & _ & _ & _ & _ & _ & _ & _ & _ & Ehistory0 & Ewalk & _ & _ &
          EtoolsIn & EtoolList & Ekept & Etools & _ & _ & -> & ->
         )%convertRequest_Ok.
  rewrite tools_of_kiroRequest.
  apply walk_table in Ewalk as (Hok & _ & _);
    [|apply no_names_ok | by eapply (system_turns_named ∅)].
  apply tool_specs_table in Etools as (_ & _ & Hspecs); [|done].
  apply supported_tools_filter in Ekept as [Hnames ->].
  exists toolsIn, toolList. repeat (split; [done|]).
  apply Forall_forall. intros spec Hspec.
  apply list_elem_of_lookup in Hspec as [i Hi].
  destruct (Forall2_lookup_r _ _ _ _ _ Hspecs Hi)
    as (t & _ & s & k & d & description & schema & _ & _ & _ & Hd & _ & ->).
  split.
  - destruct (normalizeJsonObject_object (or_else schema (VObj [])))
      as [o Ho].
    exists o. rewrite <- Ho. reflexivity.
  - intros ds Hds. change (description = VStr ds) in Hds. subst description.
    unfold cut_to_10000 in Hd.
    destruct d as [| |b|n|s'|l|o];
      first [ injection Hd as ->; apply length_substring
            | done
            | destruct Hd as [_ Hd]; injection Hd as ->; apply Nat.le_0_l ].
Qed.

(** *** What the turns say *)

Lemma extractAssistantContent_spoken content ns text toolUses ns' :
  extractAssistantContent content ns = Ok (text, toolUses, ns') →
  toolUses ≠ [] → text ≠ "".
Proof.
  unfold extractAssistantContent. intros Hc Hu.
  destruct content; try (by injection Hc as _ <- _);
    (bind_ok Hc as blocks Eblocks; bind_ok Hc as [[[th tp] tu] ns1] Eb;
     bind_ok Hc as joined Ej; injection Hc as <- <- _;
     destruct tu; [done|]; cbn [is_nil negb]; rewrite andb_true_r;
     by case_bool_decide).
Qed.

Lemma sound_assistant text toolUses :
  (toolUses ≠ [] → text ≠ "") →
  sound_turn
    (assistant_turn
       (VObj ([("content", VStr text)]
              ++ if is_nil toolUses then []
                 else [("toolUses", VArr toolUses)]))).
Proof.
  intros Ht. split; [exists text; by destruct toolUses|].
  rewrite toolUses_of_assistant. intros [Hu|Hr].
  - exists text. split; [by destruct toolUses | by apply Ht].
  - by destruct toolUses.
Qed.

Lemma mergeUserMessages_sound messages modelId merged :
  mergeUserMessages messages modelId = Ok merged →
  sound_turn (user_turn merged).
Proof.
  unfold mergeUserMessages. intros Hm.
  bind_ok Hm as [contentParts allToolResults] Eparts. injection Hm as <-.
  split; [by eexists|]. intros [Hu|Hr]; [done|].
  destruct allToolResults as [|r rs]; [done|]. cbn [is_nil].
  eexists. split; [reflexivity|]. by case_bool_decide.
Qed.

Lemma walk_sound modelId msgs : ∀ buf h ns buf' h' ns',
  walk modelId msgs buf h ns = Ok (buf', h', ns') →
  Forall sound_turn h → Forall sound_turn h'.
Proof.
  induction msgs as [|msg rest IH]; intros buf h ns buf' h' ns' Hw Hh.
  - by injection Hw as <- <- <-.
  - cbn [walk] in Hw. bind_ok Hw as role Erole.
    destruct (is_str role "user"); [by eapply IH|].
    destruct (is_str role "assistant"); [|by eapply IH].
    bind_ok Hw as flushed Eflushed. bind_ok Hw as content Econtent.
    bind_ok Hw as [[text toolUses] ns1] Eextract.
    eapply IH; [done|]. apply Forall_app. split.
    + destruct (is_nil buf); [by injection Eflushed as <-|].
      bind_ok Eflushed as mergedUser Emerged. injection Eflushed as <-.
      apply Forall_app. split; [done|]. apply Forall_singleton.
      by eapply mergeUserMessages_sound.
    + apply Forall_singleton, sound_assistant.
      by eapply extractAssistantContent_spoken.
Qed.

Lemma sound_plain_assistant s :
  sound_turn (assistant_turn (VObj [("content", VStr s)])).
Proof. split; [by eexists|]. by intros [?|?]. Qed.

Lemma system_turns_sound system thinkingPrefix modelId h0 :
  system_turns system thinkingPrefix modelId = Ok h0 → Forall sound_turn h0.
Proof.
  unfold system_turns, instruction_pair. intros Hs.
  assert (∀ c, sound_turn
                 (user_turn (VObj [("content", VStr c); ("modelId", modelId);
                                   ("origin", VStr "AI_EDITOR")]))) as Hu.
  { intros c. split; [by eexists|]. by intros [?|?]. }
  destruct (truthy system).
  - bind_ok Hs as systemContent E.
    destruct (bool_decide _); injection Hs as <-; repeat constructor;
      (apply Hu || apply sound_plain_assistant).
  - destruct thinkingPrefix; injection Hs as <-; repeat constructor;
      (apply Hu || apply sound_plain_assistant).
Qed.

(** X6: in the envelope of an accepted request the content of the current
    message is a non-empty string, the content of every turn of the
    history is a string, and a turn of the history that carries tool uses
    or tool results does not have the empty string for content. *)
Theorem turns_are_spoken (this : client) (ids : string * string)
    (req e : value) (m : gmap string string) :
  convertRequest this ids req = Ok (e, m) →
  spoken (currentMessage e) ∧ Forall sound_turn (history e).
Proof.
  intros (model & modelId & messages & trailing & endsWithAssistant &
          thinkingPrefix & system & history0 & userBuffer & history1 & ns &
          hist & currentText & allToolResults & toolsIn & toolList & kept &
          tools & ns' & tool_choice & chatTriggerType &
          _ & _ & _ & _ & _ & _ & _ & _ & _ & Ehistory0 & Ewalk & Ehist &
          Ecurrent & _ & _ & _ & _ & _ & _ & -> & ->)%convertRequest_Ok.
  split.
  - exists currentText. split; [apply current_of_kiroRequest|].
    destruct endsWithAssistant; [by injection Ecurrent as <- _|].
    bind_ok Ecurrent as [textParts results] Eparts.
    injection Ecurrent as <- _. by case_bool_decide.
  - rewrite history_of_kiroRequest.
    apply system_turns_sound in Ehistory0.
    eapply walk_sound in Ewalk; [|done].
    destruct (is_nil userBuffer); [by injection Ehist as <-|].
    bind_ok Ehist as mergedUser Emerged. injection Ehist as <-.
    apply Forall_app. split; [done|].
    constructor; [by eapply mergeUserMessages_sound|].
    constructor; [apply sound_plain_assistant | constructor].
Qed.

(** X7: when the last message of an accepted request is not a user
    message (an assistant message, or one of another role), the current
    message of the envelope has the content ["continue"] and carries no
    tool results. *)
Theorem current_message_continue (this : client) (ids : string * string)
    (req e : value) (m : gmap string string) (msgs : list value)
    (final : value) :
  convertRequest this ids req = Ok (e, m) →
  messages_of req = Ok msgs → last msgs = Some final →
  role_is final "user" = false →
  content_of (currentMessage e) = VStr "continue" ∧
  toolResults_of (currentMessage e) = [].
Proof.
  intros (model & modelId & messages & trailing & endsWithAssistant &
          thinkingPrefix & system & history0 & userBuffer & history1 & ns &
          hist & currentText & allToolResults & toolsIn & toolList & kept &
          tools & ns' & tool_choice & chatTriggerType &
          _ & _ & _ & Emsgs & _ & Etrailing & _ & _ & _ & _ & _ & _ &
          Ecurrent & _ & _ & _ & _ & _ & _ & -> & ->)%convertRequest_Ok
         Hm Hlast Hrole.
  assert (messages = msgs) as -> by congruence.
  rewrite current_of_kiroRequest, current_results_of_kiroRequest.
  assert (trailing = 0%nat) as ->.
  { rewrite <- head_reverse in Hlast.
    destruct (reverse msgs) as [|x rest]; [done|]. injection Hlast as ->.
    cbn [trailing_users] in Etrailing. unfold role_is in Hrole.
    destruct (get final "role") as [role|]; [|done].
    cbn in Etrailing. rewrite Hrole in Etrailing. by injection Etrailing. }
  rewrite Nat.sub_0_r, drop_all in Ecurrent.
  destruct endsWithAssistant; [by injection Ecurrent as <- <-|].
  by injection Ecurrent as <- <-.
Qed.

(** *** The extractors *)

Lemma extractTextContent_array l :
  extractTextContent (VArr l) =
  (texts ← text_blocks l;
   parts ← mapM_res (λ c, get c "text") texts;
   join_values nl parts).
Proof. reflexivity. Qed.

Lemma result_parts l : ∀ parts strs,
  mapM_res (λ c, t ← get c "text"; Ok (or_else t (VStr ""))) l = Ok parts →
  mapM_res (λ x, match x with
                 | VUndefined | VNull => Ok ""
                 | _ => toString x
                 end) parts = Ok strs →
  Forall2 text_of_part l strs.
Proof.
  induction l as [|c l IH]; intros parts strs Hparts Hstrs.
  - injection Hparts as <-. injection Hstrs as <-. constructor.
  - cbn [mapM_res] in Hparts. bind_ok Hparts as v Ev.
    bind_ok Ev as t Et. injection Ev as <-.
    bind_ok Hparts as parts' Eparts. injection Hparts as <-.
    cbn [mapM_res] in Hstrs. bind_ok Hstrs as p Ep.
    bind_ok Hstrs as strs' Estrs. injection Hstrs as <-.
    constructor; [|by eapply IH].
    exists t. split; [done|]. unfold or_else in Ep.
    destruct (truthy t) eqn:Ht; [by destruct t | by injection Ep].
Qed.

Lemma resultContent_text c rc : resultContent c = Ok rc → result_text c rc.
Proof.
  unfold resultContent, result_text.
  destruct c as [| | | |s|l|o]; try (by intros [= <-]).
  intros Hc. bind_ok Hc as parts Eparts. unfold join_values in Hc.
  bind_ok Hc as strs Estrs. injection Hc as <-.
  exists strs. split; [by eapply result_parts | done].
Qed.

Lemma user_blocks_spec blocks : ∀ tp tr tp' tr',
  user_blocks blocks tp tr = Ok (tp', tr') →
  ∃ texts parts results,
    text_blocks blocks = Ok texts ∧
    mapM_res (λ c, get c "text") texts = Ok parts ∧
    tp' = tp ++ parts ∧ tr' = tr ++ results ∧
    Forall2 tool_result_of
      (filter (λ b, block_type b "tool_result" = true) blocks) results.
Proof.
  induction blocks as [|block rest IH]; intros tp tr tp' tr' Hb.
  - injection Hb as <- <-. exists [], [], [].
    rewrite !app_nil_r. repeat split. constructor.
  - cbn [user_blocks] in Hb. bind_ok Hb as ty Ety.
    assert (block_type block "tool_result" = is_str ty "tool_result") as Hbt
      by (unfold block_type; by rewrite Ety).
    cbn [text_blocks]. rewrite Ety. cbn [mbind result_bind].
    rewrite filter_cons.
    destruct (is_str ty "text") eqn:Htext.
    { bind_ok Hb as t Et.
      apply IH in Hb as (texts & parts & results & -> & Hparts & -> & -> & Hr).
      exists (block :: texts), (t :: parts), results.
      cbn. rewrite Et, Hparts. cbn. rewrite <- app_assoc.
      repeat split; try done.
      rewrite decide_False; [done|]. rewrite Hbt.
      destruct ty as [| | | |s| |]; try done. cbn in Htext |- *.
      apply bool_decide_eq_true in Htext as ->. done. }
    destruct (is_str ty "tool_result") eqn:Hresult.
    + bind_ok Hb as c Ec. bind_ok Hb as rc Erc. bind_ok Hb as id Eid.
      bind_ok Hb as is_error Eerr.
      apply IH in Hb as (texts & parts & results & -> & Hparts & -> & -> & Hr).
      eexists texts, parts, (_ :: results). cbn.
      rewrite <- app_assoc. repeat split; try done.
      rewrite decide_True by done. constructor; [|done].
      exists id, is_error, c, rc. do 3 (split; [done|]).
      split; [by apply resultContent_text | done].
    + apply IH in Hb as (texts & parts & results & -> & Hparts & -> & -> & Hr).
      exists texts, parts, results. cbn. repeat split; try done.
      rewrite decide_False; [done|]. by rewrite Hbt.
Qed.

(** X8: on every content on which [extractUserContent] returns,
    [extractTextContent] returns too, and with the same text. *)
Theorem extractUserContent_text (content : value) (text : string)
    (toolResults : list value) :
  extractUserContent content = Ok (text, toolResults) →
  extractTextContent content = Ok text.
Proof.
  unfold extractUserContent. intros Hc.
  destruct (truthy content) eqn:Ht; cbn [negb] in Hc.
  2: { injection Hc as <- <-.
       destruct content as [| |[]|[]|[]| |]; try done. }
  destruct content as [| | | |s|l|o]; try done; [by injection Hc as <- <-|].
  bind_ok Hc as blocks Eblocks. injection Eblocks as <-.
  bind_ok Hc as [tp tr] Eb. bind_ok Hc as joined Ej. injection Hc as <- <-.
  apply user_blocks_spec in Eb
    as (texts & parts & results & Etexts & Eparts & -> & _).
  rewrite extractTextContent_array, Etexts. cbn. by rewrite Eparts.
Qed.

(** X9: the tool results that [extractUserContent] returns for an array of
    blocks are, in order, one for each block of type [tool_result]: it
    has the [tool_use_id] of the block for [toolUseId], the status
    ["error"] when [is_error] is truthy and ["success"] otherwise, and
    for content the single text made of the content of the block: a
    string is taken as it is, the elements of an array give their [text]
    as a string (nothing when it is missing or falsy), joined by
    newlines, and anything else gives the empty string. *)
Theorem tool_results_in_order (blocks : list value) (text : string)
    (toolResults : list value) :
  extractUserContent (VArr blocks) = Ok (text, toolResults) →
  Forall2 tool_result_of
    (filter (λ b, block_type b "tool_result" = true) blocks) toolResults.
Proof.
  unfold extractUserContent. cbn [truthy negb iterate mbind result_bind].
  intros Hc. bind_ok Hc as [tp tr] Eb. bind_ok Hc as joined Ej.
  injection Hc as _ <-.
  by apply user_blocks_spec in Eb
    as (texts & parts & results & _ & _ & _ & -> & Hr).
Qed.

(** X10: what [convertRequest] rejects first.  Without a database manager,
    a request whose [model] is not a string ends in a TypeError, and one
    whose model has none of [sonnet], [opus] and [haiku] in its lower-case
    form ends in the unsupported-model error that names the model,
    whatever else the request holds.  With a model that maps to a truthy
    identifier, a request whose [messages] is missing, falsy or the empty
    array ends in the empty-messages error. *)
Theorem convertRequest_rejects (this : client) (ids : string * string)
    (req model : value) :
  get req "model" = Ok model →
  (dbManager this = None → (∀ s, model ≠ VStr s) →
   convertRequest this ids req = Throw TypeError) ∧
  (dbManager this = None → ∀ s, model = VStr s →
   includes (toLowerCase s) "sonnet" = false →
   includes (toLowerCase s) "opus" = false →
   includes (toLowerCase s) "haiku" = false →
   convertRequest this ids req = Throw (UnsupportedModel s)) ∧
  (∀ modelId messages,
     mapModel this model = Ok modelId → truthy modelId = true →
     get req "messages" = Ok messages → or_else messages (VArr []) = VArr [] →
     convertRequest this ids req = Throw EmptyMessages).
Proof.
  intros Hmodel. unfold convertRequest. rewrite Hmodel.
  cbn [mbind result_bind]. split; [|split].
  - intros Hdb Hs. unfold mapModel. rewrite Hdb.
    destruct model; try done. by destruct (Hs s).
  - intros Hdb s -> H1 H2 H3. unfold mapModel. rewrite Hdb, H1, H2, H3. done.
  - intros modelId messages -> Ht Hm He. cbn [mbind result_bind].
    rewrite Ht. cbn [negb]. unfold messages_of. rewrite Hm.
    cbn [mbind result_bind]. by rewrite He.
Qed.


End Accepted.

(** ** Accepted and rejected requests of the scenarios *)

Section AcceptedExamples.
Import JS KiroClient Envelope ToolNames Turns.

(** [toolNameMap_names] on scenario 6. *)
Lemma toolNameMap_names_witness :
  ∃ e m,
    @convertRequest example_host plain_client ("c", "a") collision_request
      = Ok (e, m) ∧
    (∀ o k, m !! o = Some k → kiro_name k = true) ∧
    ∀ n, n ∈ tool_names e ++ ((λ u, path u ["name"]) <$> history_toolUses e) →
         assigned m n.
Proof.
  eexists _, _. split; [vm_compute; reflexivity|].
  edestruct (@toolNameMap_names example_host plain_client ("c", "a")
               collision_request) as (_ & Hid & Hall);
    [vm_compute; reflexivity|].
  split; [exact Hid | exact Hall].
Defined.

(** [tool_specifications] on a request with three tools, one of which is
    a web search. *)
Lemma tool_specifications_witness :
  ∃ e m toolList,
    @convertRequest example_host plain_client ("c", "a") three_tools_request
      = Ok (e, m) ∧
    get three_tools_request "tools" = Ok (VArr toolList) ∧
    length toolList = 3%nat ∧ length (envelope_tools e) = 2%nat ∧
    Forall2 (@specified example_host m)
      (filter (λ t, web_search_tool t = false) toolList) (envelope_tools e).
Proof.
  eexists _, _.
  edestruct (@tool_specifications example_host plain_client ("c", "a")
               three_tools_request)
    as (toolsIn & toolList & Hget & Hor & _ & Hspecs & _);
    [vm_compute; reflexivity|].
  exists toolList. split; [vm_compute; reflexivity|].
  injection Hget as <-. injection Hor as <-.
  split; [reflexivity|]. split; [reflexivity|]. split; [reflexivity|].
  exact Hspecs.
Defined.

(** [turns_are_spoken] on scenario 4. *)
Lemma turns_are_spoken_witness :
  ∃ e m,
    @convertRequest example_host plain_client ("c", "a") threading_request
      = Ok (e, m) ∧
    spoken (currentMessage e) ∧ Forall sound_turn (history e).
Proof.
  eexists _, _. split; [vm_compute; reflexivity|].
  eapply (@turns_are_spoken example_host plain_client ("c", "a")
            threading_request).
  vm_compute. reflexivity.
Defined.

(** [current_message_continue] on a conversation that ends with a system
    message. *)
Lemma current_message_continue_witness :
  ∃ e m,
    @convertRequest example_host plain_client ("c", "a") system_last_request
      = Ok (e, m) ∧
    content_of (currentMessage e) = VStr "continue" ∧
    toolResults_of (currentMessage e) = [].
Proof.
  eexists _, _. split; [vm_compute; reflexivity|].
  eapply (@current_message_continue example_host plain_client ("c", "a")
            system_last_request);
    vm_compute; reflexivity.
Defined.

(** [extractUserContent_text] on a content with a text and two tool
    results. *)
Lemma extractUserContent_text_witness :
  extractTextContent (VArr result_blocks) = Ok "done".
Proof.
  eapply (extractUserContent_text (VArr result_blocks) "done").
  vm_compute. reflexivity.
Defined.

(** [tool_results_in_order] on the same content. *)
Lemma tool_results_in_order_witness :
  ∃ text toolResults,
    extractUserContent (VArr result_blocks) = Ok (text, toolResults) ∧
    toolResults =
      [VObj [("toolUseId", VStr "T1"); ("status", VStr "success");
             ("content", VArr [VObj [("text", VStr "42")]])];
       VObj [("toolUseId", VStr "T2"); ("status", VStr "error");
             ("content",
              VArr [VObj [("text", VStr ("no" +:+ nl +:+ "way"))]])]] ∧
    Forall2 tool_result_of
      (filter (λ b, block_type b "tool_result" = true) result_blocks)
      toolResults.
Proof.
  eexists _, _. split; [vm_compute; reflexivity|].
  split; [reflexivity|].
  eapply (tool_results_in_order result_blocks). vm_compute. reflexivity.
Defined.

(** [convertRequest_rejects] on a model that the default mapping does not
    know, and on scenario 7. *)
Lemma convertRequest_rejects_witness :
  @convertRequest example_host plain_client ("c", "a") unknown_model_request
    = Throw (UnsupportedModel "gpt-4") ∧
  @convertRequest example_host plain_client ("c", "a") empty_request
    = Throw EmptyMessages.
Proof.
  split.
  - apply (proj1 (proj2 (@convertRequest_rejects example_host plain_client
                           ("c", "a") unknown_model_request (VStr "gpt-4")
                           eq_refl)) eq_refl "gpt-4" eq_refl);
      reflexivity.
  - eapply (proj2 (proj2 (@convertRequest_rejects example_host plain_client
                            ("c", "a") empty_request
                            (VStr "claude-3-5-sonnet-latest") eq_refl)));
      vm_compute; reflexivity.
Defined.


End AcceptedExamples.

(** ** The roster of the pool *)

Section RosterFacts.
Import JS AccountPool Roster.

Lemma NoDup_keys_functional {A B} (m : list (A * B)) k x y :
  NoDup m.*1 → (k, x) ∈ m → (k, y) ∈ m → x = y.
Proof.
  induction m as [|[k0 x0] m IH]; cbn; [by intros _ ?%elem_of_nil|].
  intros [Hk0 Hm]%NoDup_cons [Hx|Hx]%elem_of_cons [Hy|Hy]%elem_of_cons.
  - congruence.
  - injection Hx as -> ->. destruct Hk0. apply list_elem_of_fmap.
    by exists (k0, y).
  - injection Hy as -> ->. destruct Hk0. apply list_elem_of_fmap.
    by exists (k0, x).
  - by apply IH.
Qed.

Lemma accounts_get_Some (p : pool) i l :
  NoDup (accounts p).*1 → (i, l) ∈ accounts p → accounts_get i p = Some l.
Proof.
  intros Hnd Hin. unfold accounts_get.
  destruct (list_find_elem_of (λ kl : string * loc, kl.1 = i) _ _ Hin eq_refl)
    as [[n [i' l']] Hfind].
  rewrite Hfind. cbn. f_equal.
  apply list_find_Some in Hfind as (Hn & Hi & _). cbn in Hi. subst i'.
  apply list_elem_of_lookup_2 in Hn. by eapply NoDup_keys_functional.
Qed.

Lemma accounts_get_None (p : pool) i :
  accounts_get i p = None ↔ i ∉ (accounts p).*1.
Proof.
  unfold accounts_get. split.
  - intros Hnone Hin. apply list_elem_of_fmap in Hin as ([i' l] & Heq & Hin).
    cbn in Heq. subst i'.
    destruct (list_find_elem_of (λ kl : string * loc, kl.1 = i) _ _ Hin
                eq_refl) as [[n [i0 l0]] Hfind].
    by rewrite Hfind in Hnone.
  - intros Hnot. destruct (list_find _ _) as [[n [i' l']]|] eqn:Hfind; [|done].
    apply list_find_Some in Hfind as (Hn & Hi & _). cbn in Hi. subst i'.
    destruct Hnot. apply list_elem_of_fmap. exists (i, l').
    split; [done|]. by eapply list_elem_of_lookup_2.
Qed.

(** *** The map *)

Lemma accounts_set_new m i l :
  i ∉ m.*1 → accounts_set m i l = m ++ [(i, l)].
Proof.
  induction m as [|[i' l'] m IH]; cbn; [done|].
  intros Hi. rewrite bool_decide_false by set_solver.
  rewrite IH by set_solver. done.
Qed.

Lemma accounts_set_keys m i l :
  (accounts_set m i l).*1 = if bool_decide (i ∈ m.*1) then m.*1 else m.*1 ++ [i].
Proof.
  induction m as [|[i' l'] m IH]; cbn [accounts_set]; [done|].
  destruct (decide (i' = i)) as [->|Hne].
  - rewrite (bool_decide_true (i = i)) by done.
    rewrite bool_decide_true; [done|]. rewrite fmap_cons. by left.
  - rewrite (bool_decide_false (i' = i)) by done.
    rewrite !fmap_cons. cbn [fst]. rewrite IH.
    destruct (decide (i ∈ m.*1)) as [Hin|Hin].
    + rewrite (bool_decide_true (i ∈ m.*1)) by done.
      rewrite bool_decide_true; [done | by right].
    + rewrite (bool_decide_false (i ∈ m.*1)) by done.
      rewrite bool_decide_false; [done|].
      intros [->|?]%elem_of_cons; done.
Qed.

Lemma accounts_set_elem m i l k x :
  NoDup m.*1 →
  (k, x) ∈ accounts_set m i l ↔ (k = i ∧ x = l) ∨ (k ≠ i ∧ (k, x) ∈ m).
Proof.
  induction m as [|[i' l'] m IH]; cbn [accounts_set].
  - intros _. rewrite list_elem_of_singleton. split.
    + intros [= -> ->]. by left.
    + intros [[-> ->]|[_ ?%elem_of_nil]]; done.
  - rewrite fmap_cons. cbn [fst]. intros [Hi' Hm]%NoDup_cons.
    case_bool_decide as Hk.
    + subst i'. rewrite !elem_of_cons. split.
      * intros [[= -> ->]|Hin]; [by left|]. right. split; [|by right].
        intros ->. destruct Hi'. apply list_elem_of_fmap. by exists (i, x).
      * intros [[-> ->]|[Hne [[= -> ->]|Hin]]]; [by left|done|by right].
    + rewrite !elem_of_cons, IH by done. split.
      * intros [[= -> ->]|[?|[? ?]]]; [right|by left|right]; split; auto.
      * intros [?|[? [?|?]]]; auto.
Qed.

Lemma accounts_set_locs m i l x :
  x ∈ (accounts_set m i l).*2 → x = l ∨ x ∈ m.*2.
Proof.
  induction m as [|[i' l'] m IH]; cbn [accounts_set].
  - cbn. rewrite list_elem_of_singleton. by left.
  - case_bool_decide; rewrite !fmap_cons; cbn [snd]; rewrite !elem_of_cons.
    + intros [->|?]; [by left | right; by right].
    + intros [->|[->|?]%IH]; [right; by left | by left | right; by right].
Qed.

Lemma accounts_set_NoDup_keys m i l :
  NoDup m.*1 → NoDup (accounts_set m i l).*1.
Proof.
  intros Hm. rewrite accounts_set_keys. case_bool_decide as Hi; [done|].
  apply NoDup_app. split; [done|]. split; [|apply NoDup_singleton].
  intros k Hk ->%list_elem_of_singleton. done.
Qed.

Lemma accounts_set_NoDup_locs m i l :
  NoDup m.*2 → l ∉ m.*2 → NoDup (accounts_set m i l).*2.
Proof.
  induction m as [|[i' l'] m IH]; cbn [accounts_set].
  - intros _ _. apply NoDup_singleton.
  - rewrite fmap_cons. cbn [snd]. intros [Hl' Hm]%NoDup_cons Hl.
    case_bool_decide; rewrite fmap_cons; cbn [snd]; apply NoDup_cons.
    + split; [set_solver | done].
    + split; [|apply IH; [done | set_solver]].
      intros [->|?]%accounts_set_locs; [set_solver | done].
Qed.

Lemma accounts_delete_elem m i k x :
  (k, x) ∈ accounts_delete m i ↔ k ≠ i ∧ (k, x) ∈ m.
Proof. unfold accounts_delete. by rewrite list_elem_of_filter. Qed.

Lemma accounts_delete_absent m i :
  i ∉ m.*1 → accounts_delete m i = m.
Proof.
  unfold accounts_delete. induction m as [|[k x] m IH]; [done|].
  rewrite fmap_cons, not_elem_of_cons. cbn [fst]. intros [Hne Hi].
  rewrite filter_cons, decide_True by (cbn; congruence). by rewrite IH.
Qed.

Lemma accounts_delete_keys m i :
  (accounts_delete m i).*1 = filter (λ k, k ≠ i) m.*1.
Proof.
  unfold accounts_delete. induction m as [|[k x] m IH]; [done|].
  rewrite fmap_cons, !filter_cons. cbn [fst].
  destruct (decide (k ≠ i)); [rewrite fmap_cons|]; by rewrite IH.
Qed.

(** *** Pools that fit *)

Lemma consistent_store (p q : pool) :
  accounts q = accounts p →
  (∀ l a, store p !! l = Some a →
          ∃ a', store q !! l = Some a' ∧ id a' = id a) →
  consistent p → consistent q.
Proof.
  intros Hacc Hstore (Hk & Hl & Hfit). unfold consistent. rewrite Hacc.
  split; [done|]. split; [done|]. intros i l Hin.
  destruct (Hfit i l Hin) as (a & Ha & Hid).
  destruct (Hstore l a Ha) as (a' & Ha' & Hid'). exists a'.
  split; [done | congruence].
Qed.

Lemma consistent_same (p q : pool) :
  accounts q = accounts p → store q = store p → consistent p → consistent q.
Proof.
  intros Hacc Hstore. apply consistent_store; [done|]. rewrite Hstore. eauto.
Qed.

Lemma consistent_update (p q : pool) l a a' :
  accounts q = accounts p → store p !! l = Some a →
  store q = <[l := a']> (store p) → id a' = id a →
  consistent p → consistent q.
Proof.
  intros Hacc Ha Hstore Hid. apply consistent_store; [done|].
  intros l0 a0 Ha0. rewrite Hstore. destruct (decide (l0 = l)) as [->|Hne].
  - rewrite lookup_insert_eq. exists a'. split; [done | congruence].
  - rewrite lookup_insert_ne by done. eauto.
Qed.

Lemma consistent_sub (p q : pool) :
  accounts q `sublist_of` accounts p → store q = store p →
  consistent p → consistent q.
Proof.
  intros Hsub Hstore (Hk & Hl & Hfit). split; [|split].
  - eapply sublist_NoDup; [done|]. by apply fmap_sublist.
  - eapply sublist_NoDup; [done|]. by apply fmap_sublist.
  - intros i l Hin. rewrite Hstore. apply Hfit.
    by eapply elem_of_sublist.
Qed.

Lemma consistent_locs p l :
  consistent p → l ∈ (accounts p).*2 → l ∈ dom (store p).
Proof.
  intros (_ & _ & Hfit) Hl. apply list_elem_of_fmap in Hl as ([i l'] & -> & Hin).
  destruct (Hfit i l' Hin) as (a & Ha & _). by apply elem_of_dom_2 in Ha.
Qed.

Lemma fresh_not_account p :
  consistent p → fresh (dom (store p)) ∉ (accounts p).*2.
Proof.
  intros Hp Hin. apply consistent_locs in Hin; [|done].
  by apply is_fresh in Hin.
Qed.

Lemma put_consistent a p : consistent p → consistent (put a p).
Proof.
  intros Hp. pose proof (fresh_not_account p Hp) as Hfresh.
  destruct Hp as (Hk & Hl & Hfit). unfold put.
  set (l := fresh (dom (store p))) in *. split; [|split]; cbn.
  - by apply accounts_set_NoDup_keys.
  - by apply accounts_set_NoDup_locs.
  - intros i l0 [[-> ->]|[Hne Hin]]%accounts_set_elem; [| |done].
    + exists a. by rewrite lookup_insert_eq.
    + destruct (Hfit i l0 Hin) as (a0 & Ha0 & Hid). exists a0.
      split; [|done]. rewrite lookup_insert_ne; [done|].
      intros <-. destruct Hfresh. apply list_elem_of_fmap. by exists (i, l).
Qed.

Lemma load_fold_consistent accs : ∀ p,
  consistent p → consistent (fold_left (λ p acc, put acc p) accs p).
Proof.
  induction accs as [|a accs IH]; intros p Hp; [done|].
  cbn. by apply IH, put_consistent.
Qed.

Lemma selectAccount_inv rnd p sel p' :
  selectAccount rnd p = Ok (Some sel, p') →
  ∃ l a index',
    (l, a) ∈ available p ∧ sel = (id a, name a) ∧
    p' = save {| accounts := accounts p;
                 store :=
                   <[l := {| id := id a; name := name a; status := status a;
                             requestCount := S (requestCount a);
                             errorCount := errorCount a;
                             createdAt := createdAt a;
                             lastUsedAt := Some (now p) |}]> (store p);
                 strategy := strategy p; roundRobinIndex := index';
                 timers := timers p; now := now p; disk := disk p |}.
Proof.
  unfold selectAccount. destruct (available p) as [|first rest] eqn:Hav; [done|].
  destruct (if bool_decide (strategy p = "random") then _ else _)
    as [[[l a]|] index'] eqn:Hchoice; [|done].
  intros [= <- <-]. exists l, a, index'. split; [|done].
  repeat case_bool_decide; injection Hchoice as Hl _.
  - by eapply list_elem_of_lookup_2.
  - rewrite <- Hl. apply least_used_elem.
  - by eapply list_elem_of_lookup_2.
Qed.

Lemma selectAccount_none rnd p p' :
  selectAccount rnd p = Ok (None, p') → p' = p.
Proof.
  unfold selectAccount. destruct (available p) as [|first rest]; [congruence|].
  destruct (if bool_decide (strategy p = "random") then _ else _)
    as [[[l a]|] index']; done.
Qed.

Lemma available_store p l a : (l, a) ∈ available p → store p !! l = Some a.
Proof. intros [[_ ?]%values_elem _]%available_elem. done. Qed.

Lemma recordError_consistent i b p :
  consistent p → consistent (recordError i b p).
Proof.
  intros Hp. unfold recordError.
  destruct (accounts_get i p) as [l|]; [|done].
  destruct (store p !! l) as [a|] eqn:Ha; [|done].
  destruct b; (eapply (consistent_update p); [| exact Ha | | | exact Hp]); done.
Qed.

Lemma set_status_consistent s i p :
  consistent p → consistent (set_status s i p).
Proof.
  intros Hp. unfold set_status.
  destruct (accounts_get i p) as [l|]; [|done].
  destruct (store p !! l) as [a|] eqn:Ha; [|done].
  eapply (consistent_update p); [| exact Ha | | | exact Hp]; done.
Qed.

Lemma fire_consistent n p p' :
  fire n p = Some p' → consistent p → consistent p'.
Proof.
  unfold fire. destruct (timers p !! n) as [t|]; [|done].
  destruct (due t <=? now p)%N; [|done]. intros [= <-] Hp.
  unfold cooldown_elapsed. cbn [store].
  destruct (store p !! target t) as [a|] eqn:Ha;
    [|by apply (consistent_same p)].
  case_bool_decide; [|by apply (consistent_same p)].
  eapply (consistent_update p); [| exact Ha | | | exact Hp]; done.
Qed.

Lemma set_accounts_same p : set_accounts (accounts p) p = p.
Proof. by destruct p. Qed.

Lemma delete_fold ids : ∀ m,
  fold_left accounts_delete ids m = filter (λ kl, kl.1 ∉ ids) m.
Proof.
  induction ids as [|i ids IH]; intros m; cbn [fold_left].
  - induction m as [|kl m IHm]; [done|].
    rewrite filter_cons, decide_True by apply not_elem_of_nil. by f_equal.
  - rewrite IH. unfold accounts_delete. rewrite list_filter_filter.
    apply list_filter_iff. intros [k x]. cbn. rewrite not_elem_of_cons. tauto.
Qed.

Lemma delete_length m i :
  NoDup m.*1 → i ∈ m.*1 → S (length (accounts_delete m i)) = length m.
Proof.
  unfold accounts_delete. induction m as [|[k x] m IH]; cbn [fmap];
    [by intros _ ?%elem_of_nil|].
  rewrite fmap_cons. cbn [fst]. intros [Hk Hm]%NoDup_cons Hi.
  rewrite filter_cons. cbn [fst]. destruct (decide (k ≠ i)) as [Hne|Heq].
  - apply elem_of_cons in Hi as [->|Hi]; [done|]. cbn [length].
    by rewrite IH.
  - assert (k = i) as -> by (by destruct (decide (k = i))).
    fold (accounts_delete m i). by rewrite accounts_delete_absent.
Qed.

Lemma removeAccounts_fold ids : ∀ r p,
  let rp := fold_left
              (λ '(removed, p) i,
                 if bool_decide (i ∈ (accounts p).*1)
                 then (S removed,
                       set_accounts (accounts_delete (accounts p) i) p)
                 else (removed, p))
              ids (r, p) in
  rp.2 = set_accounts (fold_left accounts_delete ids (accounts p)) p ∧
  (r ≤ rp.1 ≤ r + length ids)%nat ∧
  (NoDup (accounts p).*1 →
   rp.1 + length (accounts rp.2) = r + length (accounts p))%nat.
Proof.
  induction ids as [|i ids IH]; intros r p; cbn [fold_left].
  - cbn. rewrite set_accounts_same. repeat split; lia.
  - case_bool_decide as Hi.
    + destruct (IH (S r) (set_accounts (accounts_delete (accounts p) i) p))
        as (Hp & Hle & Hcount).
      cbn zeta in *. split; [done|]. split; [cbn [length]; lia|].
      intros Hnd. rewrite Hcount.
      * cbn [accounts set_accounts]. pose proof (delete_length _ _ Hnd Hi). lia.
      * cbn [accounts set_accounts]. rewrite accounts_delete_keys.
        by apply NoDup_filter.
    + destruct (IH r p) as (Hp & Hle & Hcount). cbn zeta in *.
      rewrite accounts_delete_absent by done.
      split; [done|]. split; [cbn [length]; lia | done].
Qed.

Lemma filter_all_length {A} (P : A → Prop) `{!∀ x, Decision (P x)} l :
  length (filter P l) = length l → filter P l = l.
Proof.
  induction l as [|x l IH]; [done|]. rewrite filter_cons.
  destruct (decide (P x)); cbn [length].
  - intros [= Hl]. by rewrite IH.
  - pose proof (length_filter P l). lia.
Qed.

(** *** How every operation keeps the pool *)

Lemma step_consistent p p' : consistent p → step p p' → consistent p'.
Proof.
  intros Hp Hstep. destruct Hstep.
  - by apply load_fold_consistent.
  - unfold addAccount.
    destruct (if skipValidation then Returns else validation calls); [|done].
    destruct (manager calls); [|by apply put_consistent].
    destruct (written calls);
      (eapply consistent_same; [| |by eapply put_consistent]; done).
  - unfold removeAccount. cbn [snd].
    destruct (bool_decide _); (apply (consistent_sub p); [|done|exact Hp]);
      apply sublist_filter.
  - unfold removeAccounts.
    pose proof (removeAccounts_fold ids 0 p) as (Hfold & _). cbn zeta in Hfold.
    destruct (fold_left _ ids _) as [removed q]. cbn [snd] in *. subst q.
    destruct (0 <? removed)%nat; (apply (consistent_sub p); [|done|exact Hp]);
      cbn; rewrite delete_fold; apply sublist_filter.
  - destruct sel as [sel|].
    + apply selectAccount_inv in H as (l & a & index' & Hin & _ & ->).
      eapply (consistent_update p); [| by eapply available_store | | | exact Hp];
        done.
    + by apply selectAccount_none in H as ->.
  - by apply recordError_consistent.
  - by apply set_status_consistent.
  - by apply set_status_consistent.
  - by apply set_status_consistent.
  - by apply (consistent_same p).
  - by eapply fire_consistent.
  - by apply (consistent_same p).
Qed.

Lemma constructor_consistent clock file : consistent (constructor clock file).
Proof.
  split; [constructor|]. split; [constructor|].
  intros i l Hin. by apply elem_of_nil in Hin.
Qed.

(** *** The accounts in the order of the map *)

Lemma values_same p q :
  accounts q = accounts p → store q = store p → values q = values p.
Proof. unfold values. by intros -> ->. Qed.

Lemma values_fit (store : gmap loc account) (m : list (string * loc)) :
  (∀ i l, (i, l) ∈ m → ∃ a, store !! l = Some a ∧ id a = i) →
  let vs := omap (λ kl, (λ a, (kl.2, a)) <$> store !! kl.2) m in
  vs.*1 = m.*2 ∧ id <$> vs.*2 = m.*1.
Proof.
  induction m as [|[i l] m IH]; intros Hfit; [done|]. cbn.
  destruct (Hfit i l) as (a & -> & Hid); [by left|]. cbn.
  destruct IH as [IH1 IH2]; [intros ???; apply Hfit; by right|].
  cbn in IH1, IH2. by rewrite IH1, IH2, Hid.
Qed.

Lemma values_locs p : consistent p → (values p).*1 = (accounts p).*2.
Proof. intros (_ & _ & Hfit). by apply values_fit. Qed.

Lemma values_ids p : consistent p → id <$> (values p).*2 = (accounts p).*1.
Proof. intros (_ & _ & Hfit). by apply values_fit. Qed.

Lemma values_insert p q l a a' :
  accounts q = accounts p → store p !! l = Some a →
  store q = <[l := a']> (store p) →
  values q = (λ la, if decide (la.1 = l) then (l, a') else la) <$> values p.
Proof.
  unfold values. intros -> Ha ->.
  induction (accounts p) as [|[i l0] m IH]; [done|]. cbn.
  destruct (decide (l0 = l)) as [->|Hne].
  - rewrite lookup_insert_eq, Ha. cbn. rewrite decide_True by done.
    by rewrite IH.
  - rewrite lookup_insert_ne by done.
    destruct (store p !! l0) as [a0|]; cbn; [|done].
    rewrite decide_False by done. by rewrite IH.
Qed.

Lemma omap_cons_Some {A B} (f : A → option B) x y l :
  f x = Some y → omap f (x :: l) = y :: omap f l.
Proof. intros Hx. cbn. by rewrite Hx. Qed.

Lemma values_filter p (Q : string → Prop) `{!∀ i, Decision (Q i)} :
  consistent p →
  values (set_accounts (filter (λ kl, Q kl.1) (accounts p)) p)
  = filter (λ la, Q (id la.2)) (values p).
Proof.
  intros (_ & _ & Hfit). unfold values. cbn [accounts store set_accounts].
  induction (accounts p) as [|[i l] m IH]; [done|].
  destruct (Hfit i l) as (a & Ha & Hid); [by left|].
  specialize (IH (λ i l Hin, Hfit i l (list_elem_of_further _ _ _ Hin))).
  rewrite (omap_cons_Some _ (i, l) (l, a)) by (cbn; by rewrite Ha).
  rewrite !filter_cons. cbn [fst snd]. rewrite Hid.
  destruct (decide (Q i)); [|done].
  rewrite (omap_cons_Some _ (i, l) (l, a)) by (cbn; by rewrite Ha).
  by rewrite IH.
Qed.

Lemma values_put_new a p :
  consistent p → id a ∉ (accounts p).*1 →
  values (put a p) = values p ++ [(fresh (dom (store p)), a)].
Proof.
  intros Hp Hnew. pose proof (fresh_not_account p Hp) as Hfresh.
  unfold values, put. cbn [accounts store].
  rewrite accounts_set_new by done. rewrite omap_app. cbn.
  rewrite lookup_insert_eq. cbn. f_equal.
  apply list_omap_ext, Forall2_same_length_lookup. split; [done|].
  intros n [i l] [i' l'] Hn Hn'. assert (i' = i ∧ l' = l) as [-> ->]
    by (split; congruence).
  cbn. rewrite lookup_insert_ne; [done|]. intros <-. destruct Hfresh.
  apply list_elem_of_fmap. exists (i, fresh (dom (store p))).
  split; [done|]. by eapply list_elem_of_lookup_2.
Qed.

Lemma put_fields a p :
  strategy (put a p) = strategy p ∧
  roundRobinIndex (put a p) = roundRobinIndex p ∧
  timers (put a p) = timers p ∧ now (put a p) = now p ∧
  disk (put a p) = disk p.
Proof. done. Qed.

Lemma load_fold accs : ∀ p,
  consistent p → NoDup (id <$> accs) →
  (∀ a, a ∈ accs → id a ∉ (accounts p).*1) →
  let q := fold_left (λ p acc, put acc p) accs p in
  (values q).*2 = (values p).*2 ++ accs ∧
  (accounts q).*1 = (accounts p).*1 ++ (id <$> accs) ∧
  timers q = timers p ∧ strategy q = strategy p ∧
  roundRobinIndex q = roundRobinIndex p ∧ now q = now p ∧ disk q = disk p.
Proof.
  induction accs as [|a accs IH]; intros p Hp Hnd Hnew; cbn [fold_left].
  - cbn. by rewrite !app_nil_r.
  - rewrite fmap_cons in Hnd. apply NoDup_cons in Hnd as [Ha Hnd].
    assert (id a ∉ (accounts p).*1) as Hanew by (apply Hnew; by left).
    destruct (IH (put a p)) as (Hv & Hk & Ht & Hs & Hr & Hn & Hd);
      [by apply put_consistent | done | |].
    { intros b Hb. cbn [accounts put]. rewrite accounts_set_keys.
      rewrite bool_decide_false by done. rewrite not_elem_of_app. split.
      - apply Hnew. by right.
      - rewrite list_elem_of_singleton. intros Heq. destruct Ha.
        rewrite <- Heq. apply list_elem_of_fmap. by exists b. }
    cbn zeta. rewrite Hv, Hk, Ht, Hs, Hr, Hn, Hd.
    rewrite values_put_new by done. cbn [accounts put].
    rewrite accounts_set_keys, bool_decide_false by done.
    rewrite !fmap_app, <- !app_assoc. done.
Qed.

(** *** [Map.get] after [Map.set] and [Map.delete] *)

Lemma accounts_get_cons j k x m p :
  accounts_get j (set_accounts ((k, x) :: m) p)
  = if decide (k = j) then Some x else accounts_get j (set_accounts m p).
Proof.
  unfold accounts_get. cbn. destruct (decide (k = j)); [done|].
  by destruct (list_find _ m) as [[? [? ?]]|].
Qed.

Lemma accounts_get_set j m i l p :
  accounts_get j (set_accounts (accounts_set m i l) p)
  = if decide (i = j) then Some l else accounts_get j (set_accounts m p).
Proof.
  induction m as [|[k x] m IH]; cbn [accounts_set].
  - rewrite accounts_get_cons. by destruct (decide (i = j)).
  - destruct (decide (k = i)) as [->|Hne].
    + rewrite (bool_decide_true (i = i)) by done. rewrite !accounts_get_cons.
      by destruct (decide (i = j)).
    + rewrite (bool_decide_false (k = i)) by done. rewrite !accounts_get_cons.
      rewrite IH. destruct (decide (k = j)), (decide (i = j)); congruence.
Qed.

Lemma accounts_get_delete j m i p :
  accounts_get j (set_accounts (accounts_delete m i) p)
  = if decide (i = j) then None else accounts_get j (set_accounts m p).
Proof.
  unfold accounts_delete. induction m as [|[k x] m IH].
  - by destruct (decide (i = j)).
  - rewrite filter_cons. cbn [fst]. destruct (decide (k ≠ i)) as [Hne|Heq].
    + rewrite !accounts_get_cons, IH.
      destruct (decide (k = j)), (decide (i = j)); congruence.
    + assert (k = i) as -> by (by destruct (decide (k = i))).
      rewrite IH, accounts_get_cons. by destruct (decide (i = j)).
Qed.

(** X12: every pool that the constructor and the methods of the class can
    produce is consistent: the keys of the map are distinct, no account
    object sits under two keys, and every key leads to an object that
    carries the key as its [id].  The methods are [load], [addAccount],
    [removeAccount], [removeAccounts], [selectAccount], [recordError],
    [markInvalid], [enableAccount], [disableAccount] and [setStrategy],
    between which timers fire and time passes. *)
Theorem reachable_consistent (clock : N) (file : list account) (p : pool) :
  rtc step (constructor clock file) p → consistent p.
Proof.
  revert p. apply rtc_ind_r; [apply constructor_consistent|].
  intros q r _ Hstep Hq. by eapply step_consistent.
Qed.

(** X13: [addAccount] on a consistent pool.  When the validation is made
    and throws, the call throws the same value and the pool is as it was.
    Otherwise the account is put in the map: the given [id], or the
    generated one when none (or the empty string) is given, leads to a new
    object, active, with no requests and no errors, created at the present
    time, named as given or with the default name; an [id] that is already
    a key keeps its place in the map and loses its old object, a new one
    goes last; no other key and no other object changes, and the pool
    stays consistent.  All this holds even when the call then throws: it
    throws what building the token manager throws, the accounts file being
    as it was, or else what [save()] throws, the file being what the
    failed write has left; it returns the [id] only when neither throws,
    and the file then holds the accounts of the map. *)
Theorem addAccount_adds (uuid : string) (calls : account_calls)
    (account : account_input) (skipValidation : bool) (p : pool) :
  consistent p →
  let i := or_default (given_id account) uuid in
  let '(answer, p') := addAccount uuid calls account skipValidation p in
  (skipValidation = false → ∀ e, validation calls = Throws e →
   answer = Rejected e ∧ p' = p) ∧
  (skipValidation = true ∨ validation calls = Returns →
   (∃ l,
      accounts_get i p' = Some l ∧
      store p' !! l =
        Some {| id := i;
                name := or_default (given_name account) unnamed;
                status := active; requestCount := 0; errorCount := 0;
                createdAt := now p; lastUsedAt := None |} ∧
      (accounts p').*1 =
        (if bool_decide (i ∈ (accounts p).*1) then (accounts p).*1
         else (accounts p).*1 ++ [i]) ∧
      (∀ j, j ≠ i → accounts_get j p' = accounts_get j p) ∧
      (∀ l', l' ≠ l → store p' !! l' = store p !! l') ∧
      store p !! l = None) ∧
   consistent p' ∧
   (∀ e, manager calls = Throws e → answer = Rejected e ∧ disk p' = disk p) ∧
   (manager calls = Returns → ∀ e, written calls = Throws e →
    answer = Rejected e ∧ disk p' = torn calls) ∧
   (manager calls = Returns → written calls = Returns →
    answer = Added i ∧ disk p' = (values p').*2)).
Proof.
  intros Hp i. unfold addAccount. fold i.
  destruct skipValidation, (validation calls) as [|ev],
    (manager calls) as [|em], (written calls) as [|ew];
    cbv beta iota zeta.
  all: split; [intros Hs e He; try done; by injection He as <-|].
  all: intros Hv; try (by destruct Hv).
  all: split;
    [exists (fresh (dom (store p)));
     split; [exact (eq_trans (accounts_get_set _ _ _ _ p)
                      (decide_True _ _ eq_refl))|];
     split; [apply lookup_insert_eq|];
     split; [apply accounts_set_keys|];
     split; [intros j Hj;
             exact (eq_trans (accounts_get_set _ _ _ _ p)
                      (decide_False _ _ (λ E, Hj (eq_sym E))))|];
     split; [intros l' Hl'; by apply lookup_insert_ne|];
     apply not_elem_of_dom, is_fresh|].
  all: split;
    [eapply consistent_same; [| |by eapply put_consistent]; done|].
  all: split; [intros e He; try done; by injection He as <-|].
  all: split; [intros Hm e He; try done; by injection He as <-|].
  all: intros Hm Hw; done.
Qed.

(** X14: [removeAccount] answers whether the [id] was a key.  Afterwards
    the [id] is no key, every other key leads where it led, the accounts
    are those of before without the ones of that [id], in their order, and
    no object and no timer changes.  The accounts file is written when
    something was removed, and a pool without the [id] is left as it
    is. *)
Theorem removeAccount_removes (i : string) (p : pool) :
  consistent p →
  let '(removed, p') := removeAccount i p in
  removed = bool_decide (is_Some (accounts_get i p)) ∧
  accounts_get i p' = None ∧
  (∀ j, j ≠ i → accounts_get j p' = accounts_get j p) ∧
  values p' = filter (λ la, id la.2 ≠ i) (values p) ∧
  store p' = store p ∧ timers p' = timers p ∧
  (removed = true → disk p' = (values p').*2) ∧
  (removed = false → p' = p).
Proof.
  intros Hp. unfold removeAccount.
  set (q := set_accounts (accounts_delete (accounts p) i) p).
  assert (accounts_get i q = None) as Hi
    by exact (eq_trans (accounts_get_delete _ _ _ p) (decide_True _ _ eq_refl)).
  assert (∀ j, j ≠ i → accounts_get j q = accounts_get j p) as Hj.
  { intros j Hne.
    exact (eq_trans (accounts_get_delete _ _ _ p)
             (decide_False _ _ (λ E, Hne (eq_sym E)))). }
  assert (values q = filter (λ la, id la.2 ≠ i) (values p)) as Hv
    by exact (values_filter p (λ k, k ≠ i) Hp).
  assert (bool_decide (i ∈ (accounts p).*1)
          = bool_decide (is_Some (accounts_get i p))) as ->.
  { apply bool_decide_ext. rewrite <- not_eq_None_Some, accounts_get_None.
    split; [tauto|]. apply dec_stable. }
  destruct (bool_decide (is_Some _)) eqn:Hremoved.
  - repeat split; try done.
  - repeat split; try done. intros _.
    apply bool_decide_eq_false in Hremoved.
    rewrite <- not_eq_None_Some, accounts_get_None in Hremoved.
    apply dec_stable in Hremoved. unfold q.
    rewrite accounts_delete_absent by done. apply set_accounts_same.
Qed.

(** X15: [removeAccounts] answers the number of identifiers given for
    [total], and for [removed] a number that is at most [total] and is
    the number of keys the map loses.  The map keeps, in order, the keys
    that are not among the identifiers, and so do the accounts.  The
    accounts file is written when something was removed, and otherwise
    the pool is left as it is. *)
Theorem removeAccounts_counts (ids : list string) (p : pool) :
  consistent p →
  let '((total, removed), p') := removeAccounts ids p in
  total = length ids ∧ (removed ≤ total)%nat ∧
  (removed + length (accounts p') = length (accounts p))%nat ∧
  accounts p' = filter (λ kl, kl.1 ∉ ids) (accounts p) ∧
  values p' = filter (λ la, id la.2 ∉ ids) (values p) ∧
  (0 < removed → disk p' = (values p').*2)%nat ∧
  (removed = 0%nat → p' = p).
Proof.
  intros Hp. unfold removeAccounts.
  pose proof (removeAccounts_fold ids 0 p) as (Hfold & Hle & Hcount).
  cbn zeta in *. destruct (fold_left _ ids _) as [removed q].
  cbn [fst snd] in *. subst q. rewrite delete_fold in *.
  specialize (Hcount (proj1 Hp)). cbn [accounts set_accounts] in Hcount.
  assert (values (set_accounts (filter (λ kl, kl.1 ∉ ids) (accounts p)) p)
          = filter (λ la, id la.2 ∉ ids) (values p)) as Hv
    by exact (values_filter p (λ k, k ∉ ids) Hp).
  destruct (0 <? removed)%nat eqn:Hpos.
  - apply Nat.ltb_lt in Hpos. repeat split; try done; lia.
  - apply Nat.ltb_ge in Hpos. repeat split; try done; try lia.
    intros ->. rewrite filter_all_length by (cbn in Hcount; lia).
    apply set_accounts_same.
Qed.

(** What [load] gives on the file that [save] has written. *)
Lemma load_saved (clock : N) (p : pool) :
  consistent p →
  let q := load (constructor clock (disk (save p))) in
  (values q).*2 = (values p).*2 ∧ (accounts q).*1 = (accounts p).*1 ∧
  consistent q.
Proof.
  intros Hp q. unfold q, load. cbn [disk save constructor].
  destruct (load_fold (values p).*2
              (constructor clock (values p).*2)) as (Hv & Hk & _).
  - apply constructor_consistent.
  - rewrite values_ids by done. apply Hp.
  - intros a _. apply not_elem_of_nil.
  - split; [done|]. split; [by rewrite Hk, values_ids|].
    apply load_fold_consistent, constructor_consistent.
Qed.

(** X16: what [save] writes, [load] reads back: a new pool that loads the
    accounts file of a consistent pool holds the same accounts, in the
    same order and under the same keys, answers the same statistics, and
    is consistent. *)
Theorem save_load_roundtrip (clock : N) (p : pool) :
  consistent p →
  let q := load (constructor clock (disk (save p))) in
  (values q).*2 = (values p).*2 ∧ (accounts q).*1 = (accounts p).*1 ∧
  (∀ i, is_Some (accounts_get i q) ↔ is_Some (accounts_get i p)) ∧
  getStats q = getStats p ∧ consistent q.
Proof.
  intros Hp q. destruct (load_saved clock p Hp) as (Hv & Hk & Hq).
  fold q in Hv, Hk, Hq. split; [done|]. split; [done|].
  split; [|split; [|done]].
  - intros i. rewrite <- !not_eq_None_Some, !accounts_get_None.
    by rewrite Hk.
  - unfold getStats. by rewrite Hv.
Qed.

(** *** Timers and restarts *)

Lemma consistent_account p i l a :
  consistent p → accounts_get i p = Some l → store p !! l = Some a →
  id a = i ∧ (l, a) ∈ values p.
Proof.
  intros Hp Hi Hl. apply accounts_get_elem in Hi.
  destruct Hp as (_ & _ & Hfit). destruct (Hfit i l Hi) as (a' & Ha' & Hid).
  assert (a' = a) as -> by congruence. split; [done|].
  apply values_elem. eauto.
Qed.

Lemma fire_fields n p q :
  fire n p = Some q → now q = now p ∧ disk q = disk p.
Proof.
  unfold fire, cooldown_elapsed. intros Hq.
  repeat case_match; try done; by injection Hq as <-.
Qed.

(** X17: the cooldown does not survive a restart.  After a rate limit on a
    known account of a consistent pool the timer fires 5 minutes later and
    the account is active again; but a new pool that loads the accounts
    file of that moment finds the account in cooldown, has no timer
    pending, and no timer ever fires in it, however much time passes. *)
Theorem restart_forgets_timer (clock : N) (p : pool) (i : string) (l : loc)
    (a : account) :
  consistent p → accounts_get i p = Some l → store p !! l = Some a →
  ∃ p2,
    fire (length (timers p)) (elapse cooldown_ms (recordError i true p))
      = Some p2 ∧
    status_at l p2 = Some active ∧
    let q := load (constructor clock (disk p2)) in
    ∃ l', accounts_get i q = Some l' ∧ status_at l' q = Some cooldown ∧
          timers q = [] ∧ strategy q = "round-robin" ∧
          ∀ ms n, fire n (elapse ms q) = None.
Proof.
  intros Hp Hi Hl.
  destruct (recordError_rate_limit p i l a Hi Hl)
    as ((a1 & Ha1 & Hs & Hid & Hname) & Ht & Hnow & Hacc & Hstr).
  set (p1 := recordError i true p) in *.
  set (t := {| due := (now p + cooldown_ms)%N; target := l |}) in *.
  assert (timers (elapse cooldown_ms p1) !! length (timers p) = Some t)
    as Hpending.
  { cbn. rewrite Ht. by rewrite lookup_app_r, Nat.sub_diag. }
  destruct (fire_due (elapse cooldown_ms p1) _ t a1 Hpending Ha1) as [_ Hfire].
  destruct Hfire as (p2 & Hp2 & _ & _ & _ & Hactive & _).
  { cbn. rewrite Hnow. done. }
  specialize (Hactive Hs). cbn in Hactive.
  exists p2. split; [done|]. split.
  { unfold status_at. rewrite Hactive. by rewrite lookup_insert_eq. }
  assert (consistent p1) as Hp1 by by apply recordError_consistent.
  assert (disk p2 = (values p1).*2) as ->.
  { rewrite (proj2 (fire_fields _ _ _ Hp2)).
    unfold p1, recordError. by rewrite Hi, Hl. }
  destruct (load_saved clock p1 Hp1) as (Hv & Hk & Hq).
  cbn [disk save] in Hv, Hk, Hq. cbn zeta.
  assert (timers (load (constructor clock (values p1).*2)) = [] ∧
          strategy (load (constructor clock (values p1).*2)) = "round-robin")
    as [Htq Hsq].
  { destruct (load_fold (values p1).*2 (constructor clock (values p1).*2))
      as (_ & _ & Htq & Hsq & _).
    - apply constructor_consistent.
    - rewrite values_ids by done. apply Hp1.
    - intros ? _. apply not_elem_of_nil.
    - split; [exact Htq | exact Hsq]. }
  remember (load (constructor clock (values p1).*2)) as q eqn:Eq.
  clear Eq.
  destruct (consistent_account p i l a Hp Hi Hl) as [Hida _].
  assert (accounts_get i p1 = Some l) as Hi1.
  { unfold accounts_get. by rewrite Hacc. }
  destruct (consistent_account p1 i l a1 Hp1 Hi1 Ha1) as [_ Hin1].
  assert (a1 ∈ (values q).*2) as Hin.
  { rewrite Hv. apply list_elem_of_fmap. by exists (l, a1). }
  apply list_elem_of_fmap in Hin as ([l' a'] & -> & Hin). cbn in *.
  apply values_elem in Hin as [[k Hk'] Hl'].
  destruct Hq as (Hnd & Hndl & Hfit).
  destruct (Hfit k l' Hk') as (b & Hb & Hidb).
  assert (b = a') as -> by congruence.
  assert (k = i) as -> by congruence.
  exists l'. split; [by apply accounts_get_Some|].
  split; [unfold status_at; by rewrite Hl'; cbn; f_equal|].
  split; [done|]. split; [done|].
  intros ms n. unfold fire.
  change (timers (elapse ms q)) with (timers q). by rewrite Htq, lookup_nil.
Qed.

(** X18: a second rate limit does not extend the cooldown.  When an
    account is rate-limited again [d] milliseconds after a first rate
    limit, with [d] under 5 minutes, both timers are pending; when the
    first one fires, 5 minutes after the first rate limit, the account
    becomes active although the second timer is not yet due. *)
Theorem second_rate_limit_keeps_first_timer (p : pool) (i : string) (l : loc)
    (a : account) (d : N) :
  accounts_get i p = Some l → store p !! l = Some a →
  (0 < d < cooldown_ms)%N →
  let p1 := recordError i true p in
  let p2 := recordError i true (elapse d p1) in
  let t1 := {| due := (now p + cooldown_ms)%N; target := l |} in
  let t2 := {| due := (now p + d + cooldown_ms)%N; target := l |} in
  status_at l p2 = Some cooldown ∧
  timers p2 = timers p ++ [t1; t2] ∧
  ∃ q, fire (length (timers p)) (elapse (cooldown_ms - d) p2) = Some q ∧
       status_at l q = Some active ∧
       (now q < due t2)%N ∧
       timers q = timers p ++ [t2].
Proof.
  intros Hi Hl Hd p1 p2 t1 t2.
  destruct (recordError_rate_limit p i l a Hi Hl)
    as ((a1 & Ha1 & Hs1 & _) & Ht1 & Hnow1 & Hacc1 & _).
  fold p1 in Ha1, Ht1, Hnow1, Hacc1.
  assert (accounts_get i (elapse d p1) = Some l) as Hi1.
  { unfold accounts_get. cbn [accounts elapse]. by rewrite Hacc1. }
  destruct (recordError_rate_limit (elapse d p1) i l a1 Hi1 Ha1)
    as ((a2 & Ha2 & Hs2 & _) & Ht2 & Hnow2 & _).
  fold p2 in Ha2, Ht2, Hnow2. cbn [timers now elapse] in Ht2, Hnow2.
  rewrite Ht1, Hnow1, <- app_assoc in Ht2. cbn [app] in Ht2.
  rewrite Hnow1 in Hnow2.
  split; [unfold status_at; by rewrite Ha2; cbn; f_equal|].
  split; [done|].
  set (q0 := elapse (cooldown_ms - d) p2).
  assert (now q0 = (now p + d + (cooldown_ms - d))%N) as Hnowq.
  { change (now q0) with (now p2 + (cooldown_ms - d))%N. by rewrite Hnow2. }
  assert (timers q0 !! length (timers p) = Some t1) as Hpending.
  { change (timers q0) with (timers p2). rewrite Ht2.
    by rewrite lookup_app_r, Nat.sub_diag. }
  destruct (fire_due q0 _ t1 a2 Hpending Ha2) as [_ Hfire].
  destruct Hfire as (q & Hq & Htq & _ & _ & Hactive & _).
  { rewrite Hnowq. change (due t1) with (now p + cooldown_ms)%N. lia. }
  exists q. split; [exact Hq|]. split; [|split].
  - unfold status_at. rewrite (Hactive Hs2). by rewrite lookup_insert_eq.
  - rewrite (proj1 (fire_fields _ _ _ Hq)), Hnowq. change (due t2) with (now p + d + cooldown_ms)%N. lia.
  - rewrite Htq. change (timers q0) with (timers p2). rewrite Ht2.
    apply delete_middle.
Qed.

End RosterFacts.

(** ** Selection and counters *)

Section Selection.
Import JS AccountPool Roster.

Lemma least_used_spec first rest :
  ∃ before after,
    first :: rest = before ++ least_used first rest :: after ∧
    Forall (λ b, requestCount (least_used first rest).2 ≤ requestCount b.2)%nat
      before ∧
    Forall (λ b, requestCount (least_used first rest).2 < requestCount b.2)%nat
      after.
Proof.
  induction rest as [|b rest IH] using rev_ind.
  - exists [], []. by repeat split.
  - destruct IH as (before & after & Hsplit & Hbefore & Hafter).
    unfold least_used in *. rewrite fold_left_app. cbn [fold_left].
    set (lu := fold_left _ rest first) in *.
    destruct (requestCount lu.2 <? requestCount b.2)%nat eqn:Hlt.
    + apply Nat.ltb_lt in Hlt. exists before, (after ++ [b]). split.
      * rewrite app_comm_cons, Hsplit, <- app_assoc. done.
      * split; [done|]. apply Forall_app. split; [done|].
        by apply Forall_singleton.
    + apply Nat.ltb_ge in Hlt. exists (first :: rest), []. split; [done|].
      split; [|constructor]. rewrite Hsplit. apply Forall_app. split.
      * eapply Forall_impl; [done|]. cbn. intros. lia.
      * constructor; [done|]. eapply Forall_impl; [done|]. cbn. intros. lia.
Qed.

Lemma selectAccount_some rnd p first rest l a index' :
  available p = first :: rest →
  (if bool_decide (strategy p = "random")
   then ((first :: rest) !! rnd (length (first :: rest)), roundRobinIndex p)
   else if bool_decide (strategy p = "least-used")
   then (Some (least_used first rest), roundRobinIndex p)
   else ((first :: rest) !! (roundRobinIndex p `mod` length (first :: rest)),
         S (roundRobinIndex p))) = (Some (l, a), index') →
  selectAccount rnd p =
  Ok (Some (id a, name a),
      save {| accounts := accounts p;
              store := <[l := used (now p) a]> (store p);
              strategy := strategy p; roundRobinIndex := index';
              timers := timers p; now := now p; disk := disk p |}).
Proof. unfold selectAccount. intros -> ->. done. Qed.

(** X19: under the [least-used] strategy [selectAccount] returns the
    last of the available accounts with the least [requestCount]: those
    before it in the order of the map have served at least as many
    requests, those after it strictly more, so that a tie goes to the
    later account.  The object of that account is the only one that
    changes. *)
Theorem least_used_picks_minimum (rnd : nat → nat) (p : pool)
    (sel : string * string) (p' : pool) :
  strategy p = "least-used" → selectAccount rnd p = Ok (Some sel, p') →
  ∃ before l a after,
    available p = before ++ (l, a) :: after ∧ sel = (id a, name a) ∧
    Forall (λ b, requestCount a ≤ requestCount b.2)%nat before ∧
    Forall (λ b, requestCount a < requestCount b.2)%nat after ∧
    store p' = <[l := used (now p) a]> (store p).
Proof.
  intros Hs. unfold selectAccount.
  destruct (available p) as [|first rest] eqn:Hav; [done|].
  rewrite Hs. rewrite bool_decide_false by done.
  rewrite bool_decide_true by done.
  destruct (least_used_spec first rest)
    as (before & after & Hsplit & Hbefore & Hafter).
  destruct (least_used first rest) as [l a]. intros [= <- <-].
  by exists before, l, a, after.
Qed.

(** X20: with a random source that stays below its bound, [selectAccount]
    never throws, under any strategy.  It returns [null] exactly when no
    account is available, and then leaves the pool as it is.  Otherwise it
    returns the [id] and [name] of an available account, whose object has
    one request more and the present time for [lastUsedAt]; the map and
    the timers are unchanged and the accounts file is written. *)
Theorem selectAccount_returns (rnd : nat → nat) (p : pool) :
  (∀ n, 0 < n → rnd n < n)%nat →
  ∃ sel p',
    selectAccount rnd p = Ok (sel, p') ∧
    match sel with
    | None => available p = [] ∧ p' = p
    | Some s =>
        ∃ l a, (l, a) ∈ available p ∧ s = (id a, name a) ∧
               store p' = <[l := used (now p) a]> (store p) ∧
               accounts p' = accounts p ∧ timers p' = timers p ∧
               disk p' = (values p').*2
    end.
Proof.
  intros Hrnd. destruct (available p) as [|first rest] eqn:Hav.
  { exists None, p. unfold selectAccount. by rewrite Hav. }
  set (n := length (first :: rest)).
  assert (0 < n)%nat as Hn by (cbn; lia).
  assert (∃ l a index',
            (if bool_decide (strategy p = "random")
             then ((first :: rest) !! rnd n, roundRobinIndex p)
             else if bool_decide (strategy p = "least-used")
             then (Some (least_used first rest), roundRobinIndex p)
             else ((first :: rest) !! (roundRobinIndex p `mod` n),
                   S (roundRobinIndex p))) = (Some (l, a), index') ∧
            (l, a) ∈ first :: rest) as (l & a & index' & Hchoice & Hin).
  { repeat case_bool_decide.
    - destruct (lookup_lt_is_Some_2 (first :: rest) (rnd n)) as [[l a] Hl];
        [by apply Hrnd|].
      exists l, a, (roundRobinIndex p). rewrite Hl. split; [done|].
      by eapply list_elem_of_lookup_2.
    - pose proof (least_used_elem first rest) as Hin.
      destruct (least_used first rest) as [l a]. by exists l, a, (roundRobinIndex p).
    - destruct (lookup_lt_is_Some_2 (first :: rest) (roundRobinIndex p `mod` n))
        as [[l a] Hl]; [apply Nat.mod_upper_bound; lia|].
      exists l, a, (S (roundRobinIndex p)). rewrite Hl. split; [done|].
      by eapply list_elem_of_lookup_2. }
  eexists (Some (id a, name a)), _. split.
  - by eapply selectAccount_some.
  - exists l, a. by repeat split.
Qed.

(** *** Round robin *)

Lemma available_after_use p q l a :
  accounts q = accounts p → store p !! l = Some a →
  store q = <[l := used (now p) a]> (store p) →
  ident <$> available q = ident <$> available p.
Proof.
  intros Hacc Ha Hstore. unfold available.
  rewrite (values_insert p q l a _ Hacc Ha Hstore).
  assert (∀ la, la ∈ values p → la.1 = l → la.2 = a) as Hl.
  { intros [l0 a0] [_ Hin]%values_elem Heq. cbn in *. congruence. }
  induction (values p) as [|[l0 a0] vs IH]; [done|].
  specialize (IH (λ la Hin, Hl la (list_elem_of_further _ _ _ Hin))).
  rewrite fmap_cons. cbn [fst].
  destruct (decide (l0 = l)) as [->|Hne].
  - assert (a0 = a) as -> by (apply (Hl (l, a0)); [by left | done]).
    rewrite !filter_cons. cbn [snd status used].
    destruct (decide (status a = active)); rewrite ?fmap_cons, IH; done.
  - rewrite !filter_cons. cbn [snd].
    destruct (decide (status a0 = active)); rewrite ?fmap_cons, IH; done.
Qed.

Lemma round_robin_step rnd p names :
  strategy p ≠ "random" → strategy p ≠ "least-used" →
  ident <$> available p = names → names ≠ [] →
  ∃ p', selectAccount rnd p
        = Ok (names !! (roundRobinIndex p `mod` length names), p') ∧
        strategy p' = strategy p ∧
        roundRobinIndex p' = S (roundRobinIndex p) ∧
        ident <$> available p' = names.
Proof.
  intros Hr Hl Hnames Hne.
  destruct (available p) as [|first rest] eqn:Hav; [by subst names|].
  assert (length names = length (first :: rest)) as Hlen
    by (by rewrite <- Hnames, length_fmap).
  destruct (lookup_lt_is_Some_2 (first :: rest)
              (roundRobinIndex p `mod` length (first :: rest)))
    as [[l a] Hla]; [apply Nat.mod_upper_bound; cbn; lia|].
  assert (names !! (roundRobinIndex p `mod` length names)
          = Some (id a, name a)) as ->.
  { rewrite Hlen, <- Hnames, list_lookup_fmap, Hla. done. }
  eexists. split; [|split; [|split]].
  - eapply selectAccount_some; [done|].
    rewrite !bool_decide_false by done. by rewrite Hla.
  - done.
  - done.
  - rewrite <- Hnames, <- Hav. eapply available_after_use; [done| |done].
    apply (available_store p). rewrite Hav. by eapply list_elem_of_lookup_2.
Qed.

(** X21: under the default strategy (any strategy but [random] and
    [least-used]), [k] calls of [selectAccount] in a row return the
    available accounts in the order of the map, cyclically, starting at
    [roundRobinIndex] modulo their number. *)
Theorem round_robin_order (rnd : nat → nat) (k : nat) (p : pool) :
  strategy p ≠ "random" → strategy p ≠ "least-used" → available p ≠ [] →
  let names := ident <$> available p in
  ∃ p',
    selections rnd k p =
    Ok ((λ j, names !! ((roundRobinIndex p + j) `mod` length names))
          <$> seq 0 k, p').
Proof.
  intros Hr Hl Hav names.
  assert (names ≠ []) as Hne by (unfold names; by destruct (available p)).
  assert (ident <$> available p = names) as Hnames by done.
  clearbody names. clear Hav.
  revert p Hr Hl Hnames. induction k as [|k IH]; intros p Hr Hl Hnames.
  - by eexists.
  - destruct (round_robin_step rnd p names Hr Hl Hnames Hne)
      as (p1 & Hsel & Hs1 & Hi1 & Hn1).
    destruct (IH p1) as (p2 & Hrest); [congruence..|].
    exists p2. cbn [selections]. rewrite Hsel. cbn [mbind result_bind].
    rewrite Hrest. cbn [mbind result_bind]. f_equal. f_equal.
    cbn [seq]. rewrite fmap_cons, Nat.add_0_r. f_equal.
    rewrite <- fmap_S_seq, <- list_fmap_compose. apply list_fmap_ext.
    intros _ j _. cbn. by rewrite Hi1, Nat.add_succ_r.
Qed.

(** *** Counters *)

Lemma fold_sum {A} (f : A → nat) (l : list A) : ∀ n,
  fold_left (λ sum a, sum + f a)%nat l n = (n + sum_list (f <$> l))%nat.
Proof.
  induction l as [|x l IH]; intros n; cbn; [lia|]. rewrite IH. lia.
Qed.

Lemma sum_update (f : account → nat) (vs : list (loc * account)) l a a' :
  NoDup vs.*1 → (l, a) ∈ vs →
  (sum_list (f <$> ((λ la, if decide (la.1 = l) then (l, a') else la) <$> vs).*2)
   + f a = sum_list (f <$> vs.*2) + f a')%nat.
Proof.
  induction vs as [|[l0 a0] vs IH]; [by intros _ ?%elem_of_nil|].
  rewrite fmap_cons. cbn [fst]. intros [Hl0 Hnd]%NoDup_cons Hin.
  rewrite !fmap_cons. cbn [fst snd sum_list].
  apply elem_of_cons in Hin as [[= <- <-]|Hin].
  - rewrite decide_True by done. cbn [snd].
    assert (((λ la : loc * account, if decide (la.1 = l) then (l, a') else la)
               <$> vs) = vs) as ->; [|unfold Datatypes.id; lia].
    clear -Hl0. induction vs as [|[l1 a1] vs IH]; [done|].
    rewrite fmap_cons in *. cbn [fst] in *.
    apply not_elem_of_cons in Hl0 as [Hne Hl0].
    rewrite decide_False by done. by rewrite IH.
  - destruct (decide (l0 = l)) as [->|Hne].
    + destruct Hl0. apply list_elem_of_fmap. by exists (l, a).
    + cbn [snd]. specialize (IH Hnd Hin). unfold Datatypes.id in *. lia.
Qed.

Lemma count_update s (vs : list (loc * account)) l a' :
  (∀ la, la ∈ vs → la.1 = l → status la.2 = status a') →
  count s ((λ la, if decide (la.1 = l) then (l, a') else la) <$> vs).*2
  = count s vs.*2.
Proof.
  unfold count. induction vs as [|[l0 a0] vs IH]; [done|]. intros Hst.
  specialize (IH (λ la Hin, Hst la (list_elem_of_further _ _ _ Hin))).
  rewrite !fmap_cons. cbn [fst snd].
  destruct (decide (l0 = l)) as [->|Hne].
  - rewrite !filter_cons. cbn [snd].
    rewrite <- (Hst (l, a0)) by (by left || done). cbn [snd].
    destruct (decide (status a0 = s)); cbn [length]; by rewrite IH.
  - rewrite !filter_cons. cbn [snd].
    destruct (decide (status a0 = s)); cbn [length]; by rewrite IH.
Qed.

Lemma getStats_update p q l a a' :
  consistent p → accounts q = accounts p → (l, a) ∈ values p →
  store q = <[l := a']> (store p) → status a' = status a →
  Stats.total (getStats q) = Stats.total (getStats p) ∧
  Stats.active (getStats q) = Stats.active (getStats p) ∧
  Stats.cooldown (getStats q) = Stats.cooldown (getStats p) ∧
  Stats.invalid (getStats q) = Stats.invalid (getStats p) ∧
  Stats.disabled (getStats q) = Stats.disabled (getStats p) ∧
  (Stats.totalRequests (getStats q) + requestCount a
   = Stats.totalRequests (getStats p) + requestCount a')%nat ∧
  (Stats.totalErrors (getStats q) + errorCount a
   = Stats.totalErrors (getStats p) + errorCount a')%nat.
Proof.
  intros Hp Hacc Hin Hstore Hstatus.
  pose proof Hin as [_ Ha]%values_elem.
  unfold getStats. cbn [Stats.total Stats.active Stats.cooldown Stats.invalid
                         Stats.disabled Stats.totalRequests Stats.totalErrors].
  rewrite (values_insert p q l a a' Hacc Ha Hstore).
  assert (∀ la, la ∈ values p → la.1 = l → status la.2 = status a') as Hst.
  { intros [l0 a0] [_ Hl0]%values_elem Heq. cbn in *. congruence. }
  assert (NoDup (values p).*1) as Hnd
    by (rewrite values_locs by done; apply Hp).
  rewrite !count_update by done. rewrite !fold_sum.
  pose proof (sum_update requestCount (values p) l a a' Hnd Hin).
  pose proof (sum_update errorCount (values p) l a a' Hnd Hin).
  rewrite !length_fmap. repeat split; lia.
Qed.

(** X22: the counters of [getStats] on a consistent pool.  A successful
    [selectAccount] adds one to [totalRequests] and changes nothing else;
    [recordError] without rate limit on a known account adds one to
    [totalErrors] and changes nothing else; [recordError] on an unknown
    [id] leaves the pool as it is. *)
Theorem getStats_counts (rnd : nat → nat) (p : pool) :
  consistent p →
  (∀ sel p', selectAccount rnd p = Ok (Some sel, p') →
     getStats p' =
     {| Stats.total := Stats.total (getStats p);
        Stats.active := Stats.active (getStats p);
        Stats.cooldown := Stats.cooldown (getStats p);
        Stats.invalid := Stats.invalid (getStats p);
        Stats.disabled := Stats.disabled (getStats p);
        Stats.totalRequests := S (Stats.totalRequests (getStats p));
        Stats.totalErrors := Stats.totalErrors (getStats p) |}) ∧
  (∀ i, is_Some (accounts_get i p) →
     getStats (recordError i false p) =
     {| Stats.total := Stats.total (getStats p);
        Stats.active := Stats.active (getStats p);
        Stats.cooldown := Stats.cooldown (getStats p);
        Stats.invalid := Stats.invalid (getStats p);
        Stats.disabled := Stats.disabled (getStats p);
        Stats.totalRequests := Stats.totalRequests (getStats p);
        Stats.totalErrors := S (Stats.totalErrors (getStats p)) |}) ∧
  (∀ i b, accounts_get i p = None → recordError i b p = p).
Proof.
  intros Hp. split; [|split].
  - intros sel p' (l & a & index' & Hin & _ & ->)%selectAccount_inv.
    apply available_elem in Hin as [Hin _].
    match goal with
    | |- getStats ?q = _ =>
        destruct (getStats_update p q l a _ Hp eq_refl Hin eq_refl eq_refl)
          as (H1 & H2 & H3 & H4 & H5 & H6 & H7);
        destruct (getStats q)
    end.
    cbn in *. f_equal; lia.
  - intros i [l Hi].
    destruct (proj2 (proj2 Hp) i l (accounts_get_elem _ _ _ Hi))
      as (a & Ha & Hid).
    assert ((l, a) ∈ values p) as Hin.
    { apply values_elem. split; [|exact Ha]. exists i.
      by apply accounts_get_elem. }
    unfold recordError. rewrite Hi, Ha.
    match goal with
    | |- getStats ?q = _ =>
        destruct (getStats_update p q l a _ Hp eq_refl Hin eq_refl eq_refl)
          as (H1 & H2 & H3 & H4 & H5 & H6 & H7);
        destruct (getStats q)
    end.
    cbn in *. f_equal; lia.
  - intros i b Hi. unfold recordError. by rewrite Hi.
Qed.

End Selection.

(** ** The roster on example pools *)

Section RosterExamples.
Import JS AccountPool Roster PoolExamples.

Lemma example_pool_consistent s : consistent (example_pool s).
Proof.
  split; [|split].
  - apply NoDup_singleton.
  - apply NoDup_singleton.
  - intros i l [= -> ->]%list_elem_of_singleton. by eexists.
Qed.

Lemma three_pool_consistent s : consistent (three_pool s).
Proof.
  split; [|split].
  - by compute_done.
  - by compute_done.
  - intros i l Hin.
    repeat (apply elem_of_cons in Hin as [[= -> ->]|Hin]; [by eexists|]).
    by apply elem_of_nil in Hin.
Qed.

(** [reachable_consistent] on a pool that has loaded one account and seen
    a rate limit on it. *)
Lemma reachable_consistent_witness :
  consistent
    (recordError "acc-1" true (load (constructor 0 [example_account active]))).
Proof.
  apply (reachable_consistent 0 [example_account active]).
  eapply rtc_l; [apply step_load|].
  eapply rtc_l; [apply step_recordError|].
  apply rtc_refl.
Defined.

(** [addAccount_adds] on the example pool: a second account is added
    without validation, and the write of the accounts file fails. *)
Lemma addAccount_adds_witness :
  let '(answer, p') :=
    addAccount "uuid" failing_write second_account true
      (example_pool active) in
  answer = Rejected (VStr "EACCES") ∧ is_Some (accounts_get "acc-2" p') ∧
  disk p' = [] ∧ consistent p'.
Proof.
  generalize (addAccount_adds "uuid" failing_write second_account true
                (example_pool active) (example_pool_consistent active)).
  cbv zeta.
  destruct (addAccount "uuid" failing_write second_account true
              (example_pool active)) as [answer p'].
  intros [_ Hadded].
  destruct Hadded as ((l & Hget & _) & Hcons & _ & Hwrite & _);
    [left; reflexivity|].
  destruct (Hwrite eq_refl (VStr "EACCES") eq_refl) as [Hanswer Hdisk].
  split; [exact Hanswer|]. split; [exists l; exact Hget|].
  split; [exact Hdisk | exact Hcons].
Defined.

(** [removeAccount_removes] on the example pool. *)
Lemma removeAccount_removes_witness :
  (removeAccount "acc-1" (example_pool active)).1 = true ∧
  accounts_get "acc-1" (removeAccount "acc-1" (example_pool active)).2 = None.
Proof.
  generalize (removeAccount_removes "acc-1" (example_pool active)
                (example_pool_consistent active)).
  destruct (removeAccount "acc-1" (example_pool active)) as [removed p'].
  intros (-> & Hnone & _). split; [reflexivity | exact Hnone].
Defined.

(** [removeAccounts_counts] on the pool of three accounts: two of the
    three identifiers are keys. *)
Lemma removeAccounts_counts_witness :
  let answer := (removeAccounts ["a"; "x"; "c"] (three_pool "round-robin")).1 in
  let p' := (removeAccounts ["a"; "x"; "c"] (three_pool "round-robin")).2 in
  answer.1 = 3%nat ∧ (answer.2 + length (accounts p') = 3)%nat.
Proof.
  generalize (removeAccounts_counts ["a"; "x"; "c"] (three_pool "round-robin")
                (three_pool_consistent "round-robin")).
  destruct (removeAccounts ["a"; "x"; "c"] (three_pool "round-robin"))
    as [[total removed] p'].
  intros (-> & _ & Hsum & _). split; [reflexivity | exact Hsum].
Defined.

(** [save_load_roundtrip] on the pool of three accounts. *)
Lemma save_load_roundtrip_witness :
  let p := three_pool "round-robin" in
  let q := load (constructor 5 (disk (save p))) in
  (values q).*2 = (values p).*2 ∧ getStats q = getStats p.
Proof.
  intros p q.
  destruct (save_load_roundtrip 5 p (three_pool_consistent "round-robin"))
    as (Hv & _ & _ & Hstats & _).
  split; [exact Hv | exact Hstats].
Defined.

(** [restart_forgets_timer] on the example pool. *)
Lemma restart_forgets_timer_witness :
  ∃ p2,
    fire 0 (elapse cooldown_ms
              (recordError "acc-1" true (example_pool active))) = Some p2 ∧
    status_at 0%nat p2 = Some active ∧
    ∃ l', accounts_get "acc-1" (load (constructor 9 (disk p2))) = Some l' ∧
          status_at l' (load (constructor 9 (disk p2))) = Some cooldown ∧
          timers (load (constructor 9 (disk p2))) = [].
Proof.
  destruct (restart_forgets_timer 9 (example_pool active) "acc-1" 0%nat
              (example_account active) (example_pool_consistent active)
              eq_refl eq_refl)
    as (p2 & Hfire & Hactive & l' & Hget & Hcool & Htimers & _).
  exists p2. split; [exact Hfire|]. split; [exact Hactive|].
  exists l'. split; [exact Hget|]. split; [exact Hcool | exact Htimers].
Defined.

(** [second_rate_limit_keeps_first_timer] on the example pool, the second
    rate limit coming one second after the first. *)
Lemma second_rate_limit_keeps_first_timer_witness :
  let p := example_pool active in
  let p2 := recordError "acc-1" true (elapse 1000 (recordError "acc-1" true p)) in
  status_at 0%nat p2 = Some cooldown ∧
  ∃ q, fire 0 (elapse (cooldown_ms - 1000) p2) = Some q ∧
       status_at 0%nat q = Some active ∧ length (timers q) = 1%nat.
Proof.
  intros p p2.
  destruct (second_rate_limit_keeps_first_timer p "acc-1" 0%nat
              (example_account active) 1000 eq_refl eq_refl)
    as (Hcool & _ & q & Hfire & Hactive & _ & Htimers);
    [unfold cooldown_ms; lia|].
  split; [exact Hcool|]. exists q. split; [exact Hfire|].
  split; [exact Hactive|]. rewrite Htimers. reflexivity.
Defined.

(** [least_used_picks_minimum] on the pool of three accounts: [b] and [c]
    have both served one request, and [c] comes last. *)
Lemma least_used_picks_minimum_witness :
  ∃ p' before l a after,
    selectAccount (λ _, 0%nat) (three_pool "least-used")
      = Ok (Some ("c", "C"), p') ∧
    available (three_pool "least-used") = before ++ (l, a) :: after ∧
    ("c", "C") = (id a, name a) ∧
    Forall (λ b, requestCount a ≤ requestCount b.2)%nat before ∧
    Forall (λ b, requestCount a < requestCount b.2)%nat after.
Proof.
  edestruct (least_used_picks_minimum (λ _, 0%nat) (three_pool "least-used")
               ("c", "C"))
    as (before & l & a & after & Hav & Hsel & Hbefore & Hafter & _);
    [reflexivity | vm_compute; reflexivity |].
  eexists _, before, l, a, after.
  split; [vm_compute; reflexivity|]. split; [exact Hav|].
  split; [exact Hsel|]. split; [exact Hbefore | exact Hafter].
Defined.

(** [selectAccount_returns] on the pool of three accounts, under the
    [random] strategy with a source that always gives 0. *)
Lemma selectAccount_returns_witness :
  ∃ sel p',
    selectAccount (λ _, 0%nat) (three_pool "random") = Ok (sel, p').
Proof.
  destruct (selectAccount_returns (λ _, 0%nat) (three_pool "random"))
    as (sel & p' & Hsel & _); [intros n Hn; exact Hn|].
  exists sel, p'. exact Hsel.
Defined.

(** [round_robin_order] on the pool of three accounts: four calls. *)
Lemma round_robin_order_witness :
  ∃ p',
    selections (λ _, 0%nat) 4 (three_pool "round-robin") =
    Ok ([Some ("a", "A"); Some ("b", "B"); Some ("c", "C"); Some ("a", "A")],
        p').
Proof.
  destruct (round_robin_order (λ _, 0%nat) 4 (three_pool "round-robin"))
    as [p' Hsel]; [discriminate | discriminate | vm_compute; discriminate |].
  exists p'. rewrite Hsel. vm_compute. reflexivity.
Defined.

(** [getStats_counts] on the pool of three accounts: an error on [a]. *)
Lemma getStats_counts_witness :
  getStats (recordError "a" false (three_pool "round-robin")) =
  {| Stats.total := 3; Stats.active := 3; Stats.cooldown := 0;
     Stats.invalid := 0; Stats.disabled := 0; Stats.totalRequests := 4;
     Stats.totalErrors := 1 |}.
Proof.
  rewrite (proj1 (proj2 (getStats_counts (λ _, 0%nat)
                           (three_pool "round-robin")
                           (three_pool_consistent "round-robin"))) "a").
  - vm_compute. reflexivity.
  - vm_compute. eexists. reflexivity.
Defined.

End RosterExamples.
